(** * mismo.dj controller server: event normalisation, translation and routing

  A shallow embedding of the JavaScript sources
  (MIDIManager / HIDManager, MIDITranslator / HIDTranslator, ActionRouter,
  FeedbackManager and the mapping validator) together with the
  properties of the written specification that concern them.

  Conventions of the embedding:
  - an absent object property ([undefined]) is [None];
  - JavaScript numbers are exact rationals extended with [NaN] and the two
    infinities (IEEE rounding is not modelled);
  - [Date.now()] reads the next value of an explicit clock;
  - a [throw] is the [Thrown] outcome, [try]/[catch] is [try_catch];
  - plain objects that the code iterates with [Object.entries] are
    association lists in iteration order, [Map]s are [gmap]s. *)

From Stdlib Require Import ZArith QArith Qpower Ascii String.
From stdpp Require Import base option list gmap strings pretty.

Local Open Scope string_scope.
Local Open Scope list_scope.
Local Open Scope Z_scope.
Set Warnings "-register-all".

(* ================================================================== *)
(** ** JavaScript values and helpers *)
(* ================================================================== *)

Module JS.

(** Numbers: rationals, [NaN], [Infinity] and [-Infinity]. *)
Inductive number : Type :=
| Num (q : Q)
| NaN
| Inf (negative : bool).

Definition ofZ (z : Z) : number := Num (inject_Z z).

(** [ToNumber] on a possibly absent numeric property:
    [undefined] converts to [NaN]. *)
Definition toNumber (x : option number) : number :=
  match x with Some n => n | None => NaN end.

Definition Qsign_neg (q : Q) : bool := (Qnum q <? 0)%Z.
Definition Qis_zero (q : Q) : bool := (Qnum q =? 0)%Z.

Definition add (a b : number) : number :=
  match a, b with
  | Num x, Num y => Num (x + y)
  | NaN, _ | _, NaN => NaN
  | Inf s, Inf s' => if Bool.eqb s s' then Inf s else NaN
  | Inf s, Num _ | Num _, Inf s => Inf s
  end.

Definition neg (a : number) : number :=
  match a with
  | Num x => Num (- x)
  | NaN => NaN
  | Inf s => Inf (negb s)
  end.

Definition sub (a b : number) : number := add a (neg b).

Definition mul (a b : number) : number :=
  match a, b with
  | Num x, Num y => Num (x * y)
  | NaN, _ | _, NaN => NaN
  | Inf s, Inf s' => Inf (xorb s s')
  | Inf s, Num y | Num y, Inf s =>
      if Qis_zero y then NaN else Inf (xorb s (Qsign_neg y))
  end.

Definition div (a b : number) : number :=
  match a, b with
  | Num x, Num y =>
      if Qis_zero y
      then (if Qis_zero x then NaN else Inf (Qsign_neg x))
      else Num (x / y)
  | NaN, _ | _, NaN => NaN
  | Inf _, Inf _ => NaN
  | Inf s, Num y => Inf (xorb s (Qsign_neg y))
  | Num _, Inf _ => Num 0
  end.

(** [a > b]; any comparison with [NaN] is false. *)
Definition gt (a b : number) : bool :=
  match a, b with
  | Num x, Num y => negb (Qle_bool x y)
  | NaN, _ | _, NaN => false
  | Inf sa, Inf sb => negb sa && sb
  | Inf sa, Num _ => negb sa
  | Num _, Inf sb => sb
  end.

(** Truthiness of a number: [0] and [NaN] are falsy. *)
Definition truthy_number (a : number) : bool :=
  match a with
  | Num x => negb (Qis_zero x)
  | NaN => false
  | Inf _ => true
  end.

(** Truthiness of a possibly absent number. *)
Definition truthy (x : option number) : bool :=
  match x with Some n => truthy_number n | None => false end.

(** [x || y] on possibly absent numbers. *)
Definition or_else (x y : option number) : option number :=
  if truthy x then x else y.

(** Values that can end up in an action field. *)
Inductive value : Type :=
| VUndefined
| VNull
| VBool (b : bool)
| VNumber (n : number)
| VString (s : string)
| VObject (fields : list (string * value)).

Definition ofOption (x : option number) : value :=
  match x with Some n => VNumber n | None => VUndefined end.

Definition truthy_value (v : value) : bool :=
  match v with
  | VUndefined | VNull => false
  | VBool b => b
  | VNumber n => truthy_number n
  | VString s => negb (String.eqb s EmptyString)
  | VObject _ => true
  end.

(** Truthiness of a string property that may be absent. *)
Definition truthy_string (s : option string) : bool :=
  match s with Some x => negb (String.eqb x EmptyString) | None => false end.

(** Outcome of a computation that may throw. *)
Inductive outcome (A : Type) : Type :=
| Returned (a : A)
| Thrown (message : string).
Arguments Returned {A} a.
Arguments Thrown {A} message.

Definition obind {A B} (m : outcome A) (k : A -> outcome B) : outcome B :=
  match m with
  | Returned a => k a
  | Thrown e => Thrown e
  end.

(** [try { body } catch (error) { handler }]. *)
Definition try_catch {A} (body : outcome A) (handler : string -> outcome A)
  : outcome A :=
  match body with
  | Returned a => Returned a
  | Thrown e => handler e
  end.

(** [new Function(p1, ..., pn, body)(a1, ..., an)]: the parameter names,
    the body text and the arguments give a result or a thrown error
    (a syntax error of the body or of a parameter name, a reference to
    an unknown variable, ...).  The translators are parametrised by it. *)
Definition FunctionConstructor : Type :=
  list string -> string -> list value -> outcome value.

(** [object[name]] on an object kept as its list of entries. *)
Fixpoint lookup_entry {A} (name : string) (entries : list (string * A)) : option A :=
  match entries with
  | [] => None
  | (k, v) :: rest => if String.eqb k name then Some v else lookup_entry name rest
  end.

(** [object[name] = v]: overwrite in place, or append a new property. *)
Fixpoint assign_entry {A} (name : string) (v : A) (entries : list (string * A))
  : list (string * A) :=
  match entries with
  | [] => [(name, v)]
  | (k, w) :: rest =>
      if String.eqb k name then (k, v) :: rest
      else (k, w) :: assign_entry name v rest
  end.

(** [{ ...target, ...source }]. *)
Definition spread {A} (target source : list (string * A)) : list (string * A) :=
  foldl (fun acc kv => assign_entry kv.1 kv.2 acc) target source.

(** [toLowerCase] and [toUpperCase] on the letters of ASCII; other
    characters are kept. *)
Definition lower_char (a : ascii) : ascii :=
  let n := N_of_ascii a in
  if ((65 <=? n) && (n <=? 90))%N then ascii_of_N (n + 32) else a.

Definition upper_char (a : ascii) : ascii :=
  let n := N_of_ascii a in
  if ((97 <=? n) && (n <=? 122))%N then ascii_of_N (n - 32) else a.

Fixpoint toLowerCase (s : string) : string :=
  match s with
  | EmptyString => EmptyString
  | String a rest => String (lower_char a) (toLowerCase rest)
  end.

Fixpoint toUpperCase (s : string) : string :=
  match s with
  | EmptyString => EmptyString
  | String a rest => String (upper_char a) (toUpperCase rest)
  end.

(** No character of [s] is [c]. *)
Fixpoint free_of (c : ascii) (s : string) : Prop :=
  match s with
  | EmptyString => True
  | String a rest => a ≠ c ∧ free_of c rest
  end.

(** The wall clock.  [Date.now()] returns the next reading. *)
Record clock : Type := { reading : nat -> Z; reads : nat }.

Definition Date_now (c : clock) : Z * clock :=
  (reading c (reads c), {| reading := reading c; reads := S (reads c) |}).

(** A clock that shows the given readings, then stays at the last one. *)
Definition clock_of (times : list Z) : clock :=
  {| reading := fun i => nth i times (List.last times 0); reads := 0 |}.

(** Stateful code over an object of type [S] and the clock. *)
Definition M (S A : Type) : Type := S -> clock -> A * S * clock.

Definition ret {S A} (a : A) : M S A := fun s c => (a, s, c).

Definition bind {S A B} (m : M S A) (k : A -> M S B) : M S B :=
  fun s c => let '(a, s', c') := m s c in k a s' c'.

Definition get {S} : M S S := fun s c => (s, s, c).
Definition put {S} (s : S) : M S unit := fun _ c => (tt, s, c).
Definition now {S} : M S Z := fun s c => let '(t, c') := Date_now c in (t, s, c').

End JS.

Import JS.

Declare Scope js_scope.
Delimit Scope js_scope with js.
Notation "'let*' x ':=' m 'in' k" := (JS.bind m (fun x => k))
(at level 10, x pattern, m at level 100, k at level 200) : js_scope.
Notation "m ';;' k" := (JS.bind m (fun _ => k))
(at level 100, k at level 200, right associativity) : js_scope.

(* ================================================================== *)
(** ** MIDIManager: normalisation and 14-bit CC reconstruction *)
(* ================================================================== *)

Module MIDIManager.

(** A normalised MIDI event, with the fields the 14-bit path adds. *)
Record MidiEvent : Type := {
  deviceId : string;
  type : string;
  channel : Z;
  timestamp : Z;
  note : option Z;
  velocity : option number;
  controller : option Z;
  value : option number;
  program : option Z;
  value14bit : option number;
  maxValue : option Z;
  normalized : option number;
  highRes : bool;
  lsbController : option Z;
  msb : option number;
  lsb : option number
}.

(** The raw driver message. *)
Record RawMessage : Type := {
  raw_channel : Z;
  raw_note : option Z;
  raw_velocity : option number;
  raw_controller : option Z;
  raw_value : option number;
  raw_number : option Z
}.

Definition base_event (deviceId type : string) (channel now : Z) : MidiEvent :=
  {| deviceId := deviceId; type := type; channel := channel; timestamp := now;
     note := None; velocity := None; controller := None; value := None;
     program := None; value14bit := None; maxValue := None;
     normalized := None; highRes := false; lsbController := None;
     msb := None; lsb := None |}.

(** One pending MSB: [{ value, timestamp, channel }]. *)
Record Pending : Type := {
  p_value : option number;
  p_timestamp : Z;
  p_channel : Z
}.

(** The manager's 14-bit state: [highResCCState] maps a device id to the map
    from ["channel:controller"] to the pending MSB. *)
Record t : Type := {
  highResCCState : gmap string (gmap string Pending);
  highResCCTimeout : Z
}.

Definition new : t := {| highResCCState := ∅; highResCCTimeout := 50 |}.

Definition _normalizeMIDIMessage (deviceId type : string) (rawMessage : RawMessage)
  : M t MidiEvent :=
  (let* t := JS.now in
   let normalized := base_event deviceId type (raw_channel rawMessage) t in
   ret
     (if String.eqb type "noteon" || String.eqb type "noteoff" then
        {| deviceId := deviceId; type := type; channel := raw_channel rawMessage;
           timestamp := t;
           note := raw_note rawMessage; velocity := raw_velocity rawMessage;
           controller := None; value := None; program := None;
           value14bit := None; maxValue := None; normalized := None;
           highRes := false; lsbController := None; msb := None; lsb := None |}
      else if String.eqb type "cc" then
        {| deviceId := deviceId; type := type; channel := raw_channel rawMessage;
           timestamp := t;
           note := None; velocity := None;
           controller := raw_controller rawMessage; value := raw_value rawMessage;
           program := None;
           value14bit := None; maxValue := None; normalized := None;
           highRes := false; lsbController := None; msb := None; lsb := None |}
      else if String.eqb type "pitch" then
        {| deviceId := deviceId; type := type; channel := raw_channel rawMessage;
           timestamp := t;
           note := None; velocity := None;
           controller := None; value := raw_value rawMessage; program := None;
           value14bit := None; maxValue := None; normalized := None;
           highRes := false; lsbController := None; msb := None; lsb := None |}
      else if String.eqb type "program" then
        {| deviceId := deviceId; type := type; channel := raw_channel rawMessage;
           timestamp := t;
           note := None; velocity := None;
           controller := None; value := None; program := raw_number rawMessage;
           value14bit := None; maxValue := None; normalized := None;
           highRes := false; lsbController := None; msb := None; lsb := None |}
      else normalized))%js.

(** The template string [`${channel}:${controller}`]. *)
Definition key_of (channel controller : Z) : string :=
  pretty channel +:+ ":" +:+ pretty controller.

(** The device's pending table, [new Map()] when the device is unknown. *)
Definition deviceState (m : t) (deviceId : string) : gmap string Pending :=
  default ∅ (highResCCState m !! deviceId).

Definition set_deviceState (m : t) (deviceId : string) (ds : gmap string Pending) : t :=
  {| highResCCState := <[deviceId := ds]> (highResCCState m);
     highResCCTimeout := highResCCTimeout m |}.

(** The clean-up loop of the MSB branch: delete every entry with
    [now - v.timestamp > timeout]. *)
Definition sweep (timeout now : Z) (ds : gmap string Pending) : gmap string Pending :=
  filter (fun kv => negb (now - p_timestamp kv.2 >? timeout) = true) ds.

(** The combined event returned when an LSB completes a pair. *)
Definition combined_event (ccMessage : MidiEvent) (msbController lsbController : Z)
    (msbValue value : option number) : MidiEvent :=
  let combinedValue := add (mul (toNumber msbValue) (ofZ 128)) (toNumber value) in
  {| deviceId := deviceId ccMessage; type := type ccMessage;
     channel := channel ccMessage; timestamp := timestamp ccMessage;
     note := note ccMessage; velocity := velocity ccMessage;
     controller := Some msbController;
     value := Some combinedValue;
     program := program ccMessage;
     value14bit := Some combinedValue;
     maxValue := Some 16383;
     normalized := Some (div combinedValue (ofZ 16383));
     highRes := true;
     lsbController := Some lsbController;
     msb := msbValue;
     lsb := value |}.

Definition _handle14BitCC (deviceId : string) (ccMessage : MidiEvent)
  : M t (option MidiEvent) :=
  (if negb (String.eqb (type ccMessage) "cc") then ret None else
   let value := value ccMessage in
   let channel := channel ccMessage in
   (* Initialize device state if needed *)
   let* m := get in
   put (set_deviceState m deviceId (deviceState m deviceId));;
   match controller ccMessage with
   | None => ret None
   | Some controller =>
       let isLSB := (32 <=? controller) && (controller <? 64) in
       let msbController := if isLSB then controller - 32 else controller in
       let lsbController := msbController + 32 in
       if isLSB then
         let key := key_of channel msbController in
         let* m := get in
         match deviceState m deviceId !! key with
         | None => ret None
         | Some msbData =>
             let* t := JS.now in
             if t - p_timestamp msbData <? highResCCTimeout m then
               put (set_deviceState m deviceId (delete key (deviceState m deviceId)));;
               ret (Some (combined_event ccMessage msbController lsbController
                            (p_value msbData) value))
             else ret None
         end
       else if controller <? 32 then
         let key := key_of channel controller in
         let* t := JS.now in
         let* m := get in
         put (set_deviceState m deviceId
                (<[key := {| p_value := value; p_timestamp := t; p_channel := channel |}]>
                   (deviceState m deviceId)));;
         let* now := JS.now in
         let* m := get in
         put (set_deviceState m deviceId
                (sweep (highResCCTimeout m) now (deviceState m deviceId)));;
         ret None
       else ret None
   end)%js.

(** A CC message on channel [ch] for controller [ctrl]. *)
Definition is_cc (msg : MidiEvent) (ch ctrl : Z) : Prop :=
  type msg = "cc" ∧ channel msg = ch ∧ controller msg = Some ctrl.

(** No entry of a pending table is older than the window at time [now]. *)
Definition no_stale (timeout now : Z) (ds : gmap string Pending) : Prop :=
  ∀ k p, ds !! k = Some p → now - p_timestamp p ≤ timeout.

(** A plain CC message as the normaliser builds it. *)
Definition cc_event (deviceId : string) (channel controller value now : Z) : MidiEvent :=
  {| deviceId := deviceId; type := "cc"; channel := channel; timestamp := now;
     note := None; velocity := None; controller := Some controller;
     value := Some (ofZ value); program := None; value14bit := None;
     maxValue := None; normalized := None; highRes := false;
     lsbController := None; msb := None; lsb := None |}.

(** The ['cc'] handler of [_setupInputHandlers]: normalise, try the 14-bit
    pairing, and emit the combined event or else the plain one.  The result
    is the event emitted on ['input']. *)
Definition on_cc (deviceId : string) (msg : RawMessage) : M t MidiEvent :=
  (let* normalized := _normalizeMIDIMessage deviceId "cc" msg in
   let* processed := _handle14BitCC deviceId normalized in
   match processed with
   | Some combined => ret combined
   | None => ret normalized
   end)%js.

(** A raw CC message of the driver. *)
Definition raw_cc (channel controller value : Z) : RawMessage :=
  {| raw_channel := channel; raw_note := None; raw_velocity := None;
     raw_controller := Some controller; raw_value := Some (ofZ value);
     raw_number := None |}.

End MIDIManager.

(* ================================================================== *)
(** ** HIDManager: report parsing, state diffing and polling *)
(* ================================================================== *)

Module HIDManager.

(** One entry of [config.parsing.controls]. *)
Record ControlConfig : Type := {
  c_type : option string;
  c_byte : option Z;
  c_bit : option Z;
  c_bytes : option (list Z);
  c_signed : bool;
  c_resolution : option Z;
  c_min : option number;
  c_max : option number
}.

(** 32-bit integer operations of JavaScript. *)
Definition toInt32 (z : Z) : Z := (z + 2 ^ 31) mod 2 ^ 32 - 2 ^ 31.
Definition shl (x n : Z) : Z := toInt32 (Z.shiftl (toInt32 x) (n mod 32)).
Definition sar (x n : Z) : Z := Z.shiftr (toInt32 x) (n mod 32).
Definition bor (x y : Z) : Z := Z.lor (toInt32 x) (toInt32 y).
Definition band (x y : Z) : Z := Z.land (toInt32 x) (toInt32 y).

(** [data[index]] on the report buffer: [undefined] outside the buffer
    or when the index itself is missing. *)
Definition at_index (data : list Z) (index : option Z) : option Z :=
  match index with
  | Some i => if i <? 0 then None else data !! Z.to_nat i
  | None => None
  end.

(** One parsed control: [{ value, type, config }], plus the
    [absolutePosition] that [_computeDeltas] attaches to delta controls. *)
Record ControlState : Type := {
  s_value : option Z;
  s_type : option string;
  s_config : ControlConfig;
  s_absolutePosition : option number
}.

Definition State : Type := list (string * ControlState).

(** The little-endian accumulation loop over [controlConfig.bytes]. *)
Fixpoint accumulate (data : list Z) (indices : list Z) (i : Z) (rawValue : Z) : Z :=
  match indices with
  | [] => rawValue
  | byteIndex :: rest =>
      match at_index data (Some byteIndex) with
      | None => accumulate data rest (i + 1) rawValue
      | Some byte => accumulate data rest (i + 1) (bor rawValue (shl byte (i * 8)))
      end
  end.

(** The value the parser extracts for one control; the outer [None] is the
    [continue] of the button case, the inner one an [undefined] value. *)
Definition parse_control (data : list Z) (cfg : ControlConfig) : option (option Z) :=
  if bool_decide (c_type cfg = Some "button") then
    match at_index data (c_byte cfg) with
    | None => None
    | Some byte => Some (Some (band (sar byte (default 0 (c_bit cfg))) 1))
    end
  else
    match c_bytes cfg with
    | Some indices =>
        let rawValue := accumulate data indices 0 0 in
        let resolution := default 0 (c_resolution cfg) in
        if c_signed cfg && negb (resolution =? 0) then
          let maxVal := shl 1 resolution in
          (* rawValue >= maxVal / 2 *)
          if maxVal <=? 2 * rawValue then Some (Some (rawValue - maxVal))
          else Some (Some rawValue)
        else Some (Some rawValue)
    | None =>
        match c_byte cfg with
        | Some _ => Some (at_index data (c_byte cfg))
        | None => Some None
        end
    end.

(** The parser closure built by [_createParser].  The controls are the
    entries of [config.parsing.controls] (distinct names, in iteration
    order); the state gets one entry per control that was not skipped. *)
Fixpoint parser (controls : list (string * ControlConfig)) (data : list Z) : State :=
  match controls with
  | [] => []
  | (controlName, controlConfig) :: rest =>
      match parse_control data controlConfig with
      | None => parser rest data
      | Some value =>
          (controlName,
           {| s_value := value; s_type := c_type controlConfig;
              s_config := controlConfig; s_absolutePosition := None |})
          :: parser rest data
      end
  end.

Record Delta : Type := {
  d_control : string;
  d_type : option string;
  d_value : option number;
  d_previousValue : option Z;
  d_delta : option number
}.

Record DeviceInfo : Type := {
  controls : list (string * ControlConfig);
  state : State;
  previousState : State
}.

Record t : Type := { devices : gmap string DeviceInfo }.

(** What [connectDevice] stores for a new device. *)
Definition connected (controls : list (string * ControlConfig)) : DeviceInfo :=
  {| controls := controls; state := []; previousState := [] |}.

(** The loop body of [_computeDeltas] for one control: the delta, if any,
    and the control state (updated for delta controls). *)
Definition delta_of (previousState : State) (controlName : string)
    (controlState : ControlState) : option Delta * ControlState :=
  let previous := lookup_entry controlName previousState in
  let previousValue := previous ≫= s_value in
  let currentValue := s_value controlState in
  if bool_decide (previousValue = currentValue) then (None, controlState)
  else if bool_decide (s_type controlState = Some "delta") then
    let position :=
      add (toNumber (or_else (previous ≫= s_absolutePosition) (Some (ofZ 0))))
          (toNumber (ofZ <$> currentValue)) in
    (Some {| d_control := controlName; d_type := s_type controlState;
             d_value := Some position;
             d_previousValue := previousValue;
             d_delta := ofZ <$> currentValue |},
     {| s_value := s_value controlState; s_type := s_type controlState;
        s_config := s_config controlState;
        s_absolutePosition := Some position |})
  else
    (Some {| d_control := controlName; d_type := s_type controlState;
             d_value := ofZ <$> currentValue;
             d_previousValue := previousValue;
             d_delta := Some (sub (toNumber (ofZ <$> currentValue))
                                  (ofZ (default 0 previousValue))) |},
     controlState).

(** [_computeDeltas], against the device's [previousState]; also returns
    the current state with the positions it wrote into it. *)
Fixpoint compute_deltas (previousState : State) (currentState : State)
  : list Delta * State :=
  match currentState with
  | [] => ([], [])
  | (controlName, controlState) :: rest =>
      let '(d, controlState') := delta_of previousState controlName controlState in
      let '(ds, rest') := compute_deltas previousState rest in
      (match d with Some x => x :: ds | None => ds end,
       (controlName, controlState') :: rest')
  end.

Definition _computeDeltas (m : t) (deviceId : string) (currentState : State)
  : list Delta * State :=
  match devices m !! deviceId with
  | None => ([], currentState)
  | Some deviceInfo => compute_deltas (previousState deviceInfo) currentState
  end.

(** The event emitted on ['input'] for one delta. *)
Record HidEvent : Type := {
  e_deviceId : string;
  e_control : string;
  e_type : option string;
  e_value : option number;
  e_delta : option number;
  e_timestamp : Z;
  e_rawState : State
}.

Fixpoint emit_all (deviceId : string) (currentState : State) (deltas : list Delta)
  : M t (list HidEvent) :=
  match deltas with
  | [] => ret []
  | delta :: rest =>
      (let* now := JS.now in
       let* events := emit_all deviceId currentState rest in
       ret ({| e_deviceId := deviceId; e_control := d_control delta;
               e_type := d_type delta; e_value := d_value delta;
               e_delta := d_delta delta; e_timestamp := now;
               e_rawState := currentState |} :: events))%js
  end.

(** One poll.  [read] is what [device.readTimeout(10)] gives: the report
    bytes, or a thrown error.  The result lists the emitted events. *)
Definition _pollDevice (deviceId : string) (read : outcome (list Z))
  : M t (list HidEvent) :=
  (let* m := get in
   match devices m !! deviceId with
   | None => ret []
   | Some deviceInfo =>
       match read with
       | Thrown _ => ret []
       | Returned [] => ret []
       | Returned data =>
           (* Parse report into structured state *)
           let currentState := parser (controls deviceInfo) data in
           (* Compute deltas from previous state *)
           let '(deltas, currentState) := _computeDeltas m deviceId currentState in
           (* Update state *)
           put {| devices :=
                    <[deviceId :=
                        {| controls := controls deviceInfo;
                           state := currentState;
                           previousState := state deviceInfo |}]> (devices m) |};;
           emit_all deviceId currentState deltas
       end
   end)%js.

(** The value of a field sent low byte first. *)
Fixpoint little_endian (bytes : list Z) : Z :=
  match bytes with
  | [] => 0
  | b :: rest => b + 256 * little_endian rest
  end.

(** The parsed value of a control changed against [previousState]. *)
Definition changed (previousState : State) (entry : string * ControlState) : bool :=
  negb (bool_decide (lookup_entry entry.1 previousState ≫= s_value = s_value entry.2)).

End HIDManager.

(* ================================================================== *)
(** ** Actions and the downstream client *)
(* ================================================================== *)

Module Actions.

(** The action object the translators build and the router forwards. *)
Record Action : Type := {
  type : option string;
  command : option string;
  target : option string;
  priority : option string;
  timestamp : option Z;
  deviceId : option string;
  from : option string;
  deck : option string;
  value : JS.value;
  delta : option number;
  direction : JS.value;
  mode : JS.value;
  rawValue : option number
}.

(** The flat message sent to the Audio Engine. *)
Record Message : Type := {
  m_type : option string;
  m_command : option string;
  m_target : option string;
  m_priority : option string;
  m_timestamp : Z;
  m_deck : option string;
  m_value : JS.value;
  m_delta : option number;
  m_direction : JS.value;
  m_from : option string
}.

End Actions.

Module AudioEngineClient.
Import Actions.

(** The socket records what was written to it; [ws_send_throws] stands for
    a socket whose [send] throws. *)
Record WebSocket : Type := {
  ws_sent : list Message;
  ws_send_throws : bool
}.

Record t : Type := {
  connected : bool;
  ws : option WebSocket
}.

Definition send (data : Message) (cl : t) : bool * t :=
  match ws cl with
  | Some sock =>
      if negb (connected cl) then (false, cl)
      else if ws_send_throws sock then (false, cl)
      else (true, {| connected := connected cl;
                     ws := Some {| ws_sent := ws_sent sock ++ [data];
                                   ws_send_throws := ws_send_throws sock |} |})
  | None => (false, cl)
  end.

(** What has been written to the socket so far. *)
Definition wire (cl : t) : list Message :=
  match ws cl with Some sock => ws_sent sock | None => [] end.

(** Connected, with a socket whose [send] works. *)
Definition ready (cl : t) : Prop :=
  connected cl = true ∧ ∃ sock, ws cl = Some sock ∧ ws_send_throws sock = false.

End AudioEngineClient.

(* ================================================================== *)
(** ** AudioEngineClient: reconnection with backoff *)
(* ================================================================== *)

Module Reconnect.

(** The reconnection fields of the client.  [maxReconnectAttempts] is
    [Infinity] unless set ([None] stands for [Infinity]); [reconnectTimer]
    holds the delay of the pending timeout, if one is pending. *)
Record t : Type := {
  reconnectAttempts : Z;
  maxReconnectAttempts : option Z;
  reconnectInterval : Z;
  reconnectTimer : option Q
}.

Definition new : t :=
  {| reconnectAttempts := 0; maxReconnectAttempts := None;
     reconnectInterval := 5000; reconnectTimer := None |}.

(** [Math.min] on finite numbers. *)
Definition min (a b : Q) : Q := if Qle_bool a b then a else b.

(** [Math.min(reconnectInterval * Math.pow(1.5, attempts - 1), 60000)].
    Powers of 1.5 are exact in double precision as long as they matter
    here: where rounding or overflow sets in, the product is far above
    60000 and the minimum is 60000 either way. *)
Definition backoff (interval attempts : Z) : Q :=
  min (inject_Z interval * Qpower (3 # 2) (attempts - 1)) (inject_Z 60000).

Definition _scheduleReconnect (cl : t) : t :=
  match reconnectTimer cl with
  | Some _ => cl
  | None =>
      if match maxReconnectAttempts cl with
         | Some limit => limit <=? reconnectAttempts cl
         | None => false
         end
      then cl
      else
        let attempts := reconnectAttempts cl + 1 in
        {| reconnectAttempts := attempts;
           maxReconnectAttempts := maxReconnectAttempts cl;
           reconnectInterval := reconnectInterval cl;
           reconnectTimer := Some (backoff (reconnectInterval cl) attempts) |}
  end.


(** The ['open'] handler resets the backoff. *)
Definition on_open (cl : t) : t :=
  {| reconnectAttempts := 0;
     maxReconnectAttempts := maxReconnectAttempts cl;
     reconnectInterval := 5000;
     reconnectTimer := reconnectTimer cl |}.


End Reconnect.

(* ================================================================== *)
(** ** Mapping configuration and its validation *)
(* ================================================================== *)

Module Config.

(** [mapping.action]: the action template of one control mapping. *)
Record ActionTemplate : Type := {
  a_type : option string;
  a_command : option string;
  a_value : JS.value;
  a_valueExpression : option string;
  a_direction : option string;
  a_mode : option string;
  a_deck : option string;
  a_target : option string;
  a_priority : option string;
  a_emitRelease : bool
}.

(** [mapping.midi]: the wire pattern of a MIDI control mapping. *)
Record MidiPattern : Type := {
  p_type : option string;
  p_channel : option Z;
  p_note : option Z;
  p_controller : option Z
}.

(** One entry of [mappings]. *)
Record ControlMapping : Type := {
  midi : option MidiPattern;
  action : option ActionTemplate;
  target : option string;
  priority : option string;
  condition : option string
}.

Record Device : Type := {
  name : option string;
  protocol : option string
}.

Record Parsing : Type := {
  controls : list (string * HIDManager.ControlConfig)
}.

(** A device mapping file after [JSON.parse]. *)
Record t : Type := {
  device : option Device;
  mappings : option (list (string * ControlMapping));
  parsing : option Parsing
}.

(** The entries of [mapping.mappings]; a translator only exists for a
    configuration that has them. *)
Definition entries (cfg : t) : list (string * ControlMapping) :=
  default [] (mappings cfg).

Definition starts_with_underscore (key : string) : bool :=
  match key with
  | String c _ => Ascii.eqb c "_"%char
  | EmptyString => false
  end.

Definition one_of (allowed : list string) (x : option string) : bool :=
  match x with
  | Some s => negb (String.eqb s EmptyString) && existsb (String.eqb s) allowed
  | None => false
  end.

Fixpoint validate_entries (l : list (string * ControlMapping)) : outcome unit :=
  match l with
  | [] => Returned tt
  | (key, map) :: rest =>
      if starts_with_underscore key then validate_entries rest
      else
        match action map with
        | None => Thrown ("Mapping " +:+ key +:+ " must include action section")
        | Some _ =>
            if negb (one_of ["audio"; "app"; "ui"] (target map)) then
              Thrown ("Mapping " +:+ key
                      +:+ " must include target (audio, app, or ui)")
            else if negb (one_of ["critical"; "high"; "normal"] (priority map)) then
              Thrown ("Mapping " +:+ key
                      +:+ " must include priority (critical, high, or normal)")
            else validate_entries rest
        end
  end.

Definition validateDeviceMapping (mapping : t) : outcome unit :=
  match device mapping with
  | None => Thrown "Device mapping must include device section"
  | Some dev =>
      if negb (truthy_string (name dev)) then
        Thrown "Device mapping must include device.name"
      else if negb (one_of ["midi"; "hid"] (protocol dev)) then
        Thrown "Device mapping must include device.protocol (midi or hid)"
      else
        match mappings mapping with
        | None => Thrown "Device mapping must include mappings object"
        | Some l => validate_entries l
        end
  end.

(** [mapping?.device?.name || 'Unknown']. *)
Definition deviceName (cfg : t) : string :=
  match device cfg ≫= name with
  | Some n => if String.eqb n EmptyString then "Unknown" else n
  | None => "Unknown"
  end.

End Config.

(* ================================================================== *)
(** ** MIDITranslator *)
(* ================================================================== *)

Module MIDITranslator.
Import Config Actions.

Record t : Type := {
  mapping : Config.t;
  deviceName : string;
  lookupTable : gmap string string
}.

(** [parts.join(':')] for the parts the two key builders push. *)
Definition join_key (type : option string) (channel note controller : option Z) : string :=
  let head := default EmptyString type +:+ ":" +:+ from_option pretty EmptyString channel in
  match note, controller with
  | Some n, _ => head +:+ ":note:" +:+ pretty n
  | None, Some c => head +:+ ":cc:" +:+ pretty c
  | None, None => head
  end.

Definition _createLookupKey (midiEvent : MIDIManager.MidiEvent) : string :=
  join_key (Some (MIDIManager.type midiEvent)) (Some (MIDIManager.channel midiEvent))
    (MIDIManager.note midiEvent) (MIDIManager.controller midiEvent).

Definition _createLookupKeyFromConfig (midiConfig : MidiPattern) : string :=
  join_key (p_type midiConfig) (p_channel midiConfig)
    (p_note midiConfig) (p_controller midiConfig).

Definition _buildLookupTable (cfg : Config.t) : gmap string string :=
  foldl (fun table kv =>
           match midi kv.2 with
           | None => table
           | Some pattern => <[_createLookupKeyFromConfig pattern := kv.1]> table
           end)
        ∅ (entries cfg).

(** [new MIDITranslator(mapping)]. *)
Definition new (cfg : Config.t) : t :=
  {| mapping := cfg; deviceName := Config.deviceName cfg;
     lookupTable := _buildLookupTable cfg |}.

(** The pattern describes the event: same type and channel, and the same
    note or, for an event without a note, the same controller. *)
Definition matches (midiConfig : MidiPattern) (midiEvent : MIDIManager.MidiEvent) : Prop :=
  p_type midiConfig = Some (MIDIManager.type midiEvent)
  ∧ p_channel midiConfig = Some (MIDIManager.channel midiEvent)
  ∧ match MIDIManager.note midiEvent with
    | Some n => p_note midiConfig = Some n
    | None => p_note midiConfig = None
              ∧ p_controller midiConfig = MIDIManager.controller midiEvent
    end.

(** A pattern with a type that holds no colon and with a channel. *)
Definition well_formed (midiConfig : MidiPattern) : Prop :=
  ∃ ty ch, p_type midiConfig = Some ty ∧ free_of ":" ty
           ∧ p_channel midiConfig = Some ch.

Section WithFunction.
Variable Function : FunctionConstructor.

(** The [value] and [velocity] arguments of an expression:
    [midiEvent.value || midiEvent.velocity || 0] and [midiEvent.velocity || 0]. *)
Definition expression_value (midiEvent : MIDIManager.MidiEvent) : number :=
  toNumber (or_else (or_else (MIDIManager.value midiEvent) (MIDIManager.velocity midiEvent))
                    (Some (ofZ 0))).

Definition expression_velocity (midiEvent : MIDIManager.MidiEvent) : number :=
  toNumber (or_else (MIDIManager.velocity midiEvent) (Some (ofZ 0))).

(** The call [new Function('value', 'velocity', `return ${expression}`)(value, velocity)]. *)
Definition call_expression (expression : string) (midiEvent : MIDIManager.MidiEvent)
  : outcome JS.value :=
  Function ["value"; "velocity"] ("return " +:+ expression)
    [VNumber (expression_value midiEvent); VNumber (expression_velocity midiEvent)].

Definition _evaluateExpression (expression : string) (midiEvent : MIDIManager.MidiEvent)
  : JS.value :=
  match call_expression expression midiEvent with
  | Returned v => v
  | Thrown _ => VNumber (expression_value midiEvent)
  end.

Definition _buildAction (midiEvent : MIDIManager.MidiEvent) (mapping : option ControlMapping)
  : outcome Action :=
  match mapping ≫= fun m => pair m <$> action m with
  | None => Thrown "TypeError: cannot read properties of undefined"
  | Some (mapping, template) =>
      let value :=
        match a_value template with
        | VUndefined =>
            if truthy_string (a_valueExpression template) then
              _evaluateExpression (default EmptyString (a_valueExpression template)) midiEvent
            else if MIDIManager.highRes midiEvent
                    && bool_decide (is_Some (MIDIManager.normalized midiEvent)) then
              ofOption (MIDIManager.normalized midiEvent)
            else
              let rawValue :=
                or_else (MIDIManager.velocity midiEvent) (MIDIManager.value midiEvent) in
              if String.eqb (MIDIManager.type midiEvent) "cc"
              then VNumber (div (toNumber rawValue) (ofZ 127))
              else ofOption rawValue
        | static => static
        end in
      let direction :=
        if truthy_string (a_direction template)
        then _evaluateExpression (default EmptyString (a_direction template)) midiEvent
        else VUndefined in
      let value :=
        if bool_decide (a_type template = Some "transport")
           && String.eqb (MIDIManager.type midiEvent) "noteon"
        then VBool (gt (toNumber (MIDIManager.velocity midiEvent)) (ofZ 0))
        else value in
      Returned
        {| type := a_type template;
           command := a_command template;
           target := Config.target mapping;
           priority := Config.priority mapping;
           timestamp := Some (MIDIManager.timestamp midiEvent);
           deviceId := Some (MIDIManager.deviceId midiEvent);
           from := None;
           deck := if truthy_string (a_deck template) then a_deck template else None;
           value := value;
           delta := None;
           direction := direction;
           mode := VUndefined;
           rawValue := None |}
  end.

Definition translate (tr : t) (midiEvent : MIDIManager.MidiEvent) : outcome (option Action) :=
  let key := _createLookupKey midiEvent in
  match lookupTable tr !! key with
  | None => Returned None
  | Some mappingKey =>
      if String.eqb mappingKey EmptyString then Returned None else
      let mapping := lookup_entry mappingKey (entries (mapping tr)) in
      try_catch
        (obind (_buildAction midiEvent mapping) (fun action => Returned (Some action)))
        (fun _ => Returned None)
  end.

End WithFunction.

End MIDITranslator.

(* ================================================================== *)
(** ** HIDTranslator *)
(* ================================================================== *)

Module HIDTranslator.
Import Config Actions.

Record t : Type := {
  mapping : Config.t;
  deviceName : string;
  modifierState : list (string * bool)
}.

(** [new HIDTranslator(mapping)]. *)
Definition new (cfg : Config.t) : t :=
  {| mapping := cfg; deviceName := Config.deviceName cfg; modifierState := [] |}.

Definition set_modifier (tr : t) (controlName : string) (pressed : bool) : t :=
  {| mapping := mapping tr; deviceName := deviceName tr;
     modifierState := assign_entry controlName pressed (modifierState tr) |}.

(** [this.mapping.parsing.controls[name]]; reading [controls] of a missing
    [parsing] section throws. *)
Definition parsing_control (tr : t) (controlName : string)
  : outcome (option HIDManager.ControlConfig) :=
  match parsing (mapping tr) with
  | None => Thrown "TypeError: cannot read properties of undefined"
  | Some p => Returned (lookup_entry controlName (controls p))
  end.

Definition modifier_values (tr : t) : list (string * JS.value) :=
  (fun kv => (kv.1, VBool kv.2)) <$> modifierState tr.

Section WithFunction.
Variable Function : FunctionConstructor.

(** The evaluation context [{ value, delta, state, ...modifierState }]. *)
Definition expression_context (tr : t) (hidEvent : HIDManager.HidEvent)
  : list (string * JS.value) :=
  spread [("value", ofOption (HIDManager.e_value hidEvent));
          ("delta", ofOption (HIDManager.e_delta hidEvent));
          ("state", VObject (modifier_values tr))]
         (modifier_values tr).

(** The call [new Function(...paramNames, `return ${expression}`)(...paramValues)]. *)
Definition call_expression (tr : t) (expression : string)
    (hidEvent : HIDManager.HidEvent) : outcome JS.value :=
  let context := expression_context tr hidEvent in
  Function (fst <$> context) ("return " +:+ expression) (snd <$> context).

Definition _evaluateExpression (tr : t) (expression : string)
    (hidEvent : HIDManager.HidEvent) : JS.value :=
  match call_expression tr expression hidEvent with
  | Returned v => v
  | Thrown _ => ofOption (HIDManager.e_value hidEvent)
  end.

Definition _evaluateCondition (tr : t) (condition : string) : JS.value :=
  let context :=
    spread [("state", VObject (modifier_values tr))] (modifier_values tr) in
  match Function (fst <$> context) ("return " +:+ condition) (snd <$> context) with
  | Returned v => v
  | Thrown _ => VBool false
  end.

(** The action before the type-specific part of [_buildAction]. *)
Definition base_action (tr : t) (hidEvent : HIDManager.HidEvent)
    (template : ActionTemplate) : Action :=
  {| type := a_type template;
     command := a_command template;
     target := if truthy_string (a_target template) then a_target template
               else Some "audio";
     priority := if truthy_string (a_priority template) then a_priority template
                 else Some "normal";
     timestamp := Some (HIDManager.e_timestamp hidEvent);
     deviceId := Some (HIDManager.e_deviceId hidEvent);
     from := Some (deviceName tr);
     deck := if truthy_string (a_deck template) then a_deck template else None;
     value := VUndefined;
     delta := None;
     direction := VUndefined;
     mode := VUndefined;
     rawValue := None |}.

Definition with_fields (a : Action) (value : JS.value) (delta : option number)
    (direction mode : JS.value) (rawValue : option number) : Action :=
  {| type := type a; command := command a; target := target a;
     priority := priority a; timestamp := timestamp a; deviceId := deviceId a;
     from := from a; deck := deck a;
     value := value; delta := delta; direction := direction; mode := mode;
     rawValue := rawValue |}.

(** The branch of [_buildAction] on [controlConfig.type]; [None] is the
    early [return null] of a suppressed button release. *)
Definition typed_action (tr : t) (hidEvent : HIDManager.HidEvent)
    (template : ActionTemplate) (controlConfig : HIDManager.ControlConfig)
    (action : Action) : option Action :=
  let ctype := HIDManager.c_type controlConfig in
  let evalue := HIDManager.e_value hidEvent in
  let edelta := HIDManager.e_delta hidEvent in
  if bool_decide (ctype = Some "delta") then
    Some (with_fields action (ofOption evalue) edelta VUndefined
            (if truthy_string (a_mode template)
             then _evaluateExpression tr (default EmptyString (a_mode template)) hidEvent
             else VUndefined)
            None)
  else if bool_decide (ctype = Some "button") then
    let pressed := gt (toNumber evalue) (ofZ 0) in
    if negb pressed && negb (a_emitRelease template) then None
    else Some (with_fields action (VBool pressed) None VUndefined VUndefined None)
  else if bool_decide (ctype = Some "absolute") then
    let min := toNumber (or_else (HIDManager.c_min controlConfig) (Some (ofZ 0))) in
    let max :=
      toNumber (or_else (HIDManager.c_max controlConfig)
                  (Some (ofZ (HIDManager.shl 1
                                (default 0 (HIDManager.c_resolution controlConfig)) - 1)))) in
    Some (with_fields action
            (VNumber (div (sub (toNumber evalue) min) (sub max min)))
            None VUndefined VUndefined evalue)
  else if bool_decide (ctype = Some "encoder") then
    Some (with_fields action VUndefined edelta
            (if truthy_string (a_direction template)
             then _evaluateExpression tr (default EmptyString (a_direction template)) hidEvent
             else VString (if gt (toNumber edelta) (ofZ 0) then "up" else "down"))
            VUndefined None)
  else Some action.

Definition _buildAction (tr : t) (hidEvent : HIDManager.HidEvent)
    (mapping : ControlMapping) : outcome (option Action) :=
  obind (parsing_control tr (HIDManager.e_control hidEvent)) (fun controlConfig =>
  match controlConfig with
  | None => Returned None
  | Some controlConfig =>
      match action mapping with
      | None => Thrown "TypeError: cannot read properties of undefined"
      | Some template =>
          match typed_action tr hidEvent template controlConfig
                  (base_action tr hidEvent template) with
          | None => Returned None
          | Some action =>
              if truthy_string (condition mapping)
                 && negb (truthy_value
                            (_evaluateCondition tr (default EmptyString (condition mapping))))
              then Returned None
              else if truthy_string (a_valueExpression template) then
                Returned
                  (Some (with_fields action
                           (_evaluateExpression tr
                              (default EmptyString (a_valueExpression template)) hidEvent)
                           (delta action) (direction action) (mode action)
                           (rawValue action)))
              else Returned (Some action)
          end
      end
  end).

(** [translate] returns the action (or [null]) and leaves the translator
    with its updated modifier state. *)
Definition translate (tr : t) (hidEvent : HIDManager.HidEvent)
  : outcome (option Action) * t :=
  let controlName := HIDManager.e_control hidEvent in
  match lookup_entry controlName (entries (mapping tr)) with
  | None => (Returned None, tr)
  | Some mapping =>
      match parsing_control tr controlName with
      | Thrown e => (Thrown e, tr)
      | Returned parsingConfig =>
          let is_modifier :=
            bool_decide (parsingConfig ≫= HIDManager.c_type = Some "modifier") in
          let tr' :=
            if is_modifier
            then set_modifier tr controlName
                   (gt (toNumber (HIDManager.e_value hidEvent)) (ofZ 0))
            else tr in
          if is_modifier && bool_decide (action mapping = None)
          then (Returned None, tr')
          else
            (try_catch (_buildAction tr' hidEvent mapping) (fun _ => Returned None), tr')
      end
  end.

End WithFunction.

End HIDTranslator.

(* ================================================================== *)
(** ** ActionRouter: priority queues and the dispatch loop *)
(* ================================================================== *)

Module ActionRouter.
Import Actions.

Record Stats : Type := {
  totalActions : Z;
  droppedActions : Z;
  actionsByPriority : gmap string number;
  actionsByTarget : gmap string number
}.

Record t : Type := {
  audioClient : option AudioEngineClient.t;
  criticalQueue : list Action;
  highQueue : list Action;
  normalQueue : list Action;
  isProcessing : bool;
  maxQueueSize : Z;
  stats : Stats
}.

Definition new (wsClients_audio : option AudioEngineClient.t) : t :=
  {| audioClient := wsClients_audio;
     criticalQueue := []; highQueue := []; normalQueue := [];
     isProcessing := false;
     maxQueueSize := 1000;
     stats := {| totalActions := 0; droppedActions := 0;
                 actionsByPriority :=
                   {[ "critical" := ofZ 0; "high" := ofZ 0; "normal" := ofZ 0 ]};
                 actionsByTarget :=
                   {[ "audio" := ofZ 0; "app" := ofZ 0; "ui" := ofZ 0 ]} |} |}.

Definition set_stats (r : t) (st : Stats) : t :=
  {| audioClient := audioClient r; criticalQueue := criticalQueue r;
     highQueue := highQueue r; normalQueue := normalQueue r;
     isProcessing := isProcessing r; maxQueueSize := maxQueueSize r;
     stats := st |}.

Definition set_highQueue (r : t) (q : list Action) : t :=
  {| audioClient := audioClient r; criticalQueue := criticalQueue r;
     highQueue := q; normalQueue := normalQueue r;
     isProcessing := isProcessing r; maxQueueSize := maxQueueSize r;
     stats := stats r |}.

Definition set_normalQueue (r : t) (q : list Action) : t :=
  {| audioClient := audioClient r; criticalQueue := criticalQueue r;
     highQueue := highQueue r; normalQueue := q;
     isProcessing := isProcessing r; maxQueueSize := maxQueueSize r;
     stats := stats r |}.

Definition set_isProcessing (r : t) (b : bool) : t :=
  {| audioClient := audioClient r; criticalQueue := criticalQueue r;
     highQueue := highQueue r; normalQueue := normalQueue r;
     isProcessing := b; maxQueueSize := maxQueueSize r;
     stats := stats r |}.

Definition set_audioClient (r : t) (cl : option AudioEngineClient.t) : t :=
  {| audioClient := cl; criticalQueue := criticalQueue r;
     highQueue := highQueue r; normalQueue := normalQueue r;
     isProcessing := isProcessing r; maxQueueSize := maxQueueSize r;
     stats := stats r |}.

(** [counters[key]++]: a missing counter becomes [NaN]. *)
Definition increment (key : string) (counters : gmap string number)
  : gmap string number :=
  <[key := add (toNumber (counters !! key)) (ofZ 1)]> counters.

(** The message [_sendAction] builds; [now] is read only when the action's
    timestamp is falsy. *)
Definition message_of (action : Action) (now : Z) : Message :=
  {| m_type := type action;
     m_command := command action;
     m_target := target action;
     m_priority := priority action;
     m_timestamp := match timestamp action with
                    | Some ts => if ts =? 0 then now else ts
                    | None => now
                    end;
     m_deck := deck action;
     m_value := value action;
     m_delta := delta action;
     m_direction := direction action;
     m_from := from action |}.

Definition timestamp_truthy (action : Action) : bool :=
  match timestamp action with
  | Some ts => negb (ts =? 0)
  | None => false
  end.

Definition _sendAction (action : Action) : M t bool :=
  (let* r := get in
   match audioClient r with
   | None => ret false
   | Some cl =>
       let* now := if timestamp_truthy action then ret 0 else JS.now in
       let message := message_of action now in
       let '(success, cl') := AudioEngineClient.send message cl in
       put (set_audioClient r (Some cl'));;
       ret success
   end)%js.

Definition route (action : option Action) : M t bool :=
  (match action with
   | None => ret false
   | Some action =>
       match target action, priority action with
       | Some tgt, Some prio =>
           if String.eqb tgt EmptyString || String.eqb prio EmptyString then ret false else
           let* r := get in
           put (set_stats r
                  {| totalActions := totalActions (stats r) + 1;
                     droppedActions := droppedActions (stats r);
                     actionsByPriority := increment prio (actionsByPriority (stats r));
                     actionsByTarget := increment tgt (actionsByTarget (stats r)) |});;
           (* Critical actions bypass queue and send immediately *)
           if String.eqb prio "critical" then _sendAction action else
           let* r := get in
           let high := String.eqb prio "high" in
           let queue := if high then highQueue r else normalQueue r in
           if Z.of_nat (length queue) >=? maxQueueSize r then
             put (set_stats r
                    {| totalActions := totalActions (stats r);
                       droppedActions := droppedActions (stats r) + 1;
                       actionsByPriority := actionsByPriority (stats r);
                       actionsByTarget := actionsByTarget (stats r) |});;
             ret false
           else
             put (if high then set_highQueue r (queue ++ [action])
                  else set_normalQueue r (queue ++ [action]));;
             ret true
       | _, _ => ret false
       end
   end)%js.

(** One scheduling turn of the dispatch loop. *)
Definition _processQueues : M t unit :=
  (let* r := get in
   if isProcessing r then ret tt else
   put (set_isProcessing r true);;
   let* r := get in
   match highQueue r with
   | action :: rest =>
       put (set_highQueue r rest);;
       let* _ := _sendAction action in ret tt
   | [] =>
       match normalQueue r with
       | action :: rest =>
           put (set_normalQueue r rest);;
           let* _ := _sendAction action in ret tt
       | [] => ret tt
       end
   end;;
   let* r := get in
   put (set_isProcessing r false))%js.

(** [_startProcessing]: each [setImmediate] callback runs one turn and
    schedules the next; [turns n] is [n] consecutive turns. *)
Fixpoint turns (n : nat) : M t unit :=
  match n with
  | O => ret tt
  | S n' => (_processQueues;; turns n')%js
  end.

(** The messages written to the downstream socket so far. *)
Definition wire (r : t) : list Message :=
  match audioClient r with
  | Some cl => AudioEngineClient.wire cl
  | None => []
  end.

(** [msg] is the message the router builds for [action]. *)
Definition carries (msg : Message) (action : Action) : Prop :=
  ∃ now, msg = message_of action now.

(** The router holds a connected client with a working socket. *)
Definition ready (r : t) : Prop :=
  ∃ cl, audioClient r = Some cl ∧ AudioEngineClient.ready cl.

(** The queue [route] picks for a non-critical priority. *)
Definition queue_for (r : t) (prio : string) : list Action :=
  if String.eqb prio "high" then highQueue r else normalQueue r.

(** [getStats()]: the counters plus the current queue sizes. *)
Definition getStats (r : t) : Stats * (nat * nat) :=
  (stats r, (length (highQueue r), length (normalQueue r))).

(** [clearQueues()]: empties both queues and returns how many entries each
    one held. *)
Definition clearQueues : M t (nat * nat) :=
  (let* r := get in
   let cleared := (length (highQueue r), length (normalQueue r)) in
   put (set_normalQueue (set_highQueue r []) []);;
   ret cleared)%js.

(** [pause()] and [resume()] set and clear the [isProcessing] flag. *)
Definition pause : M t unit :=
  (let* r := get in put (set_isProcessing r true))%js.

Definition resume : M t unit :=
  (let* r := get in put (set_isProcessing r false))%js.

(** What can happen to a router: a caller routes an action, the dispatch
    loop takes a turn, or one of the control methods is called. *)
Inductive Op : Type :=
| Route (action : option Action)
| Turn
| Pause
| Resume
| ClearQueues.

Definition step (op : Op) : M t unit :=
  match op with
  | Route action => (let* _ := route action in ret tt)%js
  | Turn => _processQueues
  | Pause => pause
  | Resume => resume
  | ClearQueues => (let* _ := clearQueues in ret tt)%js
  end.

Fixpoint run (ops : list Op) : M t unit :=
  match ops with
  | [] => ret tt
  | op :: rest => (step op;; run rest)%js
  end.

(** Both queues respect the bound. *)
Definition bounded (r : t) : Prop :=
  Z.of_nat (length (highQueue r)) ≤ maxQueueSize r
  ∧ Z.of_nat (length (normalQueue r)) ≤ maxQueueSize r.

(** The action passes the validity check of [route] and is not critical. *)
Definition queueable (action : Action) : Prop :=
  ∃ tgt prio, target action = Some tgt ∧ tgt ≠ EmptyString
              ∧ priority action = Some prio ∧ prio ≠ EmptyString
              ∧ prio ≠ "critical".

Definition is_high (action : Action) : bool :=
  bool_decide (priority action = Some "high").

(** Operations that neither resume the router nor route a critical
    action. *)
Definition quiet (op : Op) : Prop :=
  match op with
  | Route (Some action) => priority action ≠ Some "critical"
  | Resume => False
  | _ => True
  end.

End ActionRouter.

(* ================================================================== *)
(** ** Server: from an input event to the router *)
(* ================================================================== *)

Module Server.
Import Actions.

(** [_handleMIDIInput(event)] for an event of a connected device whose
    translator the mapper has cached: translate, stop when there is no
    mapping, route otherwise.  The surrounding [try]/[catch] only logs. *)
Definition _handleMIDIInput (Function : FunctionConstructor)
    (translator : MIDITranslator.t) (event : MIDIManager.MidiEvent)
  : M ActionRouter.t unit :=
  match MIDITranslator.translate Function translator event with
  | Thrown _ => ret tt
  | Returned None => ret tt
  | Returned (Some action) => (let* _ := ActionRouter.route (Some action) in ret tt)%js
  end.

End Server.

(* ================================================================== *)
(** ** FeedbackManager: state cache, throttling and device sync *)
(* ================================================================== *)

Module FeedbackManager.

Record Playback : Type := { playing : bool; paused : bool; cued : bool }.
Record Position : Type := { currentTime : number; duration : number }.
Record VuMeter : Type := { peak : number; rms : number }.
Record Sync : Type := { enabled : bool; locked : bool }.
Record Tempo : Type := { bpm : number; pitch : number }.

Record Deck : Type := {
  playback : Playback;
  position : Position;
  vuMeter : VuMeter;
  sync : Sync;
  tempo : Tempo
}.

Record Library : Type := {
  selectedTrack : option string;
  playlist : option string
}.

Record Cache : Type := {
  deckA : Deck;
  deckB : Deck;
  library : Library
}.

(** One LED update that passed the throttle gate: the
    [{ deviceId, controlId, state }] the placeholder reports. *)
Record LedUpdate : Type := {
  u_deviceId : string;
  u_controlId : string;
  u_state : string
}.

Record t : Type := {
  state : Cache;
  lastUpdate : gmap string Z;
  updateThrottles : gmap string Z;
  ledUpdates : list LedUpdate
}.

Definition default_deck : Deck :=
  {| playback := {| playing := false; paused := false; cued := false |};
     position := {| currentTime := ofZ 0; duration := ofZ 0 |};
     vuMeter := {| peak := ofZ 0; rms := ofZ 0 |};
     sync := {| enabled := false; locked := false |};
     tempo := {| bpm := ofZ 120; pitch := ofZ 0 |} |}.

Definition new : t :=
  {| state := {| deckA := default_deck; deckB := default_deck;
                 library := {| selectedTrack := None; playlist := None |} |};
     lastUpdate := ∅;
     updateThrottles := {[ "led" := 20; "vuMeter" := 16; "display" := 100 ]};
     ledUpdates := [] |}.

Definition set_lastUpdate (fm : t) (key : string) (now : Z) : t :=
  {| state := state fm; lastUpdate := <[key := now]> (lastUpdate fm);
     updateThrottles := updateThrottles fm; ledUpdates := ledUpdates fm |}.

Definition record_led (fm : t) (u : LedUpdate) : t :=
  {| state := state fm; lastUpdate := lastUpdate fm;
     updateThrottles := updateThrottles fm; ledUpdates := ledUpdates fm ++ [u] |}.

(** [_shouldUpdate(key, intervalMs)]; a missing interval makes the
    comparison [elapsed >= undefined] false. *)
Definition _shouldUpdate (key : string) (intervalMs : option Z) : M t bool :=
  (let* fm := get in
   match lastUpdate fm !! key with
   | None => ret true
   | Some last =>
       if last =? 0 then ret true else
       let* now := JS.now in
       let elapsed := now - last in
       ret (match intervalMs with
            | Some interval => interval <=? elapsed
            | None => false
            end)
   end)%js.

(** The template string [`${deviceId}:${controlId}`]. *)
Definition led_key (deviceId controlId : string) : string :=
  deviceId +:+ ":" +:+ controlId.

Definition _updateLED (deviceId controlId state : string) : M t unit :=
  (let key := led_key deviceId controlId in
   let* fm := get in
   let* ok := _shouldUpdate key (updateThrottles fm !! "led") in
   if negb ok then ret tt else
   let* fm := get in
   put (record_led fm {| u_deviceId := deviceId; u_controlId := controlId;
                         u_state := state |});;
   let* now := JS.now in
   let* fm := get in
   put (set_lastUpdate fm key now))%js.

Definition _updateTrackInfoFeedback (track : string) : M t unit :=
  (let key := "trackInfo" in
   let* fm := get in
   let* ok := _shouldUpdate key (updateThrottles fm !! "display") in
   if negb ok then ret tt else
   let* now := JS.now in
   let* fm := get in
   put (set_lastUpdate fm key now))%js.

Definition play_state (deckState : Deck) : string :=
  if playing (playback deckState) then "playing" else "stopped".

Definition cue_state (deckState : Deck) : string :=
  if cued (playback deckState) then "cued" else "stopped".

Definition sync_state (deckState : Deck) : string :=
  if enabled (sync deckState) && locked (sync deckState) then "locked"
  else if enabled (sync deckState) then "enabled" else "disabled".

Definition _syncDeckState (deviceId deck : string) (deckState : Deck) : M t unit :=
  (_updateLED deviceId ("play_" +:+ deck) (play_state deckState);;
   _updateLED deviceId ("cue_" +:+ deck) (cue_state deckState);;
   _updateLED deviceId ("sync_" +:+ deck) (sync_state deckState))%js.

Definition syncDevice (deviceId : string) : M t unit :=
  (let* fm := get in
   _syncDeckState deviceId "a" (deckA (state fm));;
   let* fm := get in
   _syncDeckState deviceId "b" (deckB (state fm));;
   let* fm := get in
   match selectedTrack (library (state fm)) with
   | Some track =>
       if String.eqb track EmptyString then ret tt
       else _updateTrackInfoFeedback track
   | None => ret tt
   end)%js.

(** The three LED updates of one deck, and the full burst of a sync. *)
Definition deck_burst (deviceId deck : string) (deckState : Deck) : list LedUpdate :=
  [ {| u_deviceId := deviceId; u_controlId := "play_" +:+ deck;
       u_state := play_state deckState |};
    {| u_deviceId := deviceId; u_controlId := "cue_" +:+ deck;
       u_state := cue_state deckState |};
    {| u_deviceId := deviceId; u_controlId := "sync_" +:+ deck;
       u_state := sync_state deckState |} ].

Definition burst (deviceId : string) (fm : t) : list LedUpdate :=
  deck_burst deviceId "a" (deckA (state fm))
  ++ deck_burst deviceId "b" (deckB (state fm)).

(** The map key of an update. *)
Definition update_key (u : LedUpdate) : string :=
  led_key (u_deviceId u) (u_controlId u).

(** A sequence of [_updateLED] calls. *)
Fixpoint run_updates (us : list LedUpdate) : M t unit :=
  match us with
  | [] => ret tt
  | u :: rest =>
      (_updateLED (u_deviceId u) (u_controlId u) (u_state u);; run_updates rest)%js
  end.

(** The gate of [_shouldUpdate] as a predicate on the state before the
    call and the clock reading the call would make. *)
Definition passes_gate (fm : t) (key : string) (interval : option Z) (now : Z) : bool :=
  match lastUpdate fm !! key with
  | None => true
  | Some last =>
      if last =? 0 then true
      else match interval with
           | Some i => i <=? now - last
           | None => false
           end
  end.

(** The clock positions at which consecutive throttled calls start: the
    first call starts at [first], every call makes one or two readings of
    the clock, and the call after the last one starts at [final]. *)
Fixpoint positions (first : nat) (ns : list nat) (final : nat) : Prop :=
  match ns with
  | [] => final = first
  | n :: rest =>
      n = first ∧ ∃ next, (n < next ≤ n + 2)%nat ∧ positions next rest final
  end.

(** A state message of the audio engine.  Every section may be absent, and
    a section that is present may hold only some of its fields. *)
Record PlaybackUpdate : Type := {
  up_playing : option bool; up_paused : option bool; up_cued : option bool
}.
Record PositionUpdate : Type := {
  up_currentTime : option number; up_duration : option number
}.
Record SyncUpdate : Type := { up_enabled : option bool; up_locked : option bool }.
Record TempoUpdate : Type := { up_bpm : option number; up_pitch : option number }.

Record AudioState : Type := {
  au_deck : option string;
  au_playback : option PlaybackUpdate;
  au_position : option PositionUpdate;
  au_vuMeter : option VuMeter;
  au_sync : option SyncUpdate;
  au_tempo : option TempoUpdate
}.

(** The spreads [{ ...this.state[deckKey].x, ...state.x }]. *)
Definition merge_playback (old : Playback) (u : PlaybackUpdate) : Playback :=
  {| playing := default (playing old) (up_playing u);
     paused := default (paused old) (up_paused u);
     cued := default (cued old) (up_cued u) |}.

Definition merge_position (old : Position) (u : PositionUpdate) : Position :=
  {| currentTime := default (currentTime old) (up_currentTime u);
     duration := default (duration old) (up_duration u) |}.

Definition merge_sync (old : Sync) (u : SyncUpdate) : Sync :=
  {| enabled := default (enabled old) (up_enabled u);
     locked := default (locked old) (up_locked u) |}.

Definition merge_tempo (old : Tempo) (u : TempoUpdate) : Tempo :=
  {| bpm := default (bpm old) (up_bpm u);
     pitch := default (pitch old) (up_pitch u) |}.

(** [this.state[deckKey]] for a key of the form [deck...]. *)
Definition deck_of (cache : Cache) (deckKey : string) : option Deck :=
  if String.eqb deckKey "deckA" then Some (deckA cache)
  else if String.eqb deckKey "deckB" then Some (deckB cache)
  else None.

(** Assignment to a section of [this.state[deckKey]]. *)
Definition update_deck (fm : t) (deckKey : string) (f : Deck -> Deck) : t :=
  {| state :=
       {| deckA := if String.eqb deckKey "deckA" then f (deckA (state fm))
                   else deckA (state fm);
          deckB := if String.eqb deckKey "deckA" then deckB (state fm)
                   else if String.eqb deckKey "deckB" then f (deckB (state fm))
                   else deckB (state fm);
          library := library (state fm) |};
     lastUpdate := lastUpdate fm;
     updateThrottles := updateThrottles fm;
     ledUpdates := ledUpdates fm |}.

Definition with_playback (v : Playback) (d : Deck) : Deck :=
  {| playback := v; position := position d; vuMeter := vuMeter d;
     sync := sync d; tempo := tempo d |}.

Definition with_position (v : Position) (d : Deck) : Deck :=
  {| playback := playback d; position := v; vuMeter := vuMeter d;
     sync := sync d; tempo := tempo d |}.

Definition with_vuMeter (v : VuMeter) (d : Deck) : Deck :=
  {| playback := playback d; position := position d; vuMeter := v;
     sync := sync d; tempo := tempo d |}.

Definition with_sync (v : Sync) (d : Deck) : Deck :=
  {| playback := playback d; position := position d; vuMeter := vuMeter d;
     sync := v; tempo := tempo d |}.

Definition with_tempo (v : Tempo) (d : Deck) : Deck :=
  {| playback := playback d; position := position d; vuMeter := vuMeter d;
     sync := sync d; tempo := v |}.

(** [state.deck?.toLowerCase() || 'a']. *)
Definition resolve_deck (deck : option string) : string :=
  match deck with
  | Some d => if String.eqb (toLowerCase d) EmptyString then "a" else toLowerCase d
  | None => "a"
  end.

(** [_updatePlaybackFeedback(deck, playback)], over the ids of the
    connected MIDI devices. *)
Fixpoint _updatePlaybackFeedback (devices : list string) (deck : string)
    (playback : PlaybackUpdate) : M t unit :=
  match devices with
  | [] => ret tt
  | deviceId :: rest =>
      (match up_playing playback with
       | Some p => _updateLED deviceId ("play_" +:+ deck)
                     (if p then "playing" else "stopped")
       | None => ret tt
       end;;
       match up_cued playback with
       | Some q => _updateLED deviceId ("cue_" +:+ deck)
                     (if q then "cued" else "stopped")
       | None => ret tt
       end;;
       _updatePlaybackFeedback rest deck playback)%js
  end.

(** Truthiness of a boolean field that may be absent. *)
Definition truthy_bool (x : option bool) : bool := default false x.

(** The LED state [_updateSyncFeedback] derives from the message. *)
Definition message_sync_state (sync : SyncUpdate) : string :=
  if truthy_bool (up_enabled sync) && truthy_bool (up_locked sync) then "locked"
  else if truthy_bool (up_enabled sync) then "enabled" else "disabled".

Fixpoint _updateSyncFeedback (devices : list string) (deck : string)
    (sync : SyncUpdate) : M t unit :=
  match devices with
  | [] => ret tt
  | deviceId :: rest =>
      (_updateLED deviceId ("sync_" +:+ deck) (message_sync_state sync);;
       _updateSyncFeedback rest deck sync)%js
  end.

Definition _updateVUMeterFeedback (deck : string) (vu : VuMeter) : M t unit :=
  (let key := "vu_" +:+ deck in
   let* fm := get in
   let* ok := _shouldUpdate key (updateThrottles fm !! "vuMeter") in
   if negb ok then ret tt else
   let* now := JS.now in
   let* fm := get in
   put (set_lastUpdate fm key now))%js.

(** [_onAudioState(state)]; the result is the payload emitted on
    ['state:audio'], if any. *)
Definition _onAudioState (devices : list string) (msg : AudioState)
  : M t (option (string * AudioState)) :=
  (let deck := resolve_deck (au_deck msg) in
   let deckKey := "deck" +:+ toUpperCase deck in
   let* fm := get in
   match deck_of (state fm) deckKey with
   | None => ret None
   | Some _ =>
       match au_playback msg with
       | Some playback =>
           let* fm := get in
           put (update_deck fm deckKey
                  (fun d => with_playback
                              (merge_playback (FeedbackManager.playback d) playback) d));;
           _updatePlaybackFeedback devices deck playback
       | None => ret tt
       end;;
       match au_position msg with
       | Some position =>
           let* fm := get in
           put (update_deck fm deckKey
                  (fun d => with_position
                              (merge_position (FeedbackManager.position d) position) d))
       | None => ret tt
       end;;
       match au_vuMeter msg with
       | Some vu =>
           let* fm := get in
           put (update_deck fm deckKey (with_vuMeter vu));;
           _updateVUMeterFeedback deck vu
       | None => ret tt
       end;;
       match au_sync msg with
       | Some sync =>
           let* fm := get in
           put (update_deck fm deckKey
                  (fun d => with_sync (merge_sync (FeedbackManager.sync d) sync) d));;
           _updateSyncFeedback devices deck sync
       | None => ret tt
       end;;
       match au_tempo msg with
       | Some tempo =>
           let* fm := get in
           put (update_deck fm deckKey
                  (fun d => with_tempo (merge_tempo (FeedbackManager.tempo d) tempo) d))
       | None => ret tt
       end;;
       ret (Some (deck, msg))
   end)%js.

(** [getDeckState(deck)]. *)
Definition getDeckState (fm : t) (deck : string) : option Deck :=
  deck_of (state fm) ("deck" +:+ toUpperCase deck).

(** What the message makes of a cached deck. *)
Definition apply_message (msg : AudioState) (d : Deck) : Deck :=
  {| playback := from_option (merge_playback (playback d)) (playback d) (au_playback msg);
     position := from_option (merge_position (position d)) (position d) (au_position msg);
     vuMeter := default (vuMeter d) (au_vuMeter msg);
     sync := from_option (merge_sync (sync d)) (sync d) (au_sync msg);
     tempo := from_option (merge_tempo (tempo d)) (tempo d) (au_tempo msg) |}.

End FeedbackManager.

(* ================================================================== *)
(** ** Sample data used by the worked runs below *)
(* ================================================================== *)

Module Samples.
Import Actions.

Definition action (type command target priority : string) (ts : Z) : Action :=
  {| type := Some type; command := Some command; target := Some target;
     priority := Some priority; timestamp := Some ts;
     deviceId := Some "midi-x"; from := None; deck := Some "A";
     value := VBool true; delta := None; direction := VUndefined;
     mode := VUndefined; rawValue := None |}.

Definition play : Action := action "transport" "play" "audio" "high" 100.
Definition cue : Action := action "transport" "cue" "audio" "high" 101.
Definition volume : Action := action "mixer" "volume" "audio" "normal" 99.
Definition browse : Action := action "library" "browse" "app" "normal" 102.

Definition connected_client : AudioEngineClient.t :=
  {| AudioEngineClient.connected := true;
     AudioEngineClient.ws :=
       Some {| AudioEngineClient.ws_sent := [];
               AudioEngineClient.ws_send_throws := false |} |}.

(** A router with two high and two normal actions waiting. *)
Definition loaded_router : ActionRouter.t :=
  ActionRouter.set_normalQueue
    (ActionRouter.set_highQueue (ActionRouter.new (Some connected_client))
       [play; cue])
    [volume; browse].

(** A router whose high queue is filled to the default bound. *)
Definition full_router : ActionRouter.t :=
  ActionRouter.set_highQueue (ActionRouter.new (Some connected_client))
    (repeat play 1000).

(** An HID device with one button, bit 0 of byte 0. *)
Definition play_button : HIDManager.ControlConfig :=
  {| HIDManager.c_type := Some "button"; HIDManager.c_byte := Some 0;
     HIDManager.c_bit := Some 0; HIDManager.c_bytes := None;
     HIDManager.c_signed := false; HIDManager.c_resolution := None;
     HIDManager.c_min := None; HIDManager.c_max := None |}.

Definition one_button_device : HIDManager.t :=
  {| HIDManager.devices :=
       {[ "hid-x" := HIDManager.connected [("play", play_button)] ]} |}.

(** The mapping of the end-to-end example:
    [{midi:{type:noteon,channel:0,note:11},
      action:{type:transport,command:play,deck:A}, target:audio, priority:high}]. *)
Definition template (type command : string) (deck : option string) : Config.ActionTemplate :=
  {| Config.a_type := Some type; Config.a_command := Some command;
     Config.a_value := VUndefined; Config.a_valueExpression := None;
     Config.a_direction := None; Config.a_mode := None;
     Config.a_deck := deck; Config.a_target := None; Config.a_priority := None;
     Config.a_emitRelease := false |}.

Definition play_mapping : Config.ControlMapping :=
  {| Config.midi := Some {| Config.p_type := Some "noteon"; Config.p_channel := Some 0;
                            Config.p_note := Some 11; Config.p_controller := None |};
     Config.action := Some (template "transport" "play" (Some "A"));
     Config.target := Some "audio";
     Config.priority := Some "high";
     Config.condition := None |}.

Definition midi_config : Config.t :=
  {| Config.device := Some {| Config.name := Some "DDJ-FLX4"; Config.protocol := Some "midi" |};
     Config.mappings := Some [("play_a", play_mapping)];
     Config.parsing := None |}.

Definition noteon (channel note velocity ts : Z) : MIDIManager.MidiEvent :=
  {| MIDIManager.deviceId := "midi-x"; MIDIManager.type := "noteon";
     MIDIManager.channel := channel; MIDIManager.timestamp := ts;
     MIDIManager.note := Some note; MIDIManager.velocity := Some (ofZ velocity);
     MIDIManager.controller := None; MIDIManager.value := None;
     MIDIManager.program := None; MIDIManager.value14bit := None;
     MIDIManager.maxValue := None; MIDIManager.normalized := None;
     MIDIManager.highRes := false; MIDIManager.lsbController := None;
     MIDIManager.msb := None; MIDIManager.lsb := None |}.




(** A plain fader, controller 7 on channel 0, without any expression. *)
Definition volume_mapping : Config.ControlMapping :=
  {| Config.midi := Some {| Config.p_type := Some "cc"; Config.p_channel := Some 0;
                            Config.p_note := None; Config.p_controller := Some 7 |};
     Config.action := Some (template "mixer" "volume" (Some "A"));
     Config.target := Some "audio";
     Config.priority := Some "normal";
     Config.condition := None |}.

(** A mapping file in which the last entry repeats the pattern of the
    first one. *)
Definition mixer_config : Config.t :=
  {| Config.device := Some {| Config.name := Some "DDJ-FLX4"; Config.protocol := Some "midi" |};
     Config.mappings := Some [("play_a", play_mapping); ("volume_a", volume_mapping);
                              ("play_again", play_mapping)];
     Config.parsing := None |}.

(** A [Function] constructor for which every expression fails. *)
Definition failing_Function : FunctionConstructor :=
  fun _ _ _ => Thrown "SyntaxError".

(** An HID mapping file that passes validation: a jog wheel routed to the
    app server with critical priority, and a shift key declared as a
    modifier in the parsing section without a mapping entry of its own. *)
Definition control (type : string) (bytes : option (list Z)) (byte bit : option Z)
  : HIDManager.ControlConfig :=
  {| HIDManager.c_type := Some type; HIDManager.c_byte := byte;
     HIDManager.c_bit := bit; HIDManager.c_bytes := bytes;
     HIDManager.c_signed := false; HIDManager.c_resolution := None;
     HIDManager.c_min := None; HIDManager.c_max := None |}.

Definition jog_mapping : Config.ControlMapping :=
  {| Config.midi := None;
     Config.action := Some (template "jog" "scratch" (Some "A"));
     Config.target := Some "app";
     Config.priority := Some "critical";
     Config.condition := None |}.

Definition hid_parsing : Config.Parsing :=
  {| Config.controls :=
       [("jog", control "delta" (Some [1; 2]) None None);
        ("shift", control "modifier" None (Some 3) None)] |}.

Definition hid_config : Config.t :=
  {| Config.device := Some {| Config.name := Some "Kontrol"; Config.protocol := Some "hid" |};
     Config.mappings := Some [("jog", jog_mapping)];
     Config.parsing := Some hid_parsing |}.

(** An HID mapping file with a ten-bit crossfader and a play button. *)
Definition crossfader : HIDManager.ControlConfig :=
  {| HIDManager.c_type := Some "absolute"; HIDManager.c_byte := None;
     HIDManager.c_bit := None; HIDManager.c_bytes := Some [4; 5];
     HIDManager.c_signed := false; HIDManager.c_resolution := Some 10;
     HIDManager.c_min := None; HIDManager.c_max := None |}.

Definition plain_mapping (type command : string) : Config.ControlMapping :=
  {| Config.midi := None;
     Config.action := Some (template type command (Some "A"));
     Config.target := Some "audio";
     Config.priority := Some "normal";
     Config.condition := None |}.

Definition deck_config : Config.t :=
  {| Config.device := Some {| Config.name := Some "Kontrol"; Config.protocol := Some "hid" |};
     Config.mappings := Some [("crossfader", plain_mapping "mixer" "crossfader");
                              ("play", plain_mapping "transport" "play")];
     Config.parsing :=
       Some {| Config.controls := [("crossfader", crossfader); ("play", play_button)] |} |}.

Definition hid_event (control : string) (value delta : Z) (ts : Z) : HIDManager.HidEvent :=
  {| HIDManager.e_deviceId := "hid-x"; HIDManager.e_control := control;
     HIDManager.e_type := None; HIDManager.e_value := Some (ofZ value);
     HIDManager.e_delta := Some (ofZ delta); HIDManager.e_timestamp := ts;
     HIDManager.e_rawState := [] |}.

(** A feedback manager on which the play LED of deck A of device
    [midi-x] was updated at time 1000. *)
Definition fed_manager : FeedbackManager.t :=
  (FeedbackManager._updateLED "midi-x" "play_a" "playing"
     FeedbackManager.new (clock_of [1000])).1.2.

End Samples.

(* ================================================================== *)
(** ** Properties *)
(* ================================================================== *)

(** Unfold the plumbing of the state-and-clock monad. *)
Ltac js_run := unfold JS.bind, JS.get, JS.put, JS.ret, JS.now, JS.Date_now.

Section MIDIManagerFacts.
Import MIDIManager.

Lemma deviceState_set m d ds : deviceState (set_deviceState m d ds) d = ds.
Proof. unfold deviceState, set_deviceState; simpl. by rewrite lookup_insert_eq. Qed.

Lemma timeout_set m d ds :
  highResCCTimeout (set_deviceState m d ds) = highResCCTimeout m.
Proof. reflexivity. Qed.

Lemma set_set m d ds ds' :
  set_deviceState (set_deviceState m d ds) d ds' = set_deviceState m d ds'.
Proof. unfold set_deviceState; simpl. by rewrite insert_insert_eq. Qed.

(** What a call in the MSB branch does. *)
Lemma handle14BitCC_msb m c d msg ch ctrl :
  is_cc msg ch ctrl → ctrl < 32 →
  _handle14BitCC d msg m c =
    (None,
     set_deviceState m d
       (sweep (highResCCTimeout m) (reading c (S (reads c)))
          (<[key_of ch ctrl :=
               {| p_value := value msg; p_timestamp := reading c (reads c);
                  p_channel := ch |}]> (deviceState m d))),
     {| reading := reading c; reads := S (S (reads c)) |}).
Proof.
  intros (Hty & Hch & Hctl) Hlt.
  unfold _handle14BitCC; js_run.
  rewrite Hty, Hctl, Hch. simpl.
  assert (((32 <=? ctrl) && (ctrl <? 64)) = false) as ->.
  { apply andb_false_iff. left. apply Z.leb_gt. lia. }
  assert ((ctrl <? 32) = true) as -> by (apply Z.ltb_lt; lia).
  rewrite !deviceState_set, !set_set. reflexivity.
Qed.

(** What a call in the LSB branch does when a fresh MSB is pending. *)
Lemma handle14BitCC_lsb_fresh m c d msg ch ctrl p :
  is_cc msg ch ctrl → 32 ≤ ctrl < 64 →
  deviceState m d !! key_of ch (ctrl - 32) = Some p →
  reading c (reads c) - p_timestamp p < highResCCTimeout m →
  _handle14BitCC d msg m c =
    (Some (combined_event msg (ctrl - 32) (ctrl - 32 + 32) (p_value p) (value msg)),
     set_deviceState m d (delete (key_of ch (ctrl - 32)) (deviceState m d)),
     {| reading := reading c; reads := S (reads c) |}).
Proof.
  intros (Hty & Hch & Hctl) Hrange Hp Hfresh.
  unfold _handle14BitCC; js_run.
  rewrite Hty, Hctl, Hch. simpl.
  assert (((32 <=? ctrl) && (ctrl <? 64)) = true) as ->.
  { apply andb_true_iff. split; [apply Z.leb_le | apply Z.ltb_lt]; lia. }
  rewrite !deviceState_set, Hp. simpl.
  assert ((reading c (reads c) - p_timestamp p <? highResCCTimeout m) = true) as ->
    by (apply Z.ltb_lt; lia).
  rewrite set_set. reflexivity.
Qed.

(** A call outside the MSB branch keeps every entry except, possibly, the
    one an LSB pairs with. *)
Lemma handle14BitCC_no_sweep m c d msg ch ctrl k :
  is_cc msg ch ctrl → 32 ≤ ctrl → k ≠ key_of ch (ctrl - 32) →
  deviceState (_handle14BitCC d msg m c).1.2 d !! k = deviceState m d !! k.
Proof.
  intros (Hty & Hch & Hctl) Hge Hk.
  unfold _handle14BitCC; js_run.
  rewrite Hty, Hctl, Hch. simpl.
  destruct ((32 <=? ctrl) && (ctrl <? 64)) eqn:E.
  - rewrite !deviceState_set.
    destruct (deviceState m d !! key_of ch (ctrl - 32)) as [p|]; simpl.
    + destruct (reading c (reads c) - p_timestamp p <? highResCCTimeout m);
        simpl; rewrite ?deviceState_set; [|done].
      by rewrite lookup_delete_ne.
    + by rewrite deviceState_set.
  - assert ((ctrl <? 32) = false) as -> by (apply Z.ltb_ge; lia).
    simpl. by rewrite deviceState_set.
Qed.

Lemma sweep_lookup_Some T now ds k p :
  sweep T now ds !! k = Some p ↔ ds !! k = Some p ∧ now - p_timestamp p ≤ T.
Proof.
  unfold sweep. rewrite map_lookup_filter_Some. simpl.
  rewrite negb_true_iff, Z.gtb_ltb, Z.ltb_ge. tauto.
Qed.

Lemma combined_number (a b : Z) :
  add (mul (ofZ a) (ofZ 128)) (ofZ b) = ofZ (a * 128 + b).
Proof.
  unfold add, mul, ofZ, inject_Z, Qplus, Qmult; simpl.
  rewrite !Z.mul_1_r. reflexivity.
Qed.

Lemma normalized_number (z : Z) :
  div (ofZ z) (ofZ 16383) = Num (z # 16383).
Proof.
  unfold div, ofZ, inject_Z, Qdiv, Qmult, Qinv; simpl.
  rewrite Z.mul_1_r. reflexivity.
Qed.

End MIDIManagerFacts.

Section MIDIManagerClaims.
Import MIDIManager.

(** C1 (14-bit pairing correctness).  For every [msb] and [lsb] in
    [0,127], on one device and channel, a CC for controller [C] in [0,32)
    with value [msb] followed by a CC for controller [C+32] with value
    [lsb] read within the pairing window gives nothing on the first call
    and exactly one combined event on the second: its controller is [C],
    its value and value14bit are [msb*128+lsb] (between 0 and 16383), its
    maxValue is 16383, its normalized value is [(msb*128+lsb)/16383], its
    highRes flag is set, and the pending MSB entry is gone afterwards.
    The clock enters through the two readings of the MSB call (store, then
    clean-up, which must not already find the entry expired) and the
    reading of the LSB call, less than the window after the store. *)
Theorem handle14BitCC_pairing
    (m : MIDIManager.t) (c c2 : clock) (d : string)
    (msbMsg lsbMsg : MidiEvent) (ch C msb lsb : Z) :
  is_cc msbMsg ch C → value msbMsg = Some (ofZ msb) →
  is_cc lsbMsg ch (C + 32) → value lsbMsg = Some (ofZ lsb) →
  0 ≤ C < 32 → 0 ≤ msb ≤ 127 → 0 ≤ lsb ≤ 127 →
  reading c (S (reads c)) - reading c (reads c) ≤ highResCCTimeout m →
  reading c2 (reads c2) - reading c (reads c) < highResCCTimeout m →
  let '(r1, m1, _) := _handle14BitCC d msbMsg m c in
  let '(r2, m2, _) := _handle14BitCC d lsbMsg m1 c2 in
  r1 = None ∧
  ∃ ev, r2 = Some ev
    ∧ controller ev = Some C
    ∧ value ev = Some (ofZ (msb * 128 + lsb))
    ∧ value14bit ev = Some (ofZ (msb * 128 + lsb))
    ∧ maxValue ev = Some 16383
    ∧ normalized ev = Some (Num ((msb * 128 + lsb) # 16383))
    ∧ highRes ev = true
    ∧ MIDIManager.msb ev = Some (ofZ msb) ∧ MIDIManager.lsb ev = Some (ofZ lsb)
    ∧ 0 ≤ msb * 128 + lsb ≤ 16383
    ∧ deviceState m2 d !! key_of ch C = None.
Proof.
  intros Hm Hmv Hl Hlv HC Hmsb Hlsb Hsweep Hwin.
  rewrite (handle14BitCC_msb m c d msbMsg ch C) by (done || lia).
  set (p := {| p_value := value msbMsg; p_timestamp := reading c (reads c);
               p_channel := ch |}).
  set (m1 := set_deviceState m d _).
  assert (deviceState m1 d !! key_of ch (C + 32 - 32) = Some p) as Hp.
  { subst m1. rewrite deviceState_set. apply sweep_lookup_Some.
    replace (C + 32 - 32) with C by lia.
    rewrite lookup_insert_eq. split; [done | simpl; lia]. }
  rewrite (handle14BitCC_lsb_fresh m1 c2 d lsbMsg ch (C + 32) p)
    by (done || lia || (subst m1; rewrite timeout_set; simpl; lia)).
  split; [done|]. eexists; split; [done|].
  replace (C + 32 - 32) with C by lia.
  simpl. rewrite Hmv, Hlv. simpl toNumber.
  rewrite combined_number, normalized_number.
  repeat split; try done; try lia.
  rewrite deviceState_set. apply lookup_delete_eq.
Qed.

(** A run of C1: MSB 127 then LSB 127 on controller 7, three milliseconds
    apart, with the default 50 ms window. *)
Lemma handle14BitCC_pairing_witness :
  let m := MIDIManager.new in
  let c := clock_of [1000; 1000] in
  let c2 := clock_of [1003] in
  let '(r1, m1, _) := _handle14BitCC "midi-x" (cc_event "midi-x" 0 7 127 1000) m c in
  let '(r2, m2, _) := _handle14BitCC "midi-x" (cc_event "midi-x" 0 39 127 1003) m1 c2 in
  r1 = None ∧
  ∃ ev, r2 = Some ev
    ∧ controller ev = Some 7
    ∧ value ev = Some (ofZ (127 * 128 + 127))
    ∧ value14bit ev = Some (ofZ (127 * 128 + 127))
    ∧ maxValue ev = Some 16383
    ∧ normalized ev = Some (Num ((127 * 128 + 127) # 16383))
    ∧ highRes ev = true
    ∧ MIDIManager.msb ev = Some (ofZ 127) ∧ MIDIManager.lsb ev = Some (ofZ 127)
    ∧ 0 ≤ 127 * 128 + 127 ≤ 16383
    ∧ deviceState m2 "midi-x" !! key_of 0 7 = None.
Proof.
  apply (handle14BitCC_pairing MIDIManager.new (clock_of [1000; 1000])
           (clock_of [1003]) "midi-x"
           (cc_event "midi-x" 0 7 127 1000) (cc_event "midi-x" 0 39 127 1003)
           0 7 127 127);
    try (repeat split; reflexivity); try (simpl; lia); try (vm_compute; congruence).
Defined.

(** C5 as stated fails: an MSB for controller 5 is stored at time 0; one
    second later the LSB for controller 37 arrives.  The call neither pairs
    nor sweeps, and the expired entry is still in the table. *)
Lemma handle14BitCC_lsb_call_keeps_stale_entry :
  let '(_, m1, _) :=
    _handle14BitCC "midi-x" (cc_event "midi-x" 0 5 64 0) MIDIManager.new
      (clock_of [0; 0]) in
  let '(r2, m2, _) :=
    _handle14BitCC "midi-x" (cc_event "midi-x" 0 37 1 1000) m1 (clock_of [1000]) in
  r2 = None ∧ ¬ no_stale (highResCCTimeout m2) 1000 (deviceState m2 "midi-x").
Proof.
  vm_compute. split; [reflexivity|].
  intros H.
  specialize (H (key_of 0 5)
                {| p_value := Some (ofZ 64); p_timestamp := 0; p_channel := 0 |}).
  vm_compute in H. specialize (H eq_refl). congruence.
Qed.

(** C5, amended.  A call in the MSB branch (controller below 32) sweeps:
    right after it no entry of the device's table is older than the
    window, measured at the sweep's clock reading.  A call for any other
    controller does not sweep: every entry stays, except the one that an
    LSB in [32,64) looks up. *)
Theorem handle14BitCC_sweeps_only_in_msb_branch
    (m : MIDIManager.t) (c : clock) (d : string) (msg : MidiEvent) (ch ctrl : Z) :
  is_cc msg ch ctrl →
  let m' := (_handle14BitCC d msg m c).1.2 in
  (ctrl < 32 →
     no_stale (highResCCTimeout m') (reading c (S (reads c))) (deviceState m' d))
  ∧ (32 ≤ ctrl →
     ∀ k, k ≠ key_of ch (ctrl - 32) → deviceState m' d !! k = deviceState m d !! k).
Proof.
  intros Hcc m'. split.
  - intros Hlt. subst m'.
    rewrite (handle14BitCC_msb m c d msg ch ctrl) by done. simpl.
    rewrite deviceState_set. intros k p Hkp.
    apply sweep_lookup_Some in Hkp. tauto.
  - intros Hge k Hk. by apply (handle14BitCC_no_sweep m c d msg ch ctrl).
Qed.

(** A run of the amended C5: an entry stored at time 0 is swept by an MSB
    call one second later. *)
Lemma handle14BitCC_sweeps_only_in_msb_branch_witness :
  let m := (_handle14BitCC "midi-x" (cc_event "midi-x" 0 5 64 0) MIDIManager.new
              (clock_of [0; 0])).1.2 in
  let c := clock_of [1000; 1000] in
  let msg := cc_event "midi-x" 1 9 3 1000 in
  let m' := (_handle14BitCC "midi-x" msg m c).1.2 in
  (9 < 32 →
     no_stale (highResCCTimeout m') (reading c (S (reads c))) (deviceState m' "midi-x"))
  ∧ (32 ≤ 9 →
     ∀ k, k ≠ key_of 1 (9 - 32) →
          deviceState m' "midi-x" !! k = deviceState m "midi-x" !! k).
Proof.
  intros m c msg.
  apply (handle14BitCC_sweeps_only_in_msb_branch m c "midi-x" msg 1 9).
  repeat split; reflexivity.
Defined.

End MIDIManagerClaims.

Section ActionRouterFacts.
Import Actions ActionRouter.

Lemma ready_unfold (r : ActionRouter.t) :
  ready r ↔ ∃ cl, audioClient r = Some cl ∧ AudioEngineClient.ready cl.
Proof. reflexivity. Qed.

Lemma sendAction_spec (a : Action) (r : ActionRouter.t) (c : clock) :
  let '(_, r', _) := _sendAction a r c in
  highQueue r' = highQueue r ∧ normalQueue r' = normalQueue r
  ∧ isProcessing r' = isProcessing r ∧ maxQueueSize r' = maxQueueSize r
  ∧ stats r' = stats r
  ∧ (ready r → ready r' ∧ ∃ msg, carries msg a ∧ wire r' = wire r ++ [msg]).
Proof.
  unfold _sendAction; js_run.
  destruct (audioClient r) as [cl|] eqn:Hcl.
  2:{ simpl. do 5 (split; [done|]). intros (cl & Hcl' & _). congruence. }
  destruct (timestamp_truthy a).
  all: destruct (AudioEngineClient.send _ cl) as [ok cl'] eqn:Hsend.
  all: simpl.
  all: do 5 (split; [done|]).
  all: intros (cl0 & Hcl0 & Hconn & sock & Hws & Hok).
  all: assert (cl0 = cl) as -> by congruence.
  all: unfold AudioEngineClient.send in Hsend.
  all: rewrite Hws, Hconn, Hok in Hsend; simpl in Hsend.
  all: injection Hsend as <- <-.
  all: split;
    [ eexists; split; [reflexivity|]; split; [done|]; eexists; split; done
    | eexists; split; [eexists; reflexivity|];
      unfold wire, AudioEngineClient.wire; simpl; by rewrite Hcl, Hws ].
Qed.

(** One turn of the dispatch loop. *)
Lemma processQueues_step (r : ActionRouter.t) (c : clock) :
  isProcessing r = false →
  let '(_, r', _) := _processQueues r c in
  isProcessing r' = false
  ∧ highQueue r' = drop 1 (highQueue r)
  ∧ normalQueue r' = drop (1 - length (highQueue r)) (normalQueue r)
  ∧ (ready r →
     ready r' ∧ ∃ msgs, wire r' = wire r ++ msgs
                        ∧ Forall2 carries msgs (take 1 (highQueue r ++ normalQueue r))).
Proof.
  intros Hidle.
  unfold _processQueues, JS.bind, JS.get, JS.put, JS.ret. rewrite Hidle.
  cbn [highQueue normalQueue set_isProcessing].
  destruct (highQueue r) as [|a hs] eqn:Hh.
  - destruct (normalQueue r) as [|a ns] eqn:Hn.
    + simpl. rewrite Hh, Hn. do 3 (split; [done|]). intros Hr. split.
      * destruct Hr as (cl & ? & ?). by exists cl.
      * exists []. rewrite app_nil_r. split; [done | constructor].
    + pose proof (sendAction_spec a
        (set_normalQueue (set_isProcessing r true) ns) c) as Hs.
      destruct (_sendAction a _ c) as [[ok r1] c1].
      destruct Hs as (Hq1 & Hq2 & _ & _ & _ & Hw).
      simpl. simpl in Hq1, Hq2. rewrite Hq1, Hq2, Hh.
      do 3 (split; [done|]). intros Hr.
      destruct Hw as ((cl & ? & ?) & msg & Hc & Hwire).
      { destruct Hr as (cl & ? & ?). by exists cl. }
      split; [by exists cl|].
      exists [msg]. split; [exact Hwire|]. by repeat constructor.
  - pose proof (sendAction_spec a
      (set_highQueue (set_isProcessing r true) hs) c) as Hs.
    destruct (_sendAction a _ c) as [[ok r1] c1].
    destruct Hs as (Hq1 & Hq2 & _ & _ & _ & Hw).
    simpl. simpl in Hq1, Hq2. rewrite Hq1, Hq2.
    do 3 (split; [done|]). intros Hr.
    destruct Hw as ((cl & ? & ?) & msg & Hc & Hwire).
    { destruct Hr as (cl & ? & ?). by exists cl. }
    split; [by exists cl|].
    exists [msg]. split; [exact Hwire|]. by repeat constructor.
Qed.

End ActionRouterFacts.

Section ActionRouterClaims.
Import Actions ActionRouter.

(** C2 (router priority ordering).  Start from an idle router whose high
    queue holds [hs] and whose normal queue holds [ns], and run [k] turns
    of the dispatch loop without routing anything in between.  Each turn
    takes one action, from the head of the high queue as long as it is not
    empty and from the head of the normal queue afterwards: after [k]
    turns the high queue has lost its first [k] entries, the normal queue
    its first [k - length hs], and, when the downstream client is
    connected, the socket has received, in this order, the messages of the
    first [k] entries of [hs ++ ns].  In particular all of [hs] goes out in
    FIFO order before any of [ns], for queues of any length. *)
Theorem processQueues_priority_order (k : nat) (r : ActionRouter.t) (c : clock) :
  isProcessing r = false →
  let hs := highQueue r in
  let ns := normalQueue r in
  let '(_, r', _) := turns k r c in
  isProcessing r' = false
  ∧ highQueue r' = drop k hs
  ∧ normalQueue r' = drop (k - length hs) ns
  ∧ (ready r →
     ready r' ∧ ∃ msgs, wire r' = wire r ++ msgs
                        ∧ Forall2 carries msgs (take k (hs ++ ns))).
Proof.
  revert r c. induction k as [|k IH]; intros r c Hidle; simpl.
  - unfold JS.ret. rewrite !drop_0. do 3 (split; [done|]).
    intros Hr. split; [done|]. exists []. rewrite app_nil_r.
    split; [done | constructor].
  - unfold JS.bind.
    pose proof (processQueues_step r c Hidle) as Hstep.
    destruct (_processQueues r c) as [[[] r1] c1].
    destruct Hstep as (Hidle1 & Hh1 & Hn1 & Hw1).
    specialize (IH r1 c1 Hidle1). simpl in IH.
    destruct (turns k r1 c1) as [[[] r2] c2].
    destruct IH as (Hidle2 & Hh2 & Hn2 & Hw2).
    split; [done|]. split.
    { rewrite Hh2, Hh1, drop_drop. f_equal. }
    split.
    { rewrite Hn2, Hn1, Hh1, drop_drop. f_equal.
      rewrite length_drop. destruct (highQueue r); simpl; lia. }
    intros Hr. destruct (Hw1 Hr) as (Hr1 & msgs1 & Hwire1 & Hc1).
    destruct (Hw2 Hr1) as (Hr2 & msgs2 & Hwire2 & Hc2).
    split; [done|]. exists (msgs1 ++ msgs2). split.
    { by rewrite Hwire2, Hwire1, app_assoc. }
    assert (highQueue r1 ++ normalQueue r1
            = drop 1 (highQueue r ++ normalQueue r)) as Heq.
    { rewrite Hh1, Hn1, drop_app. f_equal. }
    rewrite Heq in Hc2.
    replace (take (S k) (highQueue r ++ normalQueue r))
      with (take 1 (highQueue r ++ normalQueue r)
            ++ take k (drop 1 (highQueue r ++ normalQueue r))).
    { by apply Forall2_app. }
    destruct (highQueue r ++ normalQueue r); simpl.
    + by rewrite take_nil.
    + by rewrite ?take_0, ?drop_0.
Qed.

(** A run of C2: two high and two normal actions, three turns. *)
Lemma processQueues_priority_order_witness :
  let r := Samples.loaded_router in
  let c := clock_of [200] in
  let hs := highQueue r in
  let ns := normalQueue r in
  let '(_, r', _) := turns 3 r c in
  isProcessing r' = false
  ∧ highQueue r' = drop 3 hs
  ∧ normalQueue r' = drop (3 - length hs) ns
  ∧ (ready r →
     ready r' ∧ ∃ msgs, wire r' = wire r ++ msgs
                        ∧ Forall2 carries msgs (take 3 (hs ++ ns))).
Proof.
  apply (processQueues_priority_order 3 Samples.loaded_router (clock_of [200])).
  reflexivity.
Defined.

(** C3 (router overflow).  When the queue of the action's priority (the
    high queue for ["high"], the normal queue otherwise) already holds
    [maxQueueSize] entries or more, routing one more non-critical action
    returns [false], adds exactly one to the dropped-actions counter and
    leaves both queues as they were: same length, same entries, nothing
    appended; an action that was not queued before is not queued after. *)
Theorem route_overflow_drops_new_action
    (r : ActionRouter.t) (c : clock) (a : Action) (tgt prio : string) :
  target a = Some tgt → tgt ≠ EmptyString →
  priority a = Some prio → prio ≠ EmptyString → prio ≠ "critical" →
  maxQueueSize r ≤ Z.of_nat (length (queue_for r prio)) →
  let '(ok, r', _) := route (Some a) r c in
  ok = false
  ∧ droppedActions (stats r') = droppedActions (stats r) + 1
  ∧ highQueue r' = highQueue r
  ∧ normalQueue r' = normalQueue r
  ∧ length (queue_for r' prio) = length (queue_for r prio)
  ∧ (a ∉ queue_for r prio → a ∉ queue_for r' prio).
Proof.
  intros Ht Htne Hp Hpne Hcrit Hfull.
  unfold route, JS.bind, JS.get, JS.put, JS.ret. rewrite Ht, Hp.
  apply String.eqb_neq in Htne, Hpne, Hcrit.
  rewrite Htne, Hpne, Hcrit. simpl.
  unfold queue_for in *.
  destruct (String.eqb prio "high"); simpl in *.
  all: match goal with
       | |- context [?x >=? ?y] =>
           assert ((x >=? y) = true) as -> by (apply Z.geb_le; lia)
       end.
  all: simpl; by repeat split.
Qed.

(** A run of C3: the high queue holds the default 1000 entries and one more
    high-priority action is routed. *)
Lemma route_overflow_drops_new_action_witness :
  let r := Samples.full_router in
  let '(ok, r', _) := route (Some Samples.cue) r (clock_of [200]) in
  ok = false
  ∧ droppedActions (stats r') = droppedActions (stats r) + 1
  ∧ highQueue r' = highQueue r
  ∧ normalQueue r' = normalQueue r
  ∧ length (queue_for r' "high") = length (queue_for r "high")
  ∧ (Samples.cue ∉ queue_for r "high" → Samples.cue ∉ queue_for r' "high").
Proof.
  apply (route_overflow_drops_new_action Samples.full_router (clock_of [200])
           Samples.cue "audio" "high");
    try reflexivity; try discriminate.
Defined.

End ActionRouterClaims.

Section HIDManagerClaims.
Import HIDManager.

(** Diffing a parsed state against the state of the poll before it gives
    nothing when the two polls parsed the same values. *)
Lemma compute_deltas_same_values (previous current : State) :
  (∀ name cs, (name, cs) ∈ current →
     lookup_entry name previous ≫= s_value = s_value cs) →
  compute_deltas previous current = ([], current).
Proof.
  induction current as [|[name cs] rest IH]; intros Hsame; [done|].
  simpl. unfold delta_of.
  rewrite (Hsame name cs) by apply list_elem_of_here.
  rewrite bool_decide_eq_true_2 by done.
  rewrite IH; [done|]. intros n c Hin. apply Hsame. by apply list_elem_of_further.
Qed.

(** What [emit_all] puts into the events does not depend on the clock,
    timestamps apart. *)
Lemma emit_all_fields (d : string) (st : State) (deltas : list Delta)
    (m : HIDManager.t) (c : clock) :
  let '(events, m', _) := emit_all d st deltas m c in
  m' = m
  ∧ (e_control <$> events) = (d_control <$> deltas)
  ∧ (e_value <$> events) = (d_value <$> deltas)
  ∧ (e_delta <$> events) = (d_delta <$> deltas).
Proof.
  revert m c. induction deltas as [|x rest IH]; intros m c; simpl; [done|].
  js_run. specialize (IH m {| reading := reading c; reads := S (reads c) |}).
  destruct (emit_all d st rest m _) as [[events m'] c'].
  destruct IH as (-> & Hc & Hv & Hd). by rewrite !fmap_cons, Hc, Hv, Hd.
Qed.

(** On a device that was just connected, a second poll with the same
    report emits the same controls, values and deltas as the first one:
    both are diffed against the empty [previousState]. *)
Lemma pollDevice_second_poll_repeats_first
    (d : string) (cs : list (string * ControlConfig)) (byte : Z) (bytes : list Z)
    (c : clock) :
  let data := byte :: bytes in
  let m0 := {| devices := {[ d := connected cs ]} |} in
  let '(first, m1, c1) := _pollDevice d (Returned data) m0 c in
  let '(second, _, _) := _pollDevice d (Returned data) m1 c1 in
  (e_control <$> second) = (e_control <$> first)
  ∧ (e_value <$> second) = (e_value <$> first)
  ∧ (e_delta <$> second) = (e_delta <$> first).
Proof.
  intros data m0.
  unfold _pollDevice, _computeDeltas. js_run.
  subst m0 data. cbn [devices]. rewrite lookup_singleton_eq.
  cbn [previousState connected controls state].
  destruct (compute_deltas [] (parser cs (byte :: bytes))) as [deltas st] eqn:Hd.
  cbv beta iota.
  match goal with
  | |- context [emit_all d st deltas ?m c] =>
      pose proof (emit_all_fields d st deltas m c) as H1;
      destruct (emit_all d st deltas m c) as [[first m1] c1]
  end.
  destruct H1 as (-> & Hc1 & Hv1 & Hd1).
  cbn [devices]. rewrite lookup_insert_eq.
  cbn [previousState connected controls state]. rewrite Hd.
  match goal with
  | |- context [emit_all d st deltas ?m c1] =>
      pose proof (emit_all_fields d st deltas m c1) as H2;
      destruct (emit_all d st deltas m c1) as [[second m2] c2]
  end.
  destruct H2 as (_ & Hc2 & Hv2 & Hd2).
  by rewrite Hc1, Hv1, Hd1, Hc2, Hv2, Hd2.
Qed.

(** C4 on the code: a device with one button is polled three times with
    the same one-byte report [1].  The first poll emits the press.  The
    second poll emits it again, because [_computeDeltas] reads
    [previousState], which at that point still holds the state from two
    polls back.  Only the third poll is silent. *)
Theorem pollDevice_identical_report_emits_again :
  let c := clock_of [10; 20; 30] in
  let '(first, m1, c1) := _pollDevice "hid-x" (Returned [1]) Samples.one_button_device c in
  let '(second, m2, c2) := _pollDevice "hid-x" (Returned [1]) m1 c1 in
  let '(third, _, _) := _pollDevice "hid-x" (Returned [1]) m2 c2 in
  length first = 1%nat
  ∧ (e_control <$> second) = ["play"]
  ∧ (e_value <$> second) = [Some (ofZ 1)]
  ∧ (e_delta <$> second) = [Some (sub (ofZ 1) (ofZ 0))]
  ∧ third = [].
Proof. vm_compute. repeat split; reflexivity. Qed.

End HIDManagerClaims.

Section TranslatorFacts.
Import Config Actions.

Lemma gt_ofZ (a b : Z) : gt (ofZ a) (ofZ b) = (b <? a).
Proof.
  unfold gt, ofZ, inject_Z, Qle_bool; simpl. rewrite !Z.mul_1_r.
  destruct (Z.leb_spec a b), (Z.ltb_spec b a); simpl; (done || lia).
Qed.

Lemma lookup_assign_entry {A} (name : string) (v : A) (l : list (string * A)) :
  lookup_entry name (assign_entry name v l) = Some v.
Proof.
  induction l as [|[k w] l IH]; simpl.
  - by rewrite String.eqb_refl.
  - destruct (String.eqb k name) eqn:E; simpl; by rewrite E.
Qed.




(** A MIDI translation that throws inside [_buildAction] is turned into
    [null]; nothing else in [translate] can throw. *)
Lemma midi_translate_returns (F : FunctionConstructor) (tr : MIDITranslator.t)
    (ev : MIDIManager.MidiEvent) :
  ∃ r, MIDITranslator.translate F tr ev = Returned r.
Proof.
  unfold MIDITranslator.translate.
  destruct (MIDITranslator.lookupTable tr !! _) as [k|]; [|by eexists].
  destruct (String.eqb k EmptyString); [by eexists|].
  destruct (MIDITranslator._buildAction F ev _); simpl; by eexists.
Qed.

(** The MIDI translator copies target and priority from the mapping entry
    the lookup table resolved. *)
Lemma midi_translate_target_priority (F : FunctionConstructor) (tr : MIDITranslator.t)
    (ev : MIDIManager.MidiEvent) (act : Action) :
  MIDITranslator.translate F tr ev = Returned (Some act) →
  ∃ k m, MIDITranslator.lookupTable tr !! MIDITranslator._createLookupKey ev = Some k
         ∧ lookup_entry k (entries (MIDITranslator.mapping tr)) = Some m
         ∧ target act = Config.target m ∧ priority act = Config.priority m.
Proof.
  unfold MIDITranslator.translate.
  destruct (MIDITranslator.lookupTable tr !! _) as [k|] eqn:Hk; [|done].
  destruct (String.eqb k EmptyString); [done|].
  unfold MIDITranslator._buildAction.
  destruct (lookup_entry k _) as [m|] eqn:Hm; simpl; [|done].
  destruct (action m) as [a|]; simpl; [|done].
  intros [= <-]. exists k, m. by repeat split.
Qed.


End TranslatorFacts.

Section TranslatorClaims.
Import Config Actions.

(** C6 (end-to-end example and the transport rule).  Whatever the
    expression evaluator, the Note-On [{channel 0, note 11, velocity 127}]
    under the mapping [play_a] of the example translates to exactly the
    action [{transport, play, deck A, audio, high, value true}]; and for
    every mapping whose action type is [transport], a matching Note-On with
    a velocity in 1..127 gives an action whose value is the boolean [true],
    with type, command, target and priority taken from the mapping. *)
Theorem translate_noteon_transport (F : FunctionConstructor) :
  (∀ ts,
     MIDITranslator.translate F (MIDITranslator.new Samples.midi_config)
       (Samples.noteon 0 11 127 ts)
     = Returned (Some
         {| type := Some "transport"; command := Some "play";
            target := Some "audio"; priority := Some "high";
            timestamp := Some ts; deviceId := Some "midi-x"; from := None;
            deck := Some "A"; value := VBool true; delta := None;
            direction := VUndefined; mode := VUndefined; rawValue := None |}))
  ∧ (∀ (tr : MIDITranslator.t) (ev : MIDIManager.MidiEvent) (v : Z)
       (k : string) (m : ControlMapping) (a : ActionTemplate),
       MIDIManager.type ev = "noteon" →
       MIDIManager.velocity ev = Some (ofZ v) → 0 ≤ v ≤ 127 → v ≠ 0 →
       MIDITranslator.lookupTable tr !! MIDITranslator._createLookupKey ev = Some k →
       k ≠ EmptyString →
       lookup_entry k (entries (MIDITranslator.mapping tr)) = Some m →
       action m = Some a → a_type a = Some "transport" →
       ∃ act, MIDITranslator.translate F tr ev = Returned (Some act)
              ∧ value act = VBool true
              ∧ type act = Some "transport" ∧ command act = a_command a
              ∧ target act = Config.target m ∧ priority act = Config.priority m).
Proof.
  split.
  - intros ts. vm_compute. reflexivity.
  - intros tr ev v k m a Hty Hvel Hrange Hnz Hk Hkne Hm Ha Htr.
    unfold MIDITranslator.translate. rewrite Hk.
    apply String.eqb_neq in Hkne. rewrite Hkne, Hm.
    unfold MIDITranslator._buildAction. simpl. rewrite Ha. simpl.
    eexists. split; [reflexivity|].
    cbn [value type command target priority].
    rewrite Htr, Hty, Hvel. rewrite bool_decide_eq_true_2 by done.
    cbn [toNumber String.eqb Ascii.eqb Bool.eqb andb].
    rewrite gt_ofZ. assert ((0 <? v) = true) as -> by (apply Z.ltb_lt; lia).
    by repeat split.
Qed.

(** A run of the rule of C6: the example mapping, a soft press (velocity 1). *)
Lemma translate_noteon_transport_witness :
  ∃ act, MIDITranslator.translate Samples.failing_Function
           (MIDITranslator.new Samples.midi_config) (Samples.noteon 0 11 1 500)
         = Returned (Some act)
         ∧ value act = VBool true
         ∧ type act = Some "transport"
         ∧ command act = a_command (Samples.template "transport" "play" (Some "A"))
         ∧ target act = Config.target Samples.play_mapping
         ∧ priority act = Config.priority Samples.play_mapping.
Proof.
  apply (proj2 (translate_noteon_transport Samples.failing_Function)
           (MIDITranslator.new Samples.midi_config) (Samples.noteon 0 11 1 500)
           1 "play_a" Samples.play_mapping
           (Samples.template "transport" "play" (Some "A")));
    try reflexivity; try lia; try discriminate.
Defined.

(** C7 on the code.  The sample HID mapping file passes validation with
    target [app] and priority [critical] for its jog wheel, yet the HID
    translator builds the action from [mapping.action.target || 'audio'] and
    [mapping.action.priority || 'normal']: the action goes out with target
    [audio] and priority [normal]. *)
Theorem hid_translate_ignores_validated_target :
  validateDeviceMapping Samples.hid_config = Returned tt
  ∧ lookup_entry "jog" (entries Samples.hid_config) = Some Samples.jog_mapping
  ∧ Config.target Samples.jog_mapping = Some "app"
  ∧ Config.priority Samples.jog_mapping = Some "critical"
  ∧ ∃ act, (HIDTranslator.translate Samples.failing_Function
              (HIDTranslator.new Samples.hid_config)
              (Samples.hid_event "jog" 5 5 1000)).1 = Returned (Some act)
           ∧ target act = Some "audio" ∧ priority act = Some "normal".
Proof.
  vm_compute. repeat split; try reflexivity.
  eexists. repeat split; reflexivity.
Qed.



(** C9 on the code.  The constructor's comment says the translator tracks
    modifier button states, and [translate] announces that it updates the
    modifier state if this is a modifier control, without emitting an action
    for modifier changes unless explicitly mapped.  The sample HID file
    passes validation; its shift key is declared [modifier] in the parsing
    section and, emitting no action, has no entry under [mappings].  The
    press of that key is answered with [null] by the first guard of
    [translate], [if (!mapping) return null], before the modifier table is
    touched: the translator is exactly as before and its table holds
    nothing for the key, so a condition such as [shift] of another mapping
    never sees the press. *)
Theorem hid_translate_unmapped_modifier_not_recorded :
  let tr := HIDTranslator.new Samples.hid_config in
  let ev := Samples.hid_event "shift" 1 1 1000 in
  let '(r, tr') := HIDTranslator.translate Samples.failing_Function tr ev in
  validateDeviceMapping Samples.hid_config = Returned tt
  ∧ (parsing Samples.hid_config ≫= fun p => lookup_entry "shift" (controls p))
      ≫= HIDManager.c_type = Some "modifier"
  ∧ lookup_entry "shift" (entries Samples.hid_config) = None
  ∧ gt (toNumber (HIDManager.e_value ev)) (ofZ 0) = true
  ∧ r = Returned None
  ∧ tr' = tr
  ∧ lookup_entry "shift" (HIDTranslator.modifierState tr') = None
  ∧ lookup_entry "shift" (HIDTranslator.modifierState tr')
    ≠ Some (gt (toNumber (HIDManager.e_value ev)) (ofZ 0))
  ∧ lookup_entry "shift"
      (HIDTranslator.expression_context tr' (Samples.hid_event "jog" 5 5 1001))
    = None.
Proof. vm_compute. repeat split; (reflexivity || discriminate). Qed.

End TranslatorClaims.

Section FeedbackManagerFacts.
Import FeedbackManager.

Lemma updateLED_spec (d ctl st : string) (fm : FeedbackManager.t) (c : clock) :
  let u := {| u_deviceId := d; u_controlId := ctl; u_state := st |} in
  let '(_, fm', c') := _updateLED d ctl st fm c in
  state fm' = state fm ∧ updateThrottles fm' = updateThrottles fm
  ∧ reading c' = reading c ∧ (reads c ≤ reads c')%nat
  ∧ ledUpdates fm' =
      ledUpdates fm ++
      (if passes_gate fm (led_key d ctl) (updateThrottles fm !! "led")
            (reading c (reads c))
       then [u] else [])
  ∧ (∀ k, k ≠ led_key d ctl → lastUpdate fm' !! k = lastUpdate fm !! k).
Proof.
  unfold _updateLED, _shouldUpdate, passes_gate; js_run.
  destruct (lastUpdate fm !! led_key d ctl) as [last|]; simpl.
  - destruct (last =? 0); simpl.
    + repeat split; try done; try lia.
      intros k Hk. by rewrite lookup_insert_ne.
    + destruct (updateThrottles fm !! "led") as [i|]; simpl.
      * destruct (i <=? reading c (reads c) - last); simpl.
        -- repeat split; try done; try lia.
           intros k Hk. by rewrite lookup_insert_ne.
        -- rewrite app_nil_r. repeat split; try done; lia.
      * rewrite app_nil_r. repeat split; try done; lia.
  - repeat split; try done; try lia.
    intros k Hk. by rewrite lookup_insert_ne.
Qed.

Lemma passes_gate_ext (fm fm' : FeedbackManager.t) key interval now :
  lastUpdate fm' !! key = lastUpdate fm !! key →
  passes_gate fm' key interval now = passes_gate fm key interval now.
Proof. unfold passes_gate. by intros ->. Qed.

Lemma run_updates_spec (us : list LedUpdate) :
  ∀ (fm : FeedbackManager.t) (c : clock),
  NoDup (update_key <$> us) →
  let '(_, fm', c') := run_updates us fm c in
  state fm' = state fm ∧ updateThrottles fm' = updateThrottles fm
  ∧ reading c' = reading c ∧ (reads c ≤ reads c')%nat
  ∧ (∀ k, k ∉ update_key <$> us → lastUpdate fm' !! k = lastUpdate fm !! k)
  ∧ ∃ emitted,
      ledUpdates fm' = ledUpdates fm ++ emitted
      ∧ emitted `sublist_of` us
      ∧ ((∀ u, u ∈ us → lastUpdate fm !! update_key u = None) → emitted = us)
      ∧ (∀ u, u ∈ us →
           (∀ i, (reads c ≤ i)%nat →
              passes_gate fm (update_key u) (updateThrottles fm !! "led")
                (reading c i) = false) →
           u ∉ emitted).
Proof.
  induction us as [|u rest IH]; intros fm c Hnd.
  - simpl. unfold JS.ret. repeat split; try done.
    exists []. rewrite app_nil_r. repeat split; try done.
    intros u Hu. by apply not_elem_of_nil in Hu.
  - simpl. unfold JS.bind.
    pose proof (updateLED_spec (u_deviceId u) (u_controlId u) (u_state u) fm c) as H1.
    destruct (_updateLED _ _ _ fm c) as [[[] fm1] c1].
    destruct H1 as (Hst1 & Hth1 & Hrd1 & Hn1 & Hled1 & Hlast1).
    apply NoDup_cons in Hnd as [Hfresh Hnd].
    specialize (IH fm1 c1 Hnd).
    destruct (run_updates rest fm1 c1) as [[[] fm2] c2].
    destruct IH as (Hst2 & Hth2 & Hrd2 & Hn2 & Hlast2 & em & Hled2 & Hsub & Hall & Hnone).
    assert (∀ u', u' ∈ rest → update_key u' ≠ update_key u) as Hkeys.
    { intros u' Hu' Heq. apply Hfresh. rewrite <- Heq.
      apply list_elem_of_fmap. by exists u'. }
    split; [congruence|]. split; [congruence|]. split; [congruence|].
    split; [lia|]. split.
    { intros k Hk. apply not_elem_of_cons in Hk. destruct Hk as [Hk1 Hk2].
      rewrite Hlast2 by done. by apply Hlast1. }
    assert ({| u_deviceId := u_deviceId u; u_controlId := u_controlId u;
               u_state := u_state u |} = u) as Hu by (by destruct u).
    rewrite Hu in Hled1. fold (update_key u) in Hled1.
    eexists. split; [rewrite Hled2, Hled1, <- app_assoc; reflexivity|].
    split; [|split].
    + destruct (passes_gate fm _ _ _); simpl.
      * by apply sublist_skip.
      * by apply sublist_cons.
    + intros Hfr. unfold passes_gate.
      rewrite (Hfr u) by apply list_elem_of_here. simpl. f_equal.
      apply Hall. intros u' Hu'. rewrite Hlast1 by (by apply Hkeys).
      apply Hfr. by apply list_elem_of_further.
    + intros u' Hu' Hclosed Hin.
      apply elem_of_app in Hin as [Hin|Hin].
      * apply elem_of_cons in Hu' as [->|Hu'].
        -- rewrite (Hclosed (reads c)) in Hin by lia. by apply not_elem_of_nil in Hin.
        -- destruct (passes_gate fm _ _ _); [|by apply not_elem_of_nil in Hin].
           apply list_elem_of_singleton in Hin as ->. by apply (Hkeys u).
      * apply elem_of_cons in Hu' as [->|Hu'].
        -- apply Hfresh. apply list_elem_of_fmap. exists u. split; [done|].
           by eapply elem_of_sublist.
        -- apply (Hnone u' Hu'); [|done].
           intros i Hi. rewrite Hth1, Hrd1.
           rewrite (passes_gate_ext fm fm1) by (apply Hlast1; by apply Hkeys).
           apply Hclosed. lia.
Qed.

Lemma trackInfo_keeps_leds (track : string) (fm : FeedbackManager.t) (c : clock) :
  ledUpdates (_updateTrackInfoFeedback track fm c).1.2 = ledUpdates fm.
Proof.
  unfold _updateTrackInfoFeedback, _shouldUpdate; js_run.
  destruct (lastUpdate fm !! "trackInfo") as [last|]; simpl; [|done].
  destruct (last =? 0); simpl; [done|].
  destruct (updateThrottles fm !! "display") as [i|]; simpl; [|done].
  by destruct (i <=? _).
Qed.

(** The LED part of [syncDevice] is the burst, run through [_updateLED]. *)
Lemma syncDevice_leds (d : string) (fm : FeedbackManager.t) (c : clock) :
  ledUpdates (syncDevice d fm c).1.2 = ledUpdates (run_updates (burst d fm) fm c).1.2.
Proof.
  unfold syncDevice, _syncDeckState, burst, deck_burst, run_updates,
    JS.bind, JS.get, JS.ret.
  cbn [app u_deviceId u_controlId u_state].
  pose proof (updateLED_spec d ("play_" +:+ "a") (play_state (deckA (state fm))) fm c) as H1.
  destruct (_updateLED d ("play_" +:+ "a") _ fm c) as [[[] fm1] c1].
  destruct H1 as (S1 & _).
  pose proof (updateLED_spec d ("cue_" +:+ "a") (cue_state (deckA (state fm))) fm1 c1) as H2.
  destruct (_updateLED d ("cue_" +:+ "a") _ fm1 c1) as [[[] fm2] c2].
  destruct H2 as (S2 & _).
  pose proof (updateLED_spec d ("sync_" +:+ "a") (sync_state (deckA (state fm))) fm2 c2) as H3.
  destruct (_updateLED d ("sync_" +:+ "a") _ fm2 c2) as [[[] fm3] c3].
  destruct H3 as (S3 & _).
  assert (state fm3 = state fm) as -> by congruence.
  pose proof (updateLED_spec d ("play_" +:+ "b") (play_state (deckB (state fm))) fm3 c3) as H4.
  destruct (_updateLED d ("play_" +:+ "b") _ fm3 c3) as [[[] fm4] c4].
  destruct H4 as (S4 & _).
  pose proof (updateLED_spec d ("cue_" +:+ "b") (cue_state (deckB (state fm))) fm4 c4) as H5.
  destruct (_updateLED d ("cue_" +:+ "b") _ fm4 c4) as [[[] fm5] c5].
  destruct H5 as (S5 & _).
  destruct (_updateLED d ("sync_" +:+ "b") _ fm5 c5) as [[[] fm6] c6].
  cbn [fst snd].
  destruct (selectedTrack (library (state fm6))) as [track|]; [|done].
  destruct (String.eqb track EmptyString); [done|].
  apply trackInfo_keeps_leds.
Qed.

Global Instance led_key_inj (d : string) : Inj (=) (=) (led_key d).
Proof.
  intros x y H. unfold led_key in H.
  by apply (inj (String.app d)), (inj (String.app ":")) in H.
Qed.

Lemma burst_keys_NoDup (d : string) (fm : FeedbackManager.t) :
  NoDup (update_key <$> burst d fm).
Proof.
  change (update_key <$> burst d fm)
    with (led_key d <$> ["play_a"; "cue_a"; "sync_a"; "play_b"; "cue_b"; "sync_b"]).
  apply (NoDup_fmap_2 _).
  apply (bool_decide_unpack _). vm_compute. exact I.
Qed.

(** One [_updateLED] call in full: it takes one or two clock readings; when
    the gate is open it records the update and stamps the key with a
    reading of the call, and otherwise it leaves the manager as it was. *)
Lemma updateLED_trace (d ctl st : string) (fm : FeedbackManager.t) (c : clock) :
  let u := {| u_deviceId := d; u_controlId := ctl; u_state := st |} in
  let '(_, fm', c') := _updateLED d ctl st fm c in
  reading c' = reading c ∧ (reads c < reads c' ≤ reads c + 2)%nat
  ∧ if passes_gate fm (led_key d ctl) (updateThrottles fm !! "led")
         (reading c (reads c))
    then ∃ n', (reads c ≤ n' ≤ reads c + 1)%nat
               ∧ fm' = set_lastUpdate (record_led fm u) (led_key d ctl) (reading c n')
    else fm' = fm.
Proof.
  unfold _updateLED, _shouldUpdate, passes_gate; js_run.
  destruct (lastUpdate fm !! led_key d ctl) as [last|]; simpl.
  - destruct (last =? 0); simpl.
    + do 2 (split; [done || lia|]). exists (reads c). split; [lia|done].
    + destruct (updateThrottles fm !! "led") as [i|]; simpl.
      * destruct (i <=? reading c (reads c) - last); simpl.
        -- do 2 (split; [done || lia|]). exists (S (reads c)). split; [lia|done].
        -- do 2 (split; [done || lia|]). done.
      * do 2 (split; [done || lia|]). done.
  - do 2 (split; [done || lia|]). exists (reads c). split; [lia|done].
Qed.

Lemma filter_ext_in {A} (P Q : A → Prop) `{∀ x, Decision (P x)} `{∀ x, Decision (Q x)}
    (l : list A) :
  (∀ x, x ∈ l → P x ↔ Q x) → filter P l = filter Q l.
Proof.
  induction l as [|x l IH]; intros Hext; [done|].
  assert (filter P l = filter Q l) as Hl.
  { apply IH. intros y Hy. apply Hext. by right. }
  destruct (decide (P x)) as [HP|HP].
  - rewrite !filter_cons_True by (done || by apply Hext; [left|]). by rewrite Hl.
  - rewrite !filter_cons_False; [done| |done].
    intros HQ. apply HP. apply Hext; [left|done].
Qed.

(** A sequence of [_updateLED] calls on distinct keys: every update is
    decided by the gate of its own key at the moment of its own call. *)
Lemma run_updates_trace (us : list LedUpdate) :
  ∀ (fm : FeedbackManager.t) (c : clock),
  NoDup (update_key <$> us) →
  let '(_, fm', c') := run_updates us fm c in
  ∃ ns,
    length ns = length us
    ∧ positions (reads c) ns (reads c')
    ∧ reading c' = reading c
    ∧ state fm' = state fm ∧ updateThrottles fm' = updateThrottles fm
    ∧ ledUpdates fm'
      = ledUpdates fm
        ++ (fst <$> filter (λ un, passes_gate fm (update_key un.1)
                                    (updateThrottles fm !! "led")
                                    (reading c un.2) = true) (zip us ns))
    ∧ (∀ k, k ∉ update_key <$> us → lastUpdate fm' !! k = lastUpdate fm !! k)
    ∧ (∀ u n, (u, n) ∈ zip us ns →
         if passes_gate fm (update_key u) (updateThrottles fm !! "led") (reading c n)
         then ∃ n', (n ≤ n' ≤ n + 1)%nat
                    ∧ lastUpdate fm' !! update_key u = Some (reading c n')
         else lastUpdate fm' !! update_key u = lastUpdate fm !! update_key u).
Proof.
  induction us as [|u rest IH]; intros fm c Hnd.
  - simpl. unfold JS.ret. exists []. simpl. rewrite app_nil_r.
    repeat split; try done. intros u n Hin. by apply elem_of_nil in Hin.
  - simpl run_updates. unfold JS.bind.
    pose proof (updateLED_trace (u_deviceId u) (u_controlId u) (u_state u) fm c) as H1.
    destruct (_updateLED _ _ _ fm c) as [[[] fm1] c1].
    cbv zeta in H1. destruct H1 as (Hrd1 & Hn1 & Hgate1).
    assert ({| u_deviceId := u_deviceId u; u_controlId := u_controlId u;
               u_state := u_state u |} = u) as Hu by (by destruct u).
    rewrite Hu in Hgate1. fold (update_key u) in Hgate1.
    rewrite fmap_cons in Hnd. apply NoDup_cons in Hnd as [Hfresh Hnd].
    assert (∀ u', u' ∈ rest → update_key u' ≠ update_key u) as Hkeys.
    { intros u' Hu' Heq. apply Hfresh. rewrite <- Heq.
      apply list_elem_of_fmap. by exists u'. }
    assert (state fm1 = state fm ∧ updateThrottles fm1 = updateThrottles fm
            ∧ ∀ k, k ≠ update_key u → lastUpdate fm1 !! k = lastUpdate fm !! k)
      as (Hst1 & Hth1 & Hlast1).
    { destruct (passes_gate fm (update_key u) _ _).
      - destruct Hgate1 as (n' & _ & ->). simpl. repeat split.
        intros k Hk. by rewrite lookup_insert_ne.
      - by subst fm1. }
    specialize (IH fm1 c1 Hnd).
    destruct (run_updates rest fm1 c1) as [[[] fm2] c2].
    destruct IH as (ns & Hlen & Hpos & Hrd2 & Hst2 & Hth2 & Hled2 & Hlast2 & Hstamp2).
    assert (∀ u' n, u' ∈ rest →
              passes_gate fm1 (update_key u') (updateThrottles fm1 !! "led")
                (reading c1 n)
              = passes_gate fm (update_key u') (updateThrottles fm !! "led")
                  (reading c n)) as Hsame.
    { intros u' n Hu'. rewrite Hth1, Hrd1. apply passes_gate_ext.
      apply Hlast1. by apply Hkeys. }
    exists (reads c :: ns).
    split; [simpl; by rewrite Hlen|].
    split; [simpl; split; [done|]; exists (reads c1); split; [lia|done]|].
    split; [congruence|]. split; [congruence|]. split; [congruence|].
    split; [|split].
    + rewrite Hled2. cbn [zip zip_with].
      assert ((filter (λ un : LedUpdate * nat,
                         passes_gate fm1 (update_key un.1)
                           (updateThrottles fm1 !! "led") (reading c1 un.2) = true)
                 (zip rest ns))
              = filter (λ un : LedUpdate * nat,
                          passes_gate fm (update_key un.1)
                            (updateThrottles fm !! "led") (reading c un.2) = true)
                  (zip rest ns)) as ->.
      { apply filter_ext_in. intros [u' n] Hin. simpl.
        rewrite Hsame; [done|]. by apply elem_of_zip_l in Hin. }
      destruct (passes_gate fm (update_key u) _ (reading c (reads c))) eqn:Hg.
      * destruct Hgate1 as (n' & _ & ->).
        rewrite filter_cons_True by done. simpl. by rewrite <- app_assoc.
      * subst fm1. by rewrite filter_cons_False by (simpl; congruence).
    + intros k Hk. apply not_elem_of_cons in Hk as [Hk1 Hk2].
      rewrite Hlast2 by done. by apply Hlast1.
    + intros u' n Hin. cbn [zip zip_with] in Hin.
      apply elem_of_cons in Hin as [[= -> ->]|Hin].
      * rewrite Hlast2 by done.
        destruct (passes_gate fm (update_key u) _ (reading c (reads c))).
        -- destruct Hgate1 as (n' & Hn' & ->). exists n'. split; [done|].
           simpl. by rewrite lookup_insert_eq.
        -- by subst fm1.
      * pose proof (Hstamp2 u' n Hin) as Hs.
        assert (u' ∈ rest) as Hu' by (by apply elem_of_zip_l in Hin).
        rewrite (Hsame u' n Hu') in Hs. rewrite Hrd1 in Hs.
        destruct (passes_gate fm (update_key u') _ (reading c n)); [done|].
        rewrite Hs. apply Hlast1. by apply Hkeys.
Qed.

Lemma positions_ge (ns : list nat) :
  ∀ first final, positions first ns final → ∀ n, n ∈ ns → (first ≤ n)%nat.
Proof.
  induction ns as [|m ns IH]; intros first final Hpos n Hn.
  - by apply elem_of_nil in Hn.
  - destruct Hpos as (-> & next & Hnext & Hpos).
    apply elem_of_cons in Hn as [->|Hn]; [done|].
    pose proof (IH next final Hpos n Hn). lia.
Qed.

Lemma filter_all_true {A} (P : A → Prop) `{∀ x, Decision (P x)} (l : list A) :
  (∀ x, x ∈ l → P x) → filter P l = l.
Proof.
  induction l as [|x l IH]; intros Hall; [done|].
  rewrite filter_cons_True by (apply Hall; left).
  f_equal. apply IH. intros y Hy. apply Hall. by right.
Qed.

(** One [_updateTrackInfoFeedback] call in full. *)
Lemma trackInfo_trace (track : string) (fm : FeedbackManager.t) (c : clock) :
  let '(_, fm', _) := _updateTrackInfoFeedback track fm c in
  if passes_gate fm "trackInfo" (updateThrottles fm !! "display") (reading c (reads c))
  then ∃ n', (reads c ≤ n' ≤ reads c + 1)%nat
             ∧ fm' = set_lastUpdate fm "trackInfo" (reading c n')
  else fm' = fm.
Proof.
  unfold _updateTrackInfoFeedback, _shouldUpdate, passes_gate; js_run.
  destruct (lastUpdate fm !! "trackInfo") as [last|]; simpl.
  - destruct (last =? 0); simpl.
    + exists (reads c). split; [lia|done].
    + destruct (updateThrottles fm !! "display") as [i|]; simpl; [|done].
      destruct (i <=? reading c (reads c) - last); simpl; [|done].
      exists (S (reads c)). split; [lia|done].
  - exists (reads c). split; [lia|done].
Qed.

(** The key of the track display is not the key of any LED. *)
Lemma led_key_not_trackInfo (d ctl : string) : led_key d ctl ≠ "trackInfo".
Proof.
  unfold led_key.
  assert (∀ s, (∀ a b, s ≠ a +:+ String ":" b) → d +:+ ":" +:+ ctl ≠ s) as H.
  { intros s Hs Heq. by apply (Hs d ctl). }
  apply H. intros a b.
  do 9 (destruct a as [|? a]; [discriminate|]; intros [= _ Heq]; revert Heq).
  by destruct a.
Qed.

(** [syncDevice] is the burst, run through [_updateLED], followed by the
    track display when a track is selected. *)
Lemma syncDevice_unfold (d : string) (fm : FeedbackManager.t) (c : clock) :
  syncDevice d fm c
  = let '(_, fm6, c6) := run_updates (burst d fm) fm c in
    match selectedTrack (library (state fm6)) with
    | Some track =>
        if String.eqb track EmptyString then (tt, fm6, c6)
        else _updateTrackInfoFeedback track fm6 c6
    | None => (tt, fm6, c6)
    end.
Proof.
  unfold syncDevice, _syncDeckState, burst, deck_burst, run_updates,
    JS.bind, JS.get, JS.ret.
  cbn [app u_deviceId u_controlId u_state].
  pose proof (updateLED_spec d ("play_" +:+ "a") (play_state (deckA (state fm))) fm c) as H1.
  destruct (_updateLED d ("play_" +:+ "a") _ fm c) as [[[] fm1] c1].
  destruct H1 as (S1 & _).
  pose proof (updateLED_spec d ("cue_" +:+ "a") (cue_state (deckA (state fm))) fm1 c1) as H2.
  destruct (_updateLED d ("cue_" +:+ "a") _ fm1 c1) as [[[] fm2] c2].
  destruct H2 as (S2 & _).
  pose proof (updateLED_spec d ("sync_" +:+ "a") (sync_state (deckA (state fm))) fm2 c2) as H3.
  destruct (_updateLED d ("sync_" +:+ "a") _ fm2 c2) as [[[] fm3] c3].
  destruct H3 as (S3 & _).
  assert (state fm3 = state fm) as -> by congruence.
  destruct (_updateLED d ("play_" +:+ "b") _ fm3 c3) as [[[] fm4] c4].
  destruct (_updateLED d ("cue_" +:+ "b") _ fm4 c4) as [[[] fm5] c5].
  destruct (_updateLED d ("sync_" +:+ "b") _ fm5 c5) as [[[] fm6] c6].
  destruct (selectedTrack (library (state fm6))) as [track|]; [|done].
  by destruct (String.eqb track EmptyString).
Qed.

End FeedbackManagerFacts.

Section FeedbackManagerClaims.
Import FeedbackManager.

(** C10 as stated fails: the play LED of deck A of device [midi-x] was
    updated at time 1000; a [syncDevice] for that device five milliseconds
    later goes through the same 20 ms throttle and leaves that LED out of
    the burst: only the other five updates are made. *)
Lemma syncDevice_skips_recently_updated_led :
  let fm := Samples.fed_manager in
  let fm' := (syncDevice "midi-x" fm (clock_of [1005])).1.2 in
  lastUpdate fm !! led_key "midi-x" "play_a" = Some 1000
  ∧ length (burst "midi-x" fm) = 6%nat
  ∧ (u_controlId <$> drop (length (ledUpdates fm)) (ledUpdates fm'))
    = ["cue_a"; "sync_a"; "play_b"; "cue_b"; "sync_b"]
  ∧ lastUpdate fm' !! led_key "midi-x" "play_a" = Some 1000.
Proof. vm_compute. repeat split; reflexivity. Qed.

(** C10, amended.  [syncDevice(deviceId)] replays the snapshot (play, cue
    and sync LED of deck A, then of deck B, then the track display when a
    track is selected) through the ordinary throttle gate; there is no
    bypass and no reset.  Each of the six LED updates, all for that device
    and taken in this order, is decided on its own at the moment of its
    call: it is emitted exactly when the gate of its key is open at the
    clock reading of that call (the key has no recorded emission, or the
    LED interval has passed since it), whatever happens to the other five.
    An emitted update stamps its key with a reading of the call, a skipped
    one leaves the stamp as it was; the track display goes through the
    gate of the display interval in the same way.  The cache and the
    intervals are not touched.  In particular the whole burst is emitted
    when none of the six keys has a recorded emission, and also when the
    gate of every key is open during the call (every recorded emission is
    at least the LED interval old); an update whose key stays throttled for
    the whole call is not emitted. *)
Theorem syncDevice_is_throttled (d : string) (fm : FeedbackManager.t) (c : clock) :
  let us := burst d fm in
  let gate (u : LedUpdate) (n : nat) :=
    passes_gate fm (update_key u) (updateThrottles fm !! "led") (reading c n) in
  let '(_, fm', _) := syncDevice d fm c in
  ∃ (ns : list nat) (nt : nat),
    length ns = length us
    ∧ positions (reads c) ns nt
    ∧ (∀ u, u ∈ us → u_deviceId u = d)
    ∧ ledUpdates fm'
      = ledUpdates fm ++ (fst <$> filter (λ un, gate un.1 un.2 = true) (zip us ns))
    ∧ (∀ u n, (u, n) ∈ zip us ns →
         if gate u n
         then ∃ n', (n ≤ n' ≤ n + 1)%nat
                    ∧ lastUpdate fm' !! update_key u = Some (reading c n')
         else lastUpdate fm' !! update_key u = lastUpdate fm !! update_key u)
    ∧ match selectedTrack (library (state fm)) with
      | Some track =>
          if negb (String.eqb track EmptyString)
             && passes_gate fm "trackInfo" (updateThrottles fm !! "display")
                  (reading c nt)
          then ∃ n', (nt ≤ n' ≤ nt + 1)%nat
                     ∧ lastUpdate fm' !! "trackInfo" = Some (reading c n')
          else lastUpdate fm' !! "trackInfo" = lastUpdate fm !! "trackInfo"
      | None => lastUpdate fm' !! "trackInfo" = lastUpdate fm !! "trackInfo"
      end
    ∧ state fm' = state fm ∧ updateThrottles fm' = updateThrottles fm
    ∧ ((∀ u, u ∈ us → lastUpdate fm !! update_key u = None) →
       ledUpdates fm' = ledUpdates fm ++ us)
    ∧ ((∀ u i, u ∈ us → (reads c ≤ i)%nat → gate u i = true) →
       ledUpdates fm' = ledUpdates fm ++ us)
    ∧ (∀ u, u ∈ us →
         (∀ i, (reads c ≤ i)%nat → gate u i = false) →
         u ∉ drop (length (ledUpdates fm)) (ledUpdates fm')).
Proof.
  intros us gate. rewrite syncDevice_unfold. fold us.
  pose proof (run_updates_trace us fm c (burst_keys_NoDup d fm)) as Htrace.
  pose proof (run_updates_spec us fm c (burst_keys_NoDup d fm)) as Hrun.
  destruct (run_updates us fm c) as [[[] fm6] c6].
  destruct Htrace as (ns & Hlen & Hpos & Hrd & Hst & Hth & Hleds & Hlast & Hstamp).
  destruct Hrun as (_ & _ & _ & _ & _ & emitted & Hem & _ & Hall & Hnone).
  assert ("trackInfo" ∉ update_key <$> us) as Htrack.
  { intros (u & Hk & _)%list_elem_of_fmap. symmetry in Hk.
    by apply led_key_not_trackInfo in Hk. }
  assert (∀ u, u ∈ us → update_key u ≠ "trackInfo") as Hkeys.
  { intros u _. apply led_key_not_trackInfo. }
  assert (∀ u, u ∈ us → u_deviceId u = d) as Hdev.
  { intros u Hu. subst us. unfold burst, deck_burst in Hu.
    rewrite !elem_of_app, !elem_of_cons in Hu.
    destruct Hu as [[->|[->|[->|Hu]]]|[->|[->|[->|Hu]]]]; try done;
      by apply elem_of_nil in Hu. }
  assert (∃ fm',
            match selectedTrack (library (state fm6)) with
            | Some track =>
                if String.eqb track EmptyString then (tt, fm6, c6)
                else _updateTrackInfoFeedback track fm6 c6
            | None => (tt, fm6, c6)
            end.1.2 = fm'
            ∧ ledUpdates fm' = ledUpdates fm6 ∧ state fm' = state fm6
            ∧ updateThrottles fm' = updateThrottles fm6
            ∧ (∀ k, k ≠ "trackInfo" → lastUpdate fm' !! k = lastUpdate fm6 !! k)
            ∧ match selectedTrack (library (state fm)) with
              | Some track =>
                  if negb (String.eqb track EmptyString)
                     && passes_gate fm "trackInfo" (updateThrottles fm !! "display")
                          (reading c (reads c6))
                  then ∃ n', (reads c6 ≤ n' ≤ reads c6 + 1)%nat
                             ∧ lastUpdate fm' !! "trackInfo" = Some (reading c n')
                  else lastUpdate fm' !! "trackInfo" = lastUpdate fm !! "trackInfo"
              | None => lastUpdate fm' !! "trackInfo" = lastUpdate fm !! "trackInfo"
              end)
    as (fm' & Hfm' & Hleds' & Hst' & Hth' & Hlast' & Htrackinfo).
  { rewrite Hst.
    destruct (selectedTrack (library (state fm))) as [track|];
      [|exists fm6; do 5 (split; [done|]); by apply Hlast].
    destruct (String.eqb track EmptyString); simpl;
      [exists fm6; do 5 (split; [done|]); by apply Hlast|].
    pose proof (trackInfo_trace track fm6 c6) as Ht.
    destruct (_updateTrackInfoFeedback track fm6 c6) as [[[] fm'] c'].
    exists fm'. split; [done|].
    rewrite (passes_gate_ext fm fm6) in Ht by (by apply Hlast).
    rewrite Hth, Hrd in Ht.
    destruct (passes_gate fm "trackInfo" _ _).
    - destruct Ht as (n' & Hn' & ->). simpl. do 3 (split; [done|]). split.
      + intros k Hk. by rewrite lookup_insert_ne.
      + exists n'. split; [done|]. by rewrite lookup_insert_eq.
    - subst fm'. do 4 (split; [done|]). by apply Hlast. }
  destruct (match selectedTrack (library (state fm6)) with
            | Some _ => _ | None => _ end) as [[[] fm''] c''].
  simpl in Hfm'. subst fm''.
  exists ns, (reads c6).
  split; [done|]. split; [done|]. split; [done|].
  split; [by rewrite Hleds'|].
  split.
  { intros u n Hin. pose proof (Hstamp u n Hin) as Hs. fold (gate u n) in Hs.
    rewrite Hlast' by (apply Hkeys; by apply elem_of_zip_l in Hin). done. }
  split; [done|]. split; [congruence|]. split; [congruence|].
  split; [|split].
  - intros Hfresh. rewrite Hleds', Hem. f_equal. by apply Hall.
  - intros Hopen. rewrite Hleds', Hleds. f_equal.
    rewrite filter_all_true.
    + apply fst_zip. lia.
    + intros [u n] Hin. simpl. apply Hopen.
      * by apply elem_of_zip_l in Hin.
      * apply (positions_ge ns _ _ Hpos). by apply elem_of_zip_r in Hin.
  - intros u Hu Hclosed. rewrite Hleds', Hem, drop_app_length.
    by apply (Hnone u Hu).
Qed.

(** A run of the amended C10: a sync on a fresh manager emits the whole
    burst. *)
Lemma syncDevice_is_throttled_witness :
  ledUpdates (syncDevice "midi-x" FeedbackManager.new (clock_of [1000])).1.2
  = burst "midi-x" FeedbackManager.new.
Proof.
  pose proof (syncDevice_is_throttled "midi-x" FeedbackManager.new (clock_of [1000])) as H.
  cbv zeta in H.
  destruct (syncDevice "midi-x" FeedbackManager.new (clock_of [1000])) as [[[] fm'] c'].
  destruct H as (ns & nt & _ & _ & _ & _ & _ & _ & _ & _ & Hall & _ & _).
  simpl. rewrite Hall; [done|].
  intros u _. apply lookup_empty.
Defined.

End FeedbackManagerClaims.

(* ================================================================== *)
(** ** Further properties of the 14-bit reconstruction *)
(* ================================================================== *)

Section PendingKeys.
Import MIDIManager.

Lemma pretty_N_char_free (x : N) : pretty_N_char x ≠ ":"%char.
Proof. unfold pretty_N_char. by repeat case_match. Qed.

Lemma pretty_N_go_free (x : N) (s : string) :
  free_of ":" s → free_of ":" (pretty_N_go x s).
Proof.
  revert s. induction (N.lt_wf_0 x) as [x _ IH]; intros s Hs.
  destruct (decide (0 < x)%N) as [Hx|Hx].
  - rewrite pretty_N_go_step by done. apply IH.
    + by apply N.div_lt.
    + split; [apply pretty_N_char_free | done].
  - assert (x = 0%N) as -> by lia. by rewrite pretty_N_go_0.
Qed.

Lemma pretty_Z_free (z : Z) : free_of ":" (pretty z).
Proof.
  assert (∀ n : N, free_of ":" (pretty n)) as HN.
  { intros n. unfold pretty, pretty_N. case_decide; [by repeat split|].
    by apply pretty_N_go_free. }
  destruct z as [|p|p]; unfold pretty, pretty_Z; simpl.
  - apply (HN 0%N).
  - apply (HN (Npos p)).
  - split; [done|]. apply (HN (Npos p)).
Qed.

Lemma colon_split_unique (a a' b b' : string) :
  free_of ":" a → free_of ":" a' →
  a +:+ String ":" b = a' +:+ String ":" b' → a = a' ∧ b = b'.
Proof.
  revert a'. induction a as [|x a IH]; intros [|x' a'] Ha Ha' Heq; simpl in *.
  - by injection Heq as ->.
  - injection Heq as <- _. by destruct Ha' as [? _].
  - injection Heq as -> _. by destruct Ha as [? _].
  - injection Heq as -> Heq. destruct Ha as [_ Ha], Ha' as [_ Ha'].
    destruct (IH a' Ha Ha' Heq) as [-> ->]. done.
Qed.

(** The keys [`${channel}:${controller}`] never collide: two different
    (channel, controller) pairs have different keys. *)
Lemma key_of_inj (ch ch' ctrl ctrl' : Z) :
  key_of ch ctrl = key_of ch' ctrl' → ch = ch' ∧ ctrl = ctrl'.
Proof.
  unfold key_of. intros Heq.
  apply colon_split_unique in Heq as [H1 H2]; try apply pretty_Z_free.
  split; by apply (inj pretty).
Qed.

End PendingKeys.

Section MIDIManagerBehaviour.
Import MIDIManager.

Lemma set_deviceState_id (m : MIDIManager.t) (d : string) :
  is_Some (highResCCState m !! d) → set_deviceState m d (deviceState m d) = m.
Proof.
  intros [ds Hds]. unfold set_deviceState, deviceState. rewrite Hds. simpl.
  rewrite insert_id by done. by destruct m.
Qed.

(** What a call in the LSB branch does when the pending MSB is too old or
    missing: nothing, apart from creating the device's table. *)
Lemma handle14BitCC_lsb_unpaired m c d msg ch ctrl :
  is_cc msg ch ctrl → 32 ≤ ctrl < 64 →
  (∀ p, deviceState m d !! key_of ch (ctrl - 32) = Some p →
        highResCCTimeout m ≤ reading c (reads c) - p_timestamp p) →
  (_handle14BitCC d msg m c).1 = (None, set_deviceState m d (deviceState m d)).
Proof.
  intros (Hty & Hch & Hctl) Hrange Hstale.
  unfold _handle14BitCC; js_run.
  rewrite Hty, Hctl, Hch. simpl.
  assert (((32 <=? ctrl) && (ctrl <? 64)) = true) as ->.
  { apply andb_true_iff. split; [apply Z.leb_le | apply Z.ltb_lt]; lia. }
  rewrite !deviceState_set.
  destruct (deviceState m d !! key_of ch (ctrl - 32)) as [p|] eqn:Hp; simpl; [|done].
  assert ((reading c (reads c) - p_timestamp p <? highResCCTimeout m) = false) as ->.
  { apply Z.ltb_ge. by apply Hstale. }
  done.
Qed.

(** X1 (14-bit timeout).  An MSB followed by its LSB only after the pairing
    window has elapsed gives no combined event: the LSB call returns [null]
    (so the LSB goes out as a plain 7-bit CC) and leaves the pending table
    exactly as the MSB call left it. *)
Theorem handle14BitCC_timeout
    (m : MIDIManager.t) (c c2 : clock) (d : string)
    (msbMsg lsbMsg : MidiEvent) (ch C : Z) :
  is_cc msbMsg ch C → is_cc lsbMsg ch (C + 32) → 0 ≤ C < 32 →
  highResCCTimeout m ≤ reading c2 (reads c2) - reading c (reads c) →
  let '(_, m1, _) := _handle14BitCC d msbMsg m c in
  let '(r2, m2, _) := _handle14BitCC d lsbMsg m1 c2 in
  r2 = None ∧ m2 = m1.
Proof.
  intros Hm Hl HC Hlate.
  rewrite (handle14BitCC_msb m c d msbMsg ch C) by (done || lia).
  set (m1 := set_deviceState m d _).
  pose proof (handle14BitCC_lsb_unpaired m1 c2 d lsbMsg ch (C + 32) Hl) as H.
  destruct (_handle14BitCC d lsbMsg m1 c2) as [[r2 m2] c3]. simpl in H.
  assert ((r2, m2) = (None, set_deviceState m1 d (deviceState m1 d))) as Heq.
  { apply H; [lia|]. intros p Hp. subst m1.
    rewrite deviceState_set in Hp. replace (C + 32 - 32) with C in Hp by lia.
    apply sweep_lookup_Some in Hp as [Hp _].
    rewrite lookup_insert_eq in Hp. injection Hp as <-. simpl. done. }
  injection Heq as -> ->. split; [done|].
  apply set_deviceState_id. subst m1. simpl. rewrite lookup_insert_eq. by eexists.
Qed.

Lemma handle14BitCC_timeout_witness :
  let '(_, m1, _) :=
    _handle14BitCC "midi-x" (cc_event "midi-x" 0 7 100 1000) MIDIManager.new
      (clock_of [1000; 1000]) in
  let '(r2, m2, _) :=
    _handle14BitCC "midi-x" (cc_event "midi-x" 0 39 5 1050) m1 (clock_of [1050]) in
  r2 = None ∧ m2 = m1.
Proof.
  apply (handle14BitCC_timeout MIDIManager.new (clock_of [1000; 1000]) (clock_of [1050])
           "midi-x" (cc_event "midi-x" 0 7 100 1000) (cc_event "midi-x" 0 39 5 1050) 0 7);
    try (repeat split; reflexivity); try (simpl; lia).
Defined.

(** X2 (MSB overwrite).  Two MSBs in a row for the same controller, then
    the LSB within the window of the second: the combined value is built
    from the second MSB only. *)
Theorem handle14BitCC_last_msb_wins
    (m : MIDIManager.t) (c c' c2 : clock) (d : string)
    (msb1 msb2 lsbMsg : MidiEvent) (ch C v1 v2 lsb : Z) :
  is_cc msb1 ch C → value msb1 = Some (ofZ v1) →
  is_cc msb2 ch C → value msb2 = Some (ofZ v2) →
  is_cc lsbMsg ch (C + 32) → value lsbMsg = Some (ofZ lsb) →
  0 ≤ C < 32 →
  reading c' (S (reads c')) - reading c' (reads c') ≤ highResCCTimeout m →
  reading c2 (reads c2) - reading c' (reads c') < highResCCTimeout m →
  let '(_, m1, _) := _handle14BitCC d msb1 m c in
  let '(_, m2, _) := _handle14BitCC d msb2 m1 c' in
  let '(r3, m3, _) := _handle14BitCC d lsbMsg m2 c2 in
  ∃ ev, r3 = Some ev
    ∧ value ev = Some (ofZ (v2 * 128 + lsb))
    ∧ MIDIManager.msb ev = Some (ofZ v2)
    ∧ deviceState m3 d !! key_of ch C = None.
Proof.
  intros H1 Hv1 H2 Hv2 Hl Hlv HC Hsweep Hwin.
  rewrite (handle14BitCC_msb m c d msb1 ch C) by (done || lia).
  set (m1 := set_deviceState m d _).
  rewrite (handle14BitCC_msb m1 c' d msb2 ch C) by (done || lia).
  set (p := {| p_value := value msb2; p_timestamp := reading c' (reads c');
               p_channel := ch |}).
  set (m2 := set_deviceState m1 d _).
  assert (deviceState m2 d !! key_of ch (C + 32 - 32) = Some p) as Hp.
  { subst m2. rewrite deviceState_set. apply sweep_lookup_Some.
    replace (C + 32 - 32) with C by lia.
    rewrite lookup_insert_eq. split; [done | simpl; subst m1; simpl; lia]. }
  rewrite (handle14BitCC_lsb_fresh m2 c2 d lsbMsg ch (C + 32) p)
    by (done || lia || (subst m2 m1; simpl; lia)).
  eexists; split; [done|].
  replace (C + 32 - 32) with C by lia.
  simpl. rewrite Hv2, Hlv. simpl toNumber. rewrite combined_number.
  repeat split; try done.
  rewrite deviceState_set. apply lookup_delete_eq.
Qed.

Lemma handle14BitCC_last_msb_wins_witness :
  let '(_, m1, _) :=
    _handle14BitCC "midi-x" (cc_event "midi-x" 0 7 10 1000) MIDIManager.new
      (clock_of [1000; 1000]) in
  let '(_, m2, _) :=
    _handle14BitCC "midi-x" (cc_event "midi-x" 0 7 20 1010) m1 (clock_of [1010; 1010]) in
  let '(r3, m3, _) :=
    _handle14BitCC "midi-x" (cc_event "midi-x" 0 39 3 1012) m2 (clock_of [1012]) in
  ∃ ev, r3 = Some ev
    ∧ value ev = Some (ofZ (20 * 128 + 3))
    ∧ MIDIManager.msb ev = Some (ofZ 20)
    ∧ deviceState m3 "midi-x" !! key_of 0 7 = None.
Proof.
  apply (handle14BitCC_last_msb_wins MIDIManager.new (clock_of [1000; 1000])
           (clock_of [1010; 1010]) (clock_of [1012]) "midi-x"
           (cc_event "midi-x" 0 7 10 1000) (cc_event "midi-x" 0 7 20 1010)
           (cc_event "midi-x" 0 39 3 1012) 0 7 10 20 3);
    try (repeat split; reflexivity); try (simpl; lia).
Defined.

(** X3 (no cross-talk).  An LSB for another channel or another controller
    pair never consumes a pending MSB: the entry of (channel, controller)
    [(ch, C)] is the same before and after a call for the LSB of
    [(ch', C')], and that call returns [null] when nothing is pending for
    [(ch', C')] itself. *)
Theorem handle14BitCC_pairs_do_not_mix
    (m : MIDIManager.t) (c : clock) (d : string) (msg : MidiEvent)
    (ch ch' C C' : Z) :
  is_cc msg ch' (C' + 32) → 0 ≤ C' < 32 → (ch', C') ≠ (ch, C) →
  let '(r, m', _) := _handle14BitCC d msg m c in
  deviceState m' d !! key_of ch C = deviceState m d !! key_of ch C
  ∧ (deviceState m d !! key_of ch' C' = None → r = None).
Proof.
  intros Hcc HC Hne.
  pose proof (handle14BitCC_no_sweep m c d msg ch' (C' + 32) (key_of ch C) Hcc) as Hkeep.
  pose proof (handle14BitCC_lsb_unpaired m c d msg ch' (C' + 32) Hcc) as Hnone.
  replace (C' + 32 - 32) with C' in * by lia.
  destruct (_handle14BitCC d msg m c) as [[r m'] c']. simpl in *.
  split.
  - apply Hkeep; [lia|]. intros Heq. apply key_of_inj in Heq as [-> ->]. done.
  - intros Habsent.
    assert ((r, m') = (None, set_deviceState m d (deviceState m d))) as Heq.
    { apply Hnone; [lia|]. intros p Hp. congruence. }
    by injection Heq as -> _.
Qed.

Lemma handle14BitCC_pairs_do_not_mix_witness :
  let m := (_handle14BitCC "midi-x" (cc_event "midi-x" 0 7 100 1000) MIDIManager.new
              (clock_of [1000; 1000])).1.2 in
  let '(r, m', _) :=
    _handle14BitCC "midi-x" (cc_event "midi-x" 1 39 5 1001) m (clock_of [1001]) in
  deviceState m' "midi-x" !! key_of 0 7 = deviceState m "midi-x" !! key_of 0 7
  ∧ r = None.
Proof.
  intros m.
  assert (is_cc (cc_event "midi-x" 1 39 5 1001) 1 (7 + 32)) as Hcc
    by (repeat split; reflexivity).
  pose proof (handle14BitCC_pairs_do_not_mix m (clock_of [1001]) "midi-x"
                (cc_event "midi-x" 1 39 5 1001) 0 1 7 7 Hcc
                ltac:(lia) ltac:(discriminate)) as H.
  destruct (_handle14BitCC "midi-x" (cc_event "midi-x" 1 39 5 1001) m (clock_of [1001]))
    as [[r m'] c'].
  destruct H as [H1 H2].
  split; [exact H1 | apply H2; vm_compute; reflexivity].
Defined.

(** X4 (device isolation).  A call of the handler for one device never
    changes the pending table of another device, and a message that is not
    a CC changes nothing at all. *)
Theorem handle14BitCC_other_devices_untouched
    (m : MIDIManager.t) (c : clock) (d d' : string) (msg : MidiEvent) :
  let '(r, m', c') := _handle14BitCC d msg m c in
  highResCCTimeout m' = highResCCTimeout m
  ∧ (d' ≠ d → highResCCState m' !! d' = highResCCState m !! d')
  ∧ (type msg ≠ "cc" → r = None ∧ m' = m ∧ c' = c).
Proof.
  unfold _handle14BitCC; js_run.
  destruct (String.eqb (type msg) "cc") eqn:Hty; simpl.
  2:{ repeat split; done. }
  apply String.eqb_eq in Hty.
  destruct (controller msg) as [ctrl|]; simpl.
  2:{ split; [done|]. split; [|done]. intros Hne. by rewrite lookup_insert_ne. }
  destruct ((32 <=? ctrl) && (ctrl <? 64)); simpl.
  - rewrite deviceState_set.
    destruct (deviceState m d !! _) as [p|]; simpl.
    + destruct (_ - _ <? _); simpl.
      * split; [done|]. split; [|done]. intros Hne. by rewrite !lookup_insert_ne.
      * split; [done|]. split; [|done]. intros Hne. by rewrite lookup_insert_ne.
    + split; [done|]. split; [|done]. intros Hne. by rewrite lookup_insert_ne.
  - destruct (ctrl <? 32); simpl.
    + split; [done|]. split; [|done]. intros Hne. by rewrite !lookup_insert_ne.
    + split; [done|]. split; [|done]. intros Hne. by rewrite lookup_insert_ne.
Qed.

Lemma handle14BitCC_other_devices_untouched_witness :
  let m := (_handle14BitCC "midi-y" (cc_event "midi-y" 0 7 100 1000) MIDIManager.new
              (clock_of [1000; 1000])).1.2 in
  let '(r, m', c') :=
    _handle14BitCC "midi-x" (cc_event "midi-x" 0 7 100 1000) m (clock_of [1000; 1000]) in
  highResCCState m' !! "midi-y" = highResCCState m !! "midi-y".
Proof.
  intros m.
  pose proof (handle14BitCC_other_devices_untouched m (clock_of [1000; 1000])
                "midi-x" "midi-y" (cc_event "midi-x" 0 7 100 1000)) as H.
  destruct (_handle14BitCC "midi-x" _ m _) as [[r m'] c'].
  destruct H as (_ & H & _). apply H. discriminate.
Defined.

Lemma normalize_cc (d : string) (msg : RawMessage) (m : MIDIManager.t) (c : clock) :
  _normalizeMIDIMessage d "cc" msg m c =
    ({| deviceId := d; type := "cc"; channel := raw_channel msg;
        timestamp := reading c (reads c);
        note := None; velocity := None;
        controller := raw_controller msg; value := raw_value msg;
        program := None; value14bit := None; maxValue := None; normalized := None;
        highRes := false; lsbController := None; msb := None; lsb := None |},
     m, {| reading := reading c; reads := S (reads c) |}).
Proof. reflexivity. Qed.

(** X5 (what the CC handler emits).  Through the ['cc'] input handler an
    MSB is not held back: it is emitted at once as the plain 7-bit event
    (same controller and value, no highRes flag).  The LSB that completes
    the pair in time is replaced by the combined 14-bit event on the MSB's
    controller; the raw LSB itself is never emitted. *)
Theorem on_cc_emits_msb_then_combined
    (m : MIDIManager.t) (c c2 : clock) (d : string) (ch C msb lsb : Z) :
  0 ≤ C < 32 →
  reading c (S (S (reads c))) - reading c (S (reads c)) ≤ highResCCTimeout m →
  reading c2 (S (reads c2)) - reading c (S (reads c)) < highResCCTimeout m →
  let '(first, m1, _) := on_cc d (raw_cc ch C msb) m c in
  let '(second, _, _) := on_cc d (raw_cc ch (C + 32) lsb) m1 c2 in
  (controller first = Some C ∧ value first = Some (ofZ msb) ∧ highRes first = false)
  ∧ (controller second = Some C ∧ value second = Some (ofZ (msb * 128 + lsb))
     ∧ normalized second = Some (Num ((msb * 128 + lsb) # 16383))
     ∧ highRes second = true
     ∧ timestamp second = reading c2 (reads c2)).
Proof.
  intros HC Hsweep Hwin.
  unfold on_cc, JS.bind at 1 2. rewrite normalize_cc.
  match goal with
  | |- context [_handle14BitCC d ?e m ?c1] =>
      rewrite (handle14BitCC_msb m c1 d e ch C) by (repeat split; (done || lia))
  end.
  cbn [JS.ret reading reads value raw_value raw_cc].
  set (p := {| p_value := Some (ofZ msb); p_timestamp := reading c (S (reads c));
               p_channel := ch |}).
  set (m1 := set_deviceState m d _).
  unfold JS.bind at 1 2. rewrite normalize_cc.
  assert (deviceState m1 d !! key_of ch (C + 32 - 32) = Some p) as Hp.
  { subst m1. rewrite deviceState_set. apply sweep_lookup_Some.
    replace (C + 32 - 32) with C by lia.
    rewrite lookup_insert_eq. split; [done | simpl; lia]. }
  match goal with
  | |- context [_handle14BitCC d ?e m1 ?c1] =>
      rewrite (handle14BitCC_lsb_fresh m1 c1 d e ch (C + 32) p)
        by ((repeat split; done) || lia || (subst m1; simpl; lia) || done)
  end.
  cbn [JS.ret]. split; [done|].
  replace (C + 32 - 32) with C by lia.
  cbn [combined_event controller value normalized highRes timestamp p_value p
       raw_value raw_cc toNumber].
  rewrite combined_number, normalized_number. done.
Qed.

Lemma on_cc_emits_msb_then_combined_witness :
  let '(first, m1, _) :=
    on_cc "midi-x" (raw_cc 0 7 100) MIDIManager.new (clock_of [1000; 1000; 1000]) in
  let '(second, _, _) := on_cc "midi-x" (raw_cc 0 (7 + 32) 5) m1 (clock_of [1002; 1002]) in
  (controller first = Some 7 ∧ value first = Some (ofZ 100) ∧ highRes first = false)
  ∧ (controller second = Some 7 ∧ value second = Some (ofZ (100 * 128 + 5))
     ∧ normalized second = Some (Num ((100 * 128 + 5) # 16383))
     ∧ highRes second = true
     ∧ timestamp second = reading (clock_of [1002; 1002]) (reads (clock_of [1002; 1002]))).
Proof.
  apply (on_cc_emits_msb_then_combined MIDIManager.new (clock_of [1000; 1000; 1000])
           (clock_of [1002; 1002]) "midi-x" 0 7 100 5); simpl; lia.
Defined.

End MIDIManagerBehaviour.

(* ================================================================== *)
(** ** Further properties of HID parsing and diffing *)
(* ================================================================== *)

Section HIDManagerBehaviour.
Import HIDManager.

Lemma toInt32_small (z : Z) : - 2 ^ 31 ≤ z < 2 ^ 31 → toInt32 z = z.
Proof. intros H. unfold toInt32. rewrite Z.mod_small by lia. lia. Qed.

Lemma land_shiftr_1 (b k : Z) :
  0 ≤ k → Z.land (Z.shiftr b k) 1 = Z.b2z (Z.testbit b k).
Proof.
  intros Hk. change 1 with (Z.ones 1). rewrite Z.land_ones by lia.
  rewrite <- Z.bit0_mod, Z.shiftr_spec by lia. by rewrite Z.add_0_l.
Qed.

(** X6 (button bit).  A button control reads one bit of one report byte:
    for a byte in 0..255 and a bit position in 0..7 the parsed value is
    that bit, 0 or 1.  When the report is too short to hold the byte, the
    control is skipped: the parsed state has no entry for it at all. *)
Theorem parse_button_bit
    (data : list Z) (cfg : ControlConfig) (index bit byte : Z) :
  c_type cfg = Some "button" → c_byte cfg = Some index → c_bit cfg = Some bit →
  0 ≤ index → 0 ≤ bit < 8 →
  (data !! Z.to_nat index = Some byte → 0 ≤ byte < 256 →
     parse_control data cfg = Some (Some (Z.b2z (Z.testbit byte bit))))
  ∧ (data !! Z.to_nat index = None →
     ∀ name, parser [(name, cfg)] data = []).
Proof.
  intros Hty Hbyte Hbit Hidx Hb. unfold parse_control, at_index.
  rewrite Hty, Hbyte, Hbit. rewrite bool_decide_eq_true_2 by done.
  assert ((index <? 0) = false) as -> by (apply Z.ltb_ge; lia).
  split.
  - intros -> Hrange. simpl. unfold band, sar.
    rewrite (toInt32_small byte) by lia. rewrite (Z.mod_small bit) by lia.
    rewrite toInt32_small.
    + rewrite (toInt32_small 1) by lia. by rewrite land_shiftr_1 by lia.
    + rewrite Z.shiftr_div_pow2 by lia.
      assert (0 < 2 ^ bit) by (apply Z.pow_pos_nonneg; lia).
      split.
      * transitivity 0; [lia|]. apply Z.div_pos; lia.
      * apply Z.le_lt_trans with byte; [|lia]. apply Z.div_le_upper_bound; nia.
  - intros Hnone name. simpl. unfold parse_control, at_index.
    rewrite Hty, Hbyte. rewrite bool_decide_eq_true_2 by done.
    assert ((index <? 0) = false) as -> by (apply Z.ltb_ge; lia).
    by rewrite Hnone.
Qed.

Lemma parse_button_bit_witness :
  parse_control [0; 5] Samples.play_button = Some (Some (Z.b2z (Z.testbit 0 0)))
  ∧ parse_control [4; 5]
      (Samples.control "button" None (Some 0) (Some 2))
    = Some (Some (Z.b2z (Z.testbit 4 2))).
Proof.
  split.
  - apply (proj1 (parse_button_bit [0; 5] Samples.play_button 0 0 0
                    eq_refl eq_refl eq_refl ltac:(lia) ltac:(lia)));
      [reflexivity | lia].
  - apply (proj1 (parse_button_bit [4; 5]
                    (Samples.control "button" None (Some 0) (Some 2)) 0 2 4
                    eq_refl eq_refl eq_refl ltac:(lia) ltac:(lia)));
      [reflexivity | lia].
Defined.

Lemma lor_disjoint (a b n : Z) :
  0 ≤ n → 0 ≤ a < 2 ^ n → Z.lor a (b * 2 ^ n) = a + b * 2 ^ n.
Proof.
  intros Hn Ha.
  assert (Z.land a (b * 2 ^ n) = 0) as Hland.
  { apply Z.bits_inj'. intros m Hm. rewrite Z.land_spec, Z.bits_0.
    destruct (Z.lt_ge_cases m n).
    - rewrite (Z.mul_pow2_bits_low b n m) by lia. apply andb_false_r.
    - rewrite <- (Z.mod_small a (2 ^ n)) by lia.
      rewrite Z.mod_pow2_bits_high by lia. done. }
  rewrite <- Z.lxor_lor by done. by rewrite Z.add_nocarry_lxor.
Qed.

Lemma little_endian_bound (bs : list Z) :
  Forall (fun b => 0 ≤ b < 256) bs →
  0 ≤ little_endian bs < 2 ^ (8 * Z.of_nat (length bs)).
Proof.
  induction 1 as [|b bs Hb _ IH]; simpl little_endian; [simpl; lia|].
  rewrite length_cons, Nat2Z.inj_succ.
  replace (8 * Z.succ (Z.of_nat (length bs))) with (8 + 8 * Z.of_nat (length bs)) by lia.
  rewrite Z.pow_add_r by lia. change (2 ^ 8) with 256. lia.
Qed.

(** The accumulation loop on bytes that are all present. *)
Lemma accumulate_little_endian (data idxs bs : list Z) :
  Forall2 (fun idx b => 0 ≤ idx ∧ data !! Z.to_nat idx = Some b ∧ 0 ≤ b < 256) idxs bs →
  ∀ i raw, 0 ≤ i → i + Z.of_nat (length bs) ≤ 3 → 0 ≤ raw < 2 ^ (8 * i) →
  accumulate data idxs i raw = raw + 2 ^ (8 * i) * little_endian bs.
Proof.
  induction 1 as [|idx b idxs bs (Hidx & Hlook & Hb) _ IH]; intros i raw Hi Hlen Hraw.
  - simpl. lia.
  - simpl accumulate. simpl length in Hlen. unfold at_index.
    assert ((idx <? 0) = false) as -> by (apply Z.ltb_ge; lia).
    rewrite Hlook.
    assert (2 ^ (8 * i) ≤ 2 ^ 16) by (apply Z.pow_le_mono_r; lia).
    assert (0 < 2 ^ (8 * i)) by (apply Z.pow_pos_nonneg; lia).
    assert (bor raw (shl b (i * 8)) = raw + b * 2 ^ (8 * i)) as ->.
    { unfold bor, shl. rewrite (toInt32_small b) by lia.
      rewrite (Z.mod_small (i * 8)) by lia.
      rewrite Z.shiftl_mul_pow2 by lia. replace (i * 8) with (8 * i) by lia.
      rewrite !(toInt32_small (b * 2 ^ (8 * i))) by nia.
      rewrite (toInt32_small raw) by lia.
      apply lor_disjoint; lia. }
    rewrite IH; try lia.
    + simpl little_endian. replace (8 * (i + 1)) with (8 * i + 8) by lia.
      rewrite Z.pow_add_r by lia. change (2 ^ 8) with 256. lia.
    + replace (8 * (i + 1)) with (8 * i + 8) by lia.
      rewrite Z.pow_add_r by lia. change (2 ^ 8) with 256. nia.
Qed.

(** X7 (multi-byte fields).  A control read from up to three report bytes,
    all present and in 0..255, is decoded low byte first.  Unsigned, its
    value is the little-endian number.  Signed with a resolution [r] between
    1 and 30, the parser subtracts [2^r] from a number that is [2^(r-1)] or
    more and masks nothing.  So a number below [2^r] comes out as its
    two's-complement reading, in [-2^(r-1), 2^(r-1)); but a number that needs
    more than [r] bits is only lowered by [2^r], and from [2^r + 2^(r-1)] on
    the result is outside that range. *)
Theorem parse_multibyte_little_endian
    (data idxs bs : list Z) (cfg : ControlConfig) :
  c_type cfg ≠ Some "button" → c_bytes cfg = Some idxs →
  Forall2 (fun idx b => 0 ≤ idx ∧ data !! Z.to_nat idx = Some b ∧ 0 ≤ b < 256) idxs bs →
  (length bs ≤ 3)%nat →
  (c_signed cfg = false →
     parse_control data cfg = Some (Some (little_endian bs)))
  ∧ (∀ r, c_signed cfg = true → c_resolution cfg = Some r → 0 < r ≤ 30 →
          let v := if 2 ^ (r - 1) <=? little_endian bs
                   then little_endian bs - 2 ^ r else little_endian bs in
          parse_control data cfg = Some (Some v)
          ∧ (little_endian bs < 2 ^ r → - 2 ^ (r - 1) ≤ v < 2 ^ (r - 1))
          ∧ (2 ^ r + 2 ^ (r - 1) ≤ little_endian bs → 2 ^ (r - 1) ≤ v)).
Proof.
  intros Hty Hbytes Hall Hlen.
  assert (accumulate data idxs 0 0 = little_endian bs) as Hacc.
  { rewrite (accumulate_little_endian data idxs bs Hall 0 0) by (simpl; lia).
    simpl. lia. }
  unfold parse_control. rewrite bool_decide_eq_false_2 by done.
  rewrite Hbytes, Hacc. split.
  - intros ->. done.
  - intros r -> -> Hr. cbv zeta. simpl.
    assert ((r =? 0) = false) as -> by (apply Z.eqb_neq; lia). simpl.
    assert (shl 1 r = 2 ^ r) as ->.
    { unfold shl. rewrite (toInt32_small 1) by lia. rewrite Z.mod_small by lia.
      rewrite Z.shiftl_mul_pow2, Z.mul_1_l by lia.
      apply toInt32_small.
      assert (0 < 2 ^ r) by (apply Z.pow_pos_nonneg; lia).
      assert (2 ^ r ≤ 2 ^ 30) by (apply Z.pow_le_mono_r; lia). lia. }
    assert (2 ^ r = 2 * 2 ^ (r - 1)) as Hpow.
    { rewrite <- Z.pow_succ_r by lia. f_equal. lia. }
    assert (0 < 2 ^ (r - 1)) as Hpos by (apply Z.pow_pos_nonneg; lia).
    assert (Forall (fun b => 0 ≤ b < 256) bs) as Hb.
    { clear -Hall. induction Hall as [|???? (_ & _ & ?)]; constructor; done. }
    pose proof (little_endian_bound bs Hb) as Hle.
    destruct (Z.leb_spec (2 ^ r) (2 * little_endian bs)) as [Hge|Hlow].
    + assert ((2 ^ (r - 1) <=? little_endian bs) = true) as ->
        by (apply Z.leb_le; lia).
      split; [done|]. split; lia.
    + assert ((2 ^ (r - 1) <=? little_endian bs) = false) as ->
        by (apply Z.leb_gt; lia).
      split; [done|]. split; lia.
Qed.

Lemma parse_multibyte_little_endian_witness :
  let jog := {| c_type := Some "delta"; c_byte := None; c_bit := None;
                c_bytes := Some [1; 2]; c_signed := true;
                c_resolution := Some 16; c_min := None; c_max := None |} in
  parse_control [0; 254; 255; 9] jog = Some (Some (-2))
  ∧ parse_control [0; 52; 18; 9] (Samples.control "absolute" (Some [1; 2]) None None)
    = Some (Some (little_endian [52; 18])).
Proof.
  intros jog. split.
  - apply (proj2 (parse_multibyte_little_endian [0; 254; 255; 9] [1; 2] [254; 255] jog
                    ltac:(discriminate) eq_refl
                    ltac:(repeat constructor; (reflexivity || lia))
                    ltac:(simpl; lia))
             16 eq_refl eq_refl ltac:(lia)).
  - apply (proj1 (parse_multibyte_little_endian [0; 52; 18; 9] [1; 2] [52; 18]
                    (Samples.control "absolute" (Some [1; 2]) None None)
                    ltac:(discriminate) eq_refl
                    ltac:(repeat constructor; (reflexivity || lia))
                    ltac:(simpl; lia))).
    reflexivity.
Defined.

Lemma compute_deltas_controls (previous current : State) :
  (d_control <$> (compute_deltas previous current).1)
  = (fst <$> filter (fun e => changed previous e = true) current)
  ∧ (fst <$> (compute_deltas previous current).2) = (fst <$> current)
  ∧ ((fun e => s_value e.2) <$> (compute_deltas previous current).2)
    = ((fun e => s_value e.2) <$> current).
Proof.
  unfold State in *.
  induction current as [|[name cs] rest (IH1 & IH2 & IH3)]; [done|].
  simpl compute_deltas.
  destruct (compute_deltas previous rest) as [ds rest'].
  simpl in IH1, IH2, IH3.
  unfold delta_of.
  destruct (bool_decide (lookup_entry name previous ≫= s_value = s_value cs)) eqn:E.
  - rewrite filter_cons_False by (unfold changed; simpl; rewrite E; done).
    cbv beta iota. cbn [fst snd]. by rewrite !fmap_cons, IH1, IH2, IH3.
  - rewrite filter_cons_True by (unfold changed; simpl; rewrite E; done).
    destruct (bool_decide (s_type cs = Some "delta")); cbv beta iota; cbn [fst snd];
      by rewrite !fmap_cons, IH1, IH2, IH3.
Qed.

(** X8 (what a poll emits).  A poll that reads a non-empty report emits one
    event per parsed control whose value differs from the one kept in the
    device's [previousState], in parsing order, and nothing else.  It then
    stores the parsed controls as [state] and moves the old [state] to
    [previousState].  On a device that was just connected every parsed
    control with a defined value is emitted. *)
Theorem pollDevice_emits_changed_controls
    (m : HIDManager.t) (c : clock) (d : string) (info : DeviceInfo) (byte : Z)
    (bytes : list Z) :
  devices m !! d = Some info →
  let data := byte :: bytes in
  let parsed := parser (controls info) data in
  let '(events, m', _) := _pollDevice d (Returned data) m c in
  (e_control <$> events)
  = (fst <$> filter (fun e => changed (previousState info) e = true) parsed)
  ∧ (∃ st, devices m' !! d
           = Some {| controls := controls info; state := st;
                     previousState := state info |}
           ∧ (fst <$> st) = (fst <$> parsed)
           ∧ ((fun e => s_value e.2) <$> st) = ((fun e => s_value e.2) <$> parsed))
  ∧ (previousState info = [] →
     (e_control <$> events)
     = (fst <$> filter (fun e => is_Some (s_value e.2)) parsed)).
Proof.
  intros Hinfo data parsed. unfold State in *.
  unfold _pollDevice, _computeDeltas; js_run. rewrite Hinfo. subst data. cbv beta iota.
  pose proof (compute_deltas_controls (previousState info) parsed) as (H1 & H2 & H3).
  fold parsed.
  destruct (compute_deltas (previousState info) parsed) as [deltas st]. simpl in H1, H2, H3.
  match goal with
  | |- context [emit_all d st deltas ?m0 c] =>
      pose proof (emit_all_fields d st deltas m0 c) as He;
      destruct (emit_all d st deltas m0 c) as [[events m'] c']
  end.
  destruct He as (-> & Hc & _). split; [by rewrite Hc|]. split.
  - exists st. simpl. by rewrite lookup_insert_eq.
  - intros Hfresh. rewrite Hc, H1, Hfresh. f_equal.
    apply list_filter_iff. intros [name cs]. unfold changed. simpl.
    rewrite negb_true_iff, bool_decide_eq_false.
    destruct (s_value cs); split; intros H; (done || by destruct H || by eexists).
Qed.

Lemma pollDevice_emits_changed_controls_witness :
  let '(events, m', _) :=
    _pollDevice "hid-x" (Returned [1; 0]) Samples.one_button_device (clock_of [10]) in
  (e_control <$> events) = ["play"].
Proof.
  pose proof (pollDevice_emits_changed_controls Samples.one_button_device (clock_of [10])
                "hid-x" (connected [("play", Samples.play_button)]) 1 [0] eq_refl) as H.
  simpl in H.
  destruct (_pollDevice "hid-x" (Returned [1; 0]) Samples.one_button_device (clock_of [10]))
    as [[events m'] c'].
  destruct H as (H & _). exact H.
Defined.

(** X9 (nothing to read).  A poll that gets no data, whose read throws, or
    that is made for a device the manager does not know, emits nothing and
    leaves the manager and the clock as they were. *)
Theorem pollDevice_without_data
    (m : HIDManager.t) (c : clock) (d : string) (read : outcome (list Z)) :
  read = Returned [] ∨ (∃ e, read = Thrown e) ∨ devices m !! d = None →
  _pollDevice d read m c = ([], m, c).
Proof.
  intros H. unfold _pollDevice; js_run.
  destruct (devices m !! d) as [info|]; [|done].
  destruct H as [->|[[e ->]|H]]; done.
Qed.

Lemma pollDevice_without_data_witness :
  _pollDevice "hid-x" (Thrown "could not read") Samples.one_button_device (clock_of [10])
  = ([], Samples.one_button_device, clock_of [10]).
Proof.
  apply pollDevice_without_data. right. left. by eexists.
Defined.

End HIDManagerBehaviour.

(* ================================================================== *)
(** ** Further properties of the router *)
(* ================================================================== *)

Section ActionRouterBehaviour.
Import Actions ActionRouter.

(** X10 (invalid actions).  [route] rejects a missing action and an action
    whose target or priority is missing or empty: it returns [false] and
    leaves the router, its counters included, and the clock untouched. *)
Theorem route_rejects_invalid
    (r : ActionRouter.t) (c : clock) (action : option Action) :
  (action = None
   ∨ ∃ a, action = Some a
          ∧ (target a = None ∨ target a = Some EmptyString
             ∨ priority a = None ∨ priority a = Some EmptyString)) →
  route action r c = (false, r, c).
Proof.
  intros [->|(a & -> & H)]; [done|].
  unfold route; js_run.
  destruct (target a) as [tgt|], (priority a) as [prio|]; try done.
  destruct H as [H|[H|[H|H]]]; try done; injection H as ->; simpl;
    by rewrite ?orb_true_r.
Qed.

Lemma route_rejects_invalid_witness :
  route (Some (Samples.action "transport" "play" EmptyString "high" 1))
    Samples.loaded_router (clock_of [5])
  = (false, Samples.loaded_router, clock_of [5]).
Proof.
  apply route_rejects_invalid. right. eexists. split; [reflexivity|].
  right. left. reflexivity.
Defined.

(** What [route] does with a valid non-critical action. *)
Lemma route_queueable (r : ActionRouter.t) (c : clock) (a : Action) tgt prio :
  target a = Some tgt → tgt ≠ EmptyString →
  priority a = Some prio → prio ≠ EmptyString → prio ≠ "critical" →
  let counted :=
    {| totalActions := totalActions (stats r) + 1;
       droppedActions := droppedActions (stats r);
       actionsByPriority := increment prio (actionsByPriority (stats r));
       actionsByTarget := increment tgt (actionsByTarget (stats r)) |} in
  route (Some a) r c =
    if Z.of_nat (length (queue_for r prio)) >=? maxQueueSize r then
      (false,
       set_stats r {| totalActions := totalActions counted;
                      droppedActions := droppedActions counted + 1;
                      actionsByPriority := actionsByPriority counted;
                      actionsByTarget := actionsByTarget counted |}, c)
    else if String.eqb prio "high" then
      (true, set_highQueue (set_stats r counted) (highQueue r ++ [a]), c)
    else
      (true, set_normalQueue (set_stats r counted) (normalQueue r ++ [a]), c).
Proof.
  intros Ht Htne Hp Hpne Hcrit counted.
  unfold route; js_run. rewrite Ht, Hp.
  apply String.eqb_neq in Htne, Hpne, Hcrit.
  rewrite Htne, Hpne, Hcrit. simpl. unfold queue_for.
  destruct (String.eqb prio "high"); simpl;
    match goal with |- context [?x >=? ?y] => destruct (x >=? y) end; done.
Qed.

(** X11 (critical bypass).  A critical action is never queued: with a
    connected client it is written to the socket during the [route] call
    itself, behind nothing, whatever the two queues hold (even when they
    are full); both queues stay as they were and the call returns [true]. *)
Theorem route_critical_bypasses_queues
    (r : ActionRouter.t) (c : clock) (a : Action) (tgt : string) :
  target a = Some tgt → tgt ≠ EmptyString → priority a = Some "critical" →
  ready r →
  let '(ok, r', _) := route (Some a) r c in
  ok = true
  ∧ (∃ msg, carries msg a ∧ wire r' = wire r ++ [msg])
  ∧ highQueue r' = highQueue r ∧ normalQueue r' = normalQueue r
  ∧ totalActions (stats r') = totalActions (stats r) + 1
  ∧ droppedActions (stats r') = droppedActions (stats r).
Proof.
  intros Ht Htne Hp (cl & Hcl & Hconn & sock & Hws & Hok).
  unfold route, _sendAction; js_run. rewrite Ht, Hp.
  apply String.eqb_neq in Htne. rewrite Htne. simpl. rewrite Hcl.
  unfold AudioEngineClient.send. rewrite Hws, Hconn, Hok. simpl.
  destruct (timestamp_truthy a); simpl.
  all: split; [done|]; split; [|done].
  all: eexists; split; [eexists; reflexivity|].
  all: unfold wire, AudioEngineClient.wire; simpl; by rewrite Hcl, Hws.
Qed.

Lemma route_critical_bypasses_queues_witness :
  let a := Samples.action "jog" "scratch" "audio" "critical" 77 in
  let '(ok, r', _) := route (Some a) Samples.full_router (clock_of [5]) in
  ok = true
  ∧ (∃ msg, carries msg a ∧ wire r' = wire Samples.full_router ++ [msg])
  ∧ highQueue r' = highQueue Samples.full_router
  ∧ normalQueue r' = normalQueue Samples.full_router
  ∧ totalActions (stats r') = totalActions (stats Samples.full_router) + 1
  ∧ droppedActions (stats r') = droppedActions (stats Samples.full_router).
Proof.
  intros a.
  apply (route_critical_bypasses_queues Samples.full_router (clock_of [5]) a "audio");
    try reflexivity; try discriminate.
  eexists. split; [reflexivity|]. split; [reflexivity|].
  eexists. split; reflexivity.
Defined.

Lemma queue_for_high (r : ActionRouter.t) (prio : string) :
  queue_for r prio = if String.eqb prio "high" then highQueue r else normalQueue r.
Proof. reflexivity. Qed.

Lemma is_high_eqb (a : Action) (prio : string) :
  priority a = Some prio → is_high a = String.eqb prio "high".
Proof.
  intros Hp. unfold is_high. rewrite Hp.
  destruct (String.eqb_spec prio "high") as [->|Hne].
  - by rewrite bool_decide_eq_true_2.
  - rewrite bool_decide_eq_false_2; [done|]. congruence.
Qed.

(** X12 (no silent loss).  Routing a valid non-critical action never loses
    it unnoticed: either it is appended at the tail of the queue of its
    priority ([high], or the normal queue for anything else) and the call
    returns [true], or that queue is full, the action is counted in
    [droppedActions] and the call returns [false].  In both cases
    [totalActions] grows by one, the other queue is unchanged and nothing
    is sent. *)
Theorem route_queues_or_counts_drop
    (r : ActionRouter.t) (c : clock) (a : Action) :
  queueable a →
  let '(ok, r', c') := route (Some a) r c in
  totalActions (stats r') = totalActions (stats r) + 1
  ∧ wire r' = wire r ∧ c' = c
  ∧ ((ok = true
      ∧ droppedActions (stats r') = droppedActions (stats r)
      ∧ (if is_high a
         then highQueue r' = highQueue r ++ [a] ∧ normalQueue r' = normalQueue r
         else normalQueue r' = normalQueue r ++ [a] ∧ highQueue r' = highQueue r))
     ∨ (ok = false
        ∧ droppedActions (stats r') = droppedActions (stats r) + 1
        ∧ highQueue r' = highQueue r ∧ normalQueue r' = normalQueue r
        ∧ maxQueueSize r
          ≤ Z.of_nat (length (if is_high a then highQueue r else normalQueue r)))).
Proof.
  intros (tgt & prio & Ht & Htne & Hp & Hpne & Hcrit).
  rewrite (route_queueable r c a tgt prio) by done.
  rewrite (is_high_eqb a prio Hp), queue_for_high.
  destruct (Z.geb_spec (Z.of_nat (length (if String.eqb prio "high"
                                          then highQueue r else normalQueue r)))
              (maxQueueSize r)) as [Hfull|Hroom].
  - simpl. do 3 (split; [done|]). right. by repeat split.
  - destruct (String.eqb prio "high"); simpl;
      (do 3 (split; [done|])); left; by repeat split.
Qed.

Lemma route_queues_or_counts_drop_witness :
  let '(ok, r', c') := route (Some Samples.browse) Samples.loaded_router (clock_of [5]) in
  ok = true
  ∧ normalQueue r' = normalQueue Samples.loaded_router ++ [Samples.browse]
  ∧ totalActions (stats r') = totalActions (stats Samples.loaded_router) + 1.
Proof.
  assert (queueable Samples.browse) as Hq.
  { exists "app", "normal". repeat split; (reflexivity || discriminate). }
  pose proof (route_queues_or_counts_drop Samples.loaded_router (clock_of [5])
                Samples.browse Hq) as H.
  destruct (route (Some Samples.browse) Samples.loaded_router (clock_of [5]))
    as [[ok r'] c'].
  destruct H as (Htotal & _ & _ & [(Hok & _ & Hq' & _)|(_ & _ & _ & _ & Hfull)]).
  - by repeat split.
  - vm_compute in Hfull. by destruct Hfull.
Defined.

Lemma processQueues_bounds (r : ActionRouter.t) (c : clock) :
  let '(_, r', _) := _processQueues r c in
  maxQueueSize r' = maxQueueSize r
  ∧ stats r' = stats r
  ∧ (length (highQueue r') ≤ length (highQueue r))%nat
  ∧ (length (normalQueue r') ≤ length (normalQueue r))%nat.
Proof.
  unfold _processQueues; js_run.
  destruct (isProcessing r); [by repeat split|].
  cbn [highQueue normalQueue set_isProcessing].
  destruct (highQueue r) as [|a hs] eqn:Hh.
  - destruct (normalQueue r) as [|a ns] eqn:Hn.
    + simpl. rewrite Hh, Hn. by repeat split.
    + pose proof (sendAction_spec a (set_normalQueue (set_isProcessing r true) ns) c) as Hs.
      destruct (_sendAction a _ c) as [[ok r1] c1].
      destruct Hs as (Hq1 & Hq2 & _ & Hmax & Hst & _).
      simpl. simpl in Hq1, Hq2, Hmax, Hst. rewrite Hq1, Hq2, Hmax, Hst, Hh.
      repeat split; simpl; lia.
  - pose proof (sendAction_spec a (set_highQueue (set_isProcessing r true) hs) c) as Hs.
    destruct (_sendAction a _ c) as [[ok r1] c1].
    destruct Hs as (Hq1 & Hq2 & _ & Hmax & Hst & _).
    simpl. simpl in Hq1, Hq2, Hmax, Hst. rewrite Hq1, Hq2, Hmax, Hst.
    repeat split; simpl; lia.
Qed.

Lemma turns_stats (n : nat) (r : ActionRouter.t) (c : clock) :
  stats (turns n r c).1.2 = stats r.
Proof.
  revert r c. induction n as [|n IH]; intros r c; [done|].
  simpl. unfold JS.bind.
  pose proof (processQueues_bounds r c) as H.
  destruct (_processQueues r c) as [[[] r1] c1].
  destruct H as (_ & <- & _). apply IH.
Qed.

Lemma route_bounds (r : ActionRouter.t) (c : clock) (action : option Action) :
  let '(_, r', _) := route action r c in
  maxQueueSize r' = maxQueueSize r ∧ (bounded r → bounded r').
Proof.
  destruct action as [a|]; [|done].
  unfold route; js_run.
  destruct (target a) as [tgt|]; [|done].
  destruct (priority a) as [prio|]; [|done].
  destruct (String.eqb tgt EmptyString || String.eqb prio EmptyString); [done|].
  simpl. destruct (String.eqb prio "critical").
  - match goal with
    | |- context [_sendAction a ?r0 c] =>
        pose proof (sendAction_spec a r0 c) as Hs;
        destruct (_sendAction a r0 c) as [[ok r1] c1]
    end.
    destruct Hs as (Hq1 & Hq2 & _ & Hmax & _). simpl in Hq1, Hq2, Hmax.
    split; [done|]. unfold bounded. rewrite Hq1, Hq2, Hmax. done.
  - unfold bounded.
    destruct (String.eqb prio "high"); simpl;
      match goal with
      | |- context [?x >=? ?y] => destruct (Z.geb_spec x y)
      end; simpl; (split; [done|]); rewrite ?length_app; simpl; lia.
Qed.

(** X13 (bounded queues).  Whatever is done to a router (actions routed,
    dispatch turns, pause, resume, clearing), in any order, queues that
    respect [maxQueueSize] keep respecting it. *)
Theorem router_queues_stay_bounded (ops : list Op) :
  ∀ (r : ActionRouter.t) (c : clock),
  bounded r → bounded (run ops r c).1.2.
Proof.
  induction ops as [|op ops IH]; intros r c Hb; [done|].
  simpl run. unfold JS.bind.
  assert (bounded (step op r c).1.2) as Hstep.
  { destruct op as [action| | | |]; simpl step.
    - unfold JS.bind, JS.ret.
      pose proof (route_bounds r c action) as H.
      destruct (route action r c) as [[ok r1] c1]. simpl. by apply H.
    - pose proof (processQueues_bounds r c) as H.
      destruct (_processQueues r c) as [[[] r1] c1]. simpl.
      destruct H as (Hmax & _ & Hh & Hn). destruct Hb as [Hb1 Hb2].
      unfold bounded. rewrite Hmax. lia.
    - done.
    - done.
    - destruct Hb as [Hb1 Hb2]. unfold bounded. simpl. lia. }
  destruct (step op r c) as [[[] r1] c1]. by apply IH.
Qed.

Lemma router_queues_stay_bounded_witness :
  bounded (run [Route (Some Samples.cue); Turn; Pause; Route (Some Samples.play);
                Resume; ClearQueues; Route (Some Samples.volume)]
             Samples.full_router (clock_of [5])).1.2.
Proof.
  apply router_queues_stay_bounded. split; vm_compute; discriminate.
Defined.

Lemma route_not_critical (r : ActionRouter.t) (c : clock) (action : option Action) :
  (∀ a, action = Some a → priority a ≠ Some "critical") →
  let '(_, r', _) := route action r c in
  audioClient r' = audioClient r ∧ isProcessing r' = isProcessing r.
Proof.
  intros Hq. destruct action as [a|]; [|done].
  specialize (Hq a eq_refl).
  unfold route; js_run.
  destruct (target a) as [tgt|]; [|done].
  destruct (priority a) as [prio|]; [|done].
  destruct (String.eqb tgt EmptyString || String.eqb prio EmptyString); [done|].
  simpl. destruct (String.eqb_spec prio "critical") as [->|_]; [done|].
  destruct (String.eqb prio "high"); simpl;
    match goal with |- context [?x >=? ?y] => destruct (x >=? y) end; done.
Qed.

(** X14 (pause).  Once [pause()] has been called, nothing leaves the
    queues: whatever follows (dispatch turns, routing of non-critical
    actions, clearing, pausing again), as long as nobody calls [resume()]
    and no critical action is routed, the socket receives nothing and the
    router stays paused. *)
Theorem paused_router_sends_nothing
    (ops : list Op) (r : ActionRouter.t) (c : clock) :
  Forall quiet ops →
  let '(_, r', _) := run (Pause :: ops) r c in
  wire r' = wire r ∧ isProcessing r' = true.
Proof.
  intros Hops. simpl run. unfold JS.bind at 1. unfold step, pause; js_run.
  assert (∀ r0 c0, isProcessing r0 = true →
            let '(_, r', _) := run ops r0 c0 in
            audioClient r' = audioClient r0 ∧ isProcessing r' = true) as Hrun.
  { clear r c. induction Hops as [|op ops Hop _ IH]; intros r c Hp; [done|].
    simpl run. unfold JS.bind at 1.
    assert (let '(_, r1, _) := step op r c in
            audioClient r1 = audioClient r ∧ isProcessing r1 = true) as Hstep.
    { destruct op as [action| | | |]; simpl in Hop; simpl step.
      - unfold JS.bind, JS.ret.
        pose proof (route_not_critical r c action) as H.
        destruct (route action r c) as [[ok r1] c1].
        destruct H as [H1 H2].
        { intros a ->. exact Hop. }
        split; [done|congruence].
      - unfold _processQueues; js_run. by rewrite Hp.
      - done.
      - done.
      - unfold clearQueues; js_run. done. }
    destruct (step op r c) as [[[] r1] c1]. destruct Hstep as [Ha Hp1].
    specialize (IH r1 c1 Hp1).
    destruct (run ops r1 c1) as [[[] r2] c2].
    destruct IH as [Ha2 Hp2]. split; [congruence|done]. }
  specialize (Hrun (set_isProcessing r true) c eq_refl).
  destruct (run ops (set_isProcessing r true) c) as [[[] r'] c'].
  destruct Hrun as [Ha Hp]. split; [|done].
  unfold wire. by rewrite Ha.
Qed.

Lemma paused_router_sends_nothing_witness :
  let '(_, r', _) := run [Pause; Turn; Route (Some Samples.play); Turn; ClearQueues; Turn]
                       Samples.loaded_router (clock_of [5]) in
  wire r' = wire Samples.loaded_router ∧ isProcessing r' = true.
Proof.
  apply (paused_router_sends_nothing
           [Turn; Route (Some Samples.play); Turn; ClearQueues; Turn]).
  repeat constructor; discriminate.
Defined.

Lemma run_app (ops1 ops2 : list Op) (r : ActionRouter.t) (c : clock) :
  run (ops1 ++ ops2) r c = let '(_, r1, c1) := run ops1 r c in run ops2 r1 c1.
Proof.
  revert r c. induction ops1 as [|op ops1 IH]; intros r c; [done|].
  simpl. unfold JS.bind. destruct (step op r c) as [[[] r1] c1]. apply IH.
Qed.

Lemma run_turns (n : nat) (r : ActionRouter.t) (c : clock) :
  run (replicate n Turn) r c = turns n r c.
Proof.
  revert r c. induction n as [|n IH]; intros r c; [done|].
  simpl. unfold JS.bind. destruct (_processQueues r c) as [[[] r1] c1]. apply IH.
Qed.

Lemma turns_drain (hs ns : list Action) :
  ∀ (r : ActionRouter.t) (c : clock),
  isProcessing r = false → highQueue r = hs → normalQueue r = ns → ready r →
  let '(_, r', _) := turns (length hs + length ns) r c in
  isProcessing r' = false ∧ highQueue r' = [] ∧ normalQueue r' = []
  ∧ ∃ msgs, wire r' = wire r ++ msgs ∧ Forall2 carries msgs (hs ++ ns).
Proof.
  induction hs as [|a hs IHh].
  - induction ns as [|a ns IHn]; intros r c Hidle Hh Hn Hr.
    + simpl. unfold JS.ret. do 3 (split; [done|]).
      exists []. by rewrite app_nil_r.
    + simpl. unfold JS.bind.
      pose proof (processQueues_step r c Hidle) as Hstep.
      destruct (_processQueues r c) as [[[] r1] c1].
      destruct Hstep as (Hidle1 & Hh1 & Hn1 & Hw1).
      destruct (Hw1 Hr) as (Hr1 & msgs1 & Hwire1 & Hc1).
      rewrite Hh in Hh1, Hn1, Hc1. rewrite Hn in Hn1, Hc1. simpl in Hh1, Hn1, Hc1.
      rewrite ?drop_0 in Hn1. rewrite ?take_0 in Hc1.
      pose proof (IHn r1 c1 Hidle1 Hh1 Hn1 Hr1) as IH. simpl in IH.
      destruct (turns (length ns) r1 c1) as [[[] r2] c2].
      destruct IH as (? & ? & ? & msgs2 & Hwire2 & Hc2).
      do 3 (split; [done|]). exists (msgs1 ++ msgs2). split.
      * by rewrite Hwire2, Hwire1, app_assoc.
      * simpl. change (a :: ns) with ([a] ++ ns). by apply Forall2_app.
  - intros r c Hidle Hh Hn Hr.
    simpl. unfold JS.bind.
    pose proof (processQueues_step r c Hidle) as Hstep.
    destruct (_processQueues r c) as [[[] r1] c1].
    destruct Hstep as (Hidle1 & Hh1 & Hn1 & Hw1).
    destruct (Hw1 Hr) as (Hr1 & msgs1 & Hwire1 & Hc1).
    rewrite Hh in Hh1, Hn1, Hc1. simpl in Hh1, Hn1, Hc1. rewrite Hn in Hn1.
    rewrite ?drop_0 in Hh1, Hn1. rewrite ?take_0 in Hc1.
    pose proof (IHh r1 c1 Hidle1 Hh1 Hn1 Hr1) as IH.
    destruct (turns (length hs + length ns) r1 c1) as [[[] r2] c2].
    destruct IH as (? & ? & ? & msgs2 & Hwire2 & Hc2).
    do 3 (split; [done|]). exists (msgs1 ++ msgs2). split.
    + by rewrite Hwire2, Hwire1, app_assoc.
    + simpl. change (a :: hs ++ ns) with ([a] ++ (hs ++ ns)). by apply Forall2_app.
Qed.

Lemma run_route_cons (action : option Action) (ops : list Op)
    (r : ActionRouter.t) (c : clock) :
  run (Route action :: ops) r c
  = let '(_, r1, c1) := route action r c in run ops r1 c1.
Proof.
  cbn [run step]. unfold JS.bind, JS.ret.
  by destruct (route action r c) as [[ok r1] c1].
Qed.

Lemma route_burst (acts : list Action) :
  ∀ (r : ActionRouter.t) (c : clock),
  Forall queueable acts →
  Z.of_nat (length (highQueue r) + length (filter (λ a, is_high a) acts))
    ≤ maxQueueSize r →
  Z.of_nat (length (normalQueue r) + length (filter (λ a, ¬ is_high a) acts))
    ≤ maxQueueSize r →
  let '(_, r', _) := run (Route ∘ Some <$> acts) r c in
  highQueue r' = highQueue r ++ filter (λ a, is_high a) acts
  ∧ normalQueue r' = normalQueue r ++ filter (λ a, ¬ is_high a) acts
  ∧ isProcessing r' = isProcessing r ∧ audioClient r' = audioClient r
  ∧ droppedActions (stats r') = droppedActions (stats r)
  ∧ totalActions (stats r') = totalActions (stats r) + Z.of_nat (length acts).
Proof.
  induction acts as [|a acts IH]; intros r c Hq Hh Hn.
  { simpl. unfold JS.ret. rewrite !filter_nil, !app_nil_r.
    do 5 (split; [done|]). simpl. lia. }
  apply Forall_cons in Hq as [(tgt & prio & Ht & Htne & Hp & Hpne & Hcrit) Hq].
  rewrite fmap_cons. change ((Route ∘ Some) a) with (Route (Some a)).
  rewrite run_route_cons.
  rewrite (route_queueable r c a tgt prio) by done.
  pose proof (is_high_eqb a prio Hp) as Hhigh.
  rewrite queue_for_high. rewrite <- Hhigh.
  destruct (is_high a) eqn:E.
  - rewrite (filter_cons_True (λ a, is_high a : Prop)) in * by (cbv beta; rewrite E; auto).
    rewrite (filter_cons_False (λ a, ¬ is_high a)) in * by (cbv beta; rewrite E; auto).
    simpl in Hh.
    destruct (Z.geb_spec (Z.of_nat (length (highQueue r))) (maxQueueSize r));
      [lia|].
    match goal with
    | |- context [run _ ?r1 c] => specialize (IH r1 c Hq); destruct (run _ r1 c) as [[[] r'] c']
    end.
    simpl in IH. rewrite length_app in IH. simpl in IH.
    destruct IH as (-> & -> & -> & -> & -> & ->); [lia|lia|].
    rewrite <- ?app_assoc. simpl. repeat split; lia.
  - rewrite (filter_cons_False (λ a, is_high a : Prop)) in * by (cbv beta; rewrite E; auto).
    rewrite (filter_cons_True (λ a, ¬ is_high a)) in * by (cbv beta; rewrite E; auto).
    simpl in Hn.
    destruct (Z.geb_spec (Z.of_nat (length (normalQueue r))) (maxQueueSize r));
      [lia|].
    match goal with
    | |- context [run _ ?r1 c] => specialize (IH r1 c Hq); destruct (run _ r1 c) as [[[] r'] c']
    end.
    simpl in IH. rewrite length_app in IH. simpl in IH.
    destruct IH as (-> & -> & -> & -> & -> & ->); [lia|lia|].
    rewrite <- ?app_assoc. simpl. repeat split; lia.
Qed.

(** X15 (route, then dispatch).  Route a burst of valid non-critical
    actions into an idle, connected router with empty queues (the burst
    fitting into the queues), then let the dispatch loop run one turn per
    action.  All of them are sent, none is dropped, and the socket receives
    them grouped by priority: first the [high] ones in the order they were
    routed, then the others in the order they were routed.  Both queues
    are empty again afterwards. *)
Theorem burst_is_dispatched_by_priority
    (acts : list Action) (r : ActionRouter.t) (c : clock) :
  isProcessing r = false → highQueue r = [] → normalQueue r = [] → ready r →
  Forall queueable acts →
  Z.of_nat (length (filter (λ a, is_high a) acts)) ≤ maxQueueSize r →
  Z.of_nat (length (filter (λ a, ¬ is_high a) acts)) ≤ maxQueueSize r →
  let '(_, r', _) :=
    run ((Route ∘ Some <$> acts) ++ replicate (length acts) Turn) r c in
  highQueue r' = [] ∧ normalQueue r' = []
  ∧ droppedActions (stats r') = droppedActions (stats r)
  ∧ ∃ msgs, wire r' = wire r ++ msgs
            ∧ Forall2 carries msgs
                (filter (λ a, is_high a) acts ++ filter (λ a, ¬ is_high a) acts).
Proof.
  intros Hidle Hh Hn Hr Hq Hroomh Hroomn.
  rewrite run_app.
  pose proof (route_burst acts r c Hq) as Hb.
  rewrite Hh, Hn in Hb. simpl in Hb. specialize (Hb Hroomh Hroomn).
  destruct (run (Route ∘ Some <$> acts) r c) as [[[] r1] c1].
  destruct Hb as (Hh1 & Hn1 & Hidle1 & Hcl1 & Hd1 & _).
  rewrite run_turns.
  assert (ready r1) as Hr1.
  { destruct Hr as (cl & Hcl & Hrdy). exists cl. split; [congruence|done]. }
  assert (length acts = length (filter (λ a, is_high a) acts)
                        + length (filter (λ a, ¬ is_high a) acts))%nat as Hlen.
  { clear. induction acts as [|a acts IH]; [done|].
    destruct (is_high a) eqn:E.
    - rewrite (filter_cons_True (λ a, is_high a : Prop)) by (cbv beta; rewrite E; auto).
      rewrite (filter_cons_False (λ a, ¬ is_high a)) by (cbv beta; rewrite E; auto).
      simpl. lia.
    - rewrite (filter_cons_False (λ a, is_high a : Prop)) by (cbv beta; rewrite E; auto).
      rewrite (filter_cons_True (λ a, ¬ is_high a)) by (cbv beta; rewrite E; auto).
      simpl. lia. }
  rewrite Hlen.
  pose proof (turns_drain _ _ r1 c1 ltac:(congruence) Hh1 Hn1 Hr1) as Hd.
  pose proof (turns_stats (length (filter (λ a, is_high a) acts)
                           + length (filter (λ a, ¬ is_high a) acts)) r1 c1) as Hst.
  destruct (turns _ r1 c1) as [[[] r2] c2].
  destruct Hd as (_ & Hh2 & Hn2 & msgs & Hwire & Hc). simpl in Hst.
  do 2 (split; [done|]). split.
  - by rewrite Hst.
  - exists msgs. split; [|done]. rewrite Hwire. unfold wire. by rewrite Hcl1.
Qed.

Lemma burst_is_dispatched_by_priority_witness :
  let r := ActionRouter.new (Some Samples.connected_client) in
  let acts := [Samples.volume; Samples.play; Samples.browse; Samples.cue] in
  let '(_, r', _) :=
    run ((Route ∘ Some <$> acts) ++ replicate (length acts) Turn) r (clock_of [5]) in
  highQueue r' = [] ∧ normalQueue r' = []
  ∧ droppedActions (stats r') = droppedActions (stats r)
  ∧ ∃ msgs, wire r' = wire r ++ msgs
            ∧ Forall2 carries msgs
                (filter (λ a, is_high a) acts ++ filter (λ a, ¬ is_high a) acts).
Proof.
  assert (∀ ty cmd tgt prio ts, prio ≠ EmptyString → prio ≠ "critical" →
            tgt ≠ EmptyString → queueable (Samples.action ty cmd tgt prio ts)) as Hq.
  { intros ty cmd tgt prio ts ? ? ?. by exists tgt, prio. }
  apply (burst_is_dispatched_by_priority
           [Samples.volume; Samples.play; Samples.browse; Samples.cue]
           (ActionRouter.new (Some Samples.connected_client)) (clock_of [5])).
  - reflexivity.
  - reflexivity.
  - reflexivity.
  - exists Samples.connected_client. split; [reflexivity|].
    split; [reflexivity|]. eexists. split; reflexivity.
  - repeat constructor; apply Hq; discriminate.
  - vm_compute. discriminate.
  - vm_compute. discriminate.
Defined.

End ActionRouterBehaviour.

(* ================================================================== *)
(** ** Further properties of the MIDI translator *)
(* ================================================================== *)

Section MIDITranslatorBehaviour.
Import Config Actions MIDITranslator.
Variable Function : FunctionConstructor.

Lemma append_assoc (a b c : string) : (a +:+ b) +:+ c = a +:+ (b +:+ c).
Proof.
  induction a as [|x a IH]; [done|].
  change (String x ((a +:+ b) +:+ c) = String x (a +:+ (b +:+ c))). by f_equal.
Qed.

Lemma append_nil_r (a : string) : a +:+ EmptyString = a.
Proof.
  induction a as [|x a IH]; [done|].
  change (String x (a +:+ EmptyString) = String x a). by f_equal.
Qed.

Lemma free_of_append (ch : ascii) (a b : string) :
  free_of ch (a +:+ String ch b) → False.
Proof.
  induction a as [|x a IH].
  - by intros [? _].
  - change (x ≠ ch ∧ free_of ch (a +:+ String ch b) → False).
    intros [_ H]. by apply IH.
Qed.

Lemma table_step_miss (l : list (string * ControlMapping))
    (table : gmap string string) (key : string) :
  (∀ k m p, (k, m) ∈ l → midi m = Some p → _createLookupKeyFromConfig p ≠ key) →
  foldl (λ table kv,
           match midi kv.2 with
           | None => table
           | Some pattern => <[_createLookupKeyFromConfig pattern := kv.1]> table
           end) table l !! key = table !! key.
Proof.
  revert table. induction l as [|[k m] l IH]; intros table Hmiss; [done|].
  simpl. rewrite IH.
  - destruct (midi m) as [p|] eqn:Hp; [|done].
    rewrite lookup_insert_ne; [done|]. apply (Hmiss k m p); [left|done].
  - intros k' m' p' Hin. apply (Hmiss k' m' p'). by right.
Qed.

Lemma table_step_sound (l : list (string * ControlMapping))
    (table : gmap string string) (key k : string) :
  foldl (λ table kv,
           match midi kv.2 with
           | None => table
           | Some pattern => <[_createLookupKeyFromConfig pattern := kv.1]> table
           end) table l !! key = Some k →
  table !! key = Some k
  ∨ ∃ m p, (k, m) ∈ l ∧ midi m = Some p ∧ _createLookupKeyFromConfig p = key.
Proof.
  revert table. induction l as [|[k' m'] l IH]; intros table Hl; [by left|].
  simpl in Hl. apply IH in Hl as [Hl|(m & p & Hin & Hp & Hkey)].
  - destruct (midi m') as [p'|] eqn:Hp'; [|by left].
    destruct (decide (_createLookupKeyFromConfig p' = key)) as [Heq|Hne].
    + rewrite Heq, lookup_insert_eq in Hl. injection Hl as <-.
      right. exists m', p'. split; [left|done].
    + rewrite lookup_insert_ne in Hl by done. by left.
  - right. exists m, p. split; [by right|done].
Qed.

(** X16 (lookup table).  The table built by the constructor resolves the
    key of a pattern to the last mapping entry that carries a pattern with
    this key: when two mappings describe the same MIDI message the later
    one silently replaces the earlier one.  An event whose key no pattern
    produces is not translated: [translate] returns [null]. *)
Theorem lookup_table_last_mapping_wins
    (cfg : Config.t) (l1 l2 : list (string * ControlMapping))
    (k : string) (m : ControlMapping) (p : MidiPattern) :
  entries cfg = l1 ++ (k, m) :: l2 →
  midi m = Some p →
  (∀ k' m' p', (k', m') ∈ l2 → midi m' = Some p' →
     _createLookupKeyFromConfig p' ≠ _createLookupKeyFromConfig p) →
  lookupTable (new cfg) !! _createLookupKeyFromConfig p = Some k
  ∧ ∀ ev, (∀ k' m' p', (k', m') ∈ entries cfg → midi m' = Some p' →
             _createLookupKeyFromConfig p' ≠ _createLookupKey ev) →
          translate Function (new cfg) ev = Returned None.
Proof.
  intros Hsplit Hp Hlater. split.
  - simpl. unfold _buildLookupTable. rewrite Hsplit, foldl_app. simpl.
    rewrite table_step_miss by done. rewrite Hp. apply lookup_insert_eq.
  - intros ev Hmiss. unfold translate. simpl. unfold _buildLookupTable.
    rewrite table_step_miss by done. by rewrite lookup_empty.
Qed.

Lemma join_key_split (ty : string) (ch : Z) (note controller : option Z) :
  join_key (Some ty) (Some ch) note controller
  = ty +:+ String ":"
      (pretty ch +:+ match note, controller with
                     | Some n, _ => String ":" ("note:" +:+ pretty n)
                     | None, Some c => String ":" ("cc:" +:+ pretty c)
                     | None, None => EmptyString
                     end).
Proof.
  unfold join_key. cbn [default from_option].
  destruct note as [n|]; [|destruct controller as [c|]].
  - by rewrite !append_assoc.
  - by rewrite !append_assoc.
  - by rewrite append_nil_r.
Qed.

Lemma pretty_suffix_split (ch ch' : Z) (rest rest' : string) :
  pretty ch +:+ String ":" rest = pretty ch' +:+ String ":" rest' →
  ch = ch' ∧ rest = rest'.
Proof.
  intros Heq. apply colon_split_unique in Heq as [H1 H2]; try apply pretty_Z_free.
  split; [by apply (inj pretty)|done].
Qed.

(** The key of a well-formed pattern equals the key of an event only when
    the pattern describes the event. *)
Lemma lookup_key_matches (p : MidiPattern) (ev : MIDIManager.MidiEvent) :
  well_formed p → free_of ":" (MIDIManager.type ev) →
  _createLookupKeyFromConfig p = _createLookupKey ev → matches p ev.
Proof.
  intros (ty & ch & Hty & Hfree & Hch) Hfree' Heq.
  unfold _createLookupKeyFromConfig, _createLookupKey in Heq.
  rewrite Hty, Hch, !join_key_split in Heq.
  apply colon_split_unique in Heq as [-> Heq]; [|done..].
  unfold matches. rewrite Hty, Hch. split; [done|].
  destruct (p_note p) as [n|] eqn:Hn; [|destruct (p_controller p) as [ct|] eqn:Hc];
    (destruct (MIDIManager.note ev) as [n'|] eqn:Hn';
     [|destruct (MIDIManager.controller ev) as [ct'|] eqn:Hc']).
  - apply pretty_suffix_split in Heq as [-> Heq].
    apply (inj (append "note:")), (inj pretty) in Heq. by subst.
  - apply pretty_suffix_split in Heq as [_ Heq]. discriminate Heq.
  - exfalso. apply (f_equal (free_of ":")) in Heq.
    rewrite append_nil_r in Heq.
    apply (free_of_append ":" (pretty ch) ("note:" +:+ pretty n)).
    rewrite Heq. apply pretty_Z_free.
  - apply pretty_suffix_split in Heq as [_ Heq]. discriminate Heq.
  - apply pretty_suffix_split in Heq as [-> Heq].
    apply (inj (append "cc:")), (inj pretty) in Heq. by subst.
  - exfalso. apply (f_equal (free_of ":")) in Heq.
    rewrite append_nil_r in Heq.
    apply (free_of_append ":" (pretty ch) ("cc:" +:+ pretty ct)).
    rewrite Heq. apply pretty_Z_free.
  - exfalso. apply (f_equal (free_of ":")) in Heq.
    rewrite append_nil_r in Heq.
    eapply (free_of_append ":" (pretty (MIDIManager.channel ev))).
    rewrite <- Heq. apply pretty_Z_free.
  - exfalso. apply (f_equal (free_of ":")) in Heq.
    rewrite append_nil_r in Heq.
    eapply (free_of_append ":" (pretty (MIDIManager.channel ev))).
    rewrite <- Heq. apply pretty_Z_free.
  - rewrite !append_nil_r in Heq. apply (inj pretty) in Heq. by subst.
Qed.

(** X17 (a mapping fires only for its own message).  With well-formed
    patterns (a type without colon, a channel) and unique mapping names, an
    event is translated into an action only when some mapping entry has a
    pattern of the same type, the same channel and the same note (or, for
    an event without note, the same controller); the action then takes
    target, priority, type and command from that entry. *)
Theorem translate_fires_only_matching_mapping
    (cfg : Config.t) (ev : MIDIManager.MidiEvent) (act : Action) :
  NoDup (fst <$> entries cfg) →
  (∀ k m p, (k, m) ∈ entries cfg → midi m = Some p → well_formed p) →
  free_of ":" (MIDIManager.type ev) →
  translate Function (new cfg) ev = Returned (Some act) →
  ∃ k m p template,
    (k, m) ∈ entries cfg ∧ midi m = Some p ∧ matches p ev
    ∧ action m = Some template
    ∧ target act = Config.target m ∧ priority act = Config.priority m
    ∧ type act = a_type template ∧ command act = a_command template.
Proof.
  intros Hnodup Hwf Hfree Htr.
  unfold translate in Htr. simpl lookupTable in Htr. simpl MIDITranslator.mapping in Htr.
  destruct (_buildLookupTable cfg !! _createLookupKey ev) as [k|] eqn:Hk; [|done].
  destruct (String.eqb k EmptyString); [done|].
  unfold _buildLookupTable in Hk.
  apply table_step_sound in Hk as [Hk|(m & p & Hin & Hp & Hkey)];
    [by rewrite lookup_empty in Hk|].
  assert (lookup_entry k (entries cfg) = Some m) as Hm.
  { clear -Hnodup Hin. induction (entries cfg) as [|[k' m'] l IH]; simpl.
    - by apply elem_of_nil in Hin.
    - rewrite fmap_cons in Hnodup. apply NoDup_cons in Hnodup as [Hfresh Hnodup].
      apply elem_of_cons in Hin as [[= <- <-]|Hin].
      + by rewrite String.eqb_refl.
      + destruct (String.eqb_spec k' k) as [->|_]; [|by apply IH].
        exfalso. apply Hfresh. simpl. apply list_elem_of_fmap. by exists (k, m). }
  rewrite Hm in Htr. unfold _buildAction in Htr. simpl in Htr.
  destruct (action m) as [template|] eqn:Ha; simpl in Htr; [|done].
  injection Htr as <-.
  exists k, m, p, template. do 2 (split; [done|]).
  split; [by eapply lookup_key_matches; eauto|]. by repeat split.
Qed.

End MIDITranslatorBehaviour.

(** Worked runs of the results above, with an expression evaluator for
    which every expression fails. *)
Section MIDITranslatorRuns.
Import Config Actions MIDITranslator.

Lemma lookup_table_last_mapping_wins_witness :
  lookupTable (new Samples.mixer_config) !! "noteon:0:note:11" = Some "play_again"
  ∧ ∀ ev, (∀ k' m' p', (k', m') ∈ entries Samples.mixer_config → midi m' = Some p' →
             _createLookupKeyFromConfig p' ≠ _createLookupKey ev) →
          translate Samples.failing_Function (new Samples.mixer_config) ev = Returned None.
Proof.
  apply (lookup_table_last_mapping_wins Samples.failing_Function Samples.mixer_config
           [("play_a", Samples.play_mapping); ("volume_a", Samples.volume_mapping)] []
           "play_again" Samples.play_mapping
           {| p_type := Some "noteon"; p_channel := Some 0;
              p_note := Some 11; p_controller := None |}).
  - reflexivity.
  - reflexivity.
  - intros k' m' p' Hin. by apply elem_of_nil in Hin.
Defined.

Lemma translate_fires_only_matching_mapping_witness :
  ∃ act k m p template,
    translate Samples.failing_Function (new Samples.mixer_config) (Samples.noteon 0 11 127 5)
      = Returned (Some act)
    ∧ (k, m) ∈ entries Samples.mixer_config ∧ midi m = Some p
    ∧ matches p (Samples.noteon 0 11 127 5)
    ∧ action m = Some template
    ∧ target act = Config.target m ∧ priority act = Config.priority m
    ∧ type act = a_type template ∧ command act = a_command template.
Proof.
  assert (∃ act, translate Samples.failing_Function (new Samples.mixer_config)
                   (Samples.noteon 0 11 127 5) = Returned (Some act)) as [act Htr].
  { eexists. reflexivity. }
  exists act.
  destruct (translate_fires_only_matching_mapping Samples.failing_Function Samples.mixer_config
              (Samples.noteon 0 11 127 5) act) as (k & m & p & template & H).
  - apply (bool_decide_unpack _). vm_compute. reflexivity.
  - intros k m p Hin Hp.
    assert (m = Samples.play_mapping ∨ m = Samples.volume_mapping) as [->| ->].
    { cbn in Hin. rewrite !elem_of_cons in Hin.
      destruct Hin as [[= _ ->]|[[= _ ->]|[[= _ ->]|Hin]]]; auto.
      by apply elem_of_nil in Hin. }
    + injection Hp as <-. exists "noteon", 0. by repeat split.
    + injection Hp as <-. exists "cc", 0. by repeat split.
  - by repeat split.
  - exact Htr.
  - exists k, m, p, template. split; [exact Htr | exact H].
Defined.

End MIDITranslatorRuns.

(* ================================================================== *)
(** ** From a validated mapping file to the router *)
(* ================================================================== *)

Section ValidatedMappings.
Import Config Actions.
Variable Function : FunctionConstructor.

Lemma one_of_elem (allowed : list string) (x : option string) :
  one_of allowed x = true → ∃ s, x = Some s ∧ s ≠ EmptyString ∧ s ∈ allowed.
Proof.
  destruct x as [s|]; [|done]. simpl. intros [Hne Hin]%andb_true_iff.
  exists s. split; [done|]. split.
  - intros ->. done.
  - apply existsb_exists in Hin as (s' & Hin & ->%String.eqb_eq).
    by apply list_elem_of_In.
Qed.

Lemma validate_entries_spec (l : list (string * ControlMapping)) :
  validate_entries l = Returned tt →
  ∀ k m, (k, m) ∈ l → starts_with_underscore k = false →
  is_Some (action m)
  ∧ one_of ["audio"; "app"; "ui"] (Config.target m) = true
  ∧ one_of ["critical"; "high"; "normal"] (Config.priority m) = true.
Proof.
  induction l as [|[k' m'] l IH]; intros Hv k m Hin Hk.
  { by apply elem_of_nil in Hin. }
  simpl in Hv. apply elem_of_cons in Hin as [[= -> ->]|Hin].
  - rewrite Hk in Hv.
    destruct (action m'); [|done].
    destruct (one_of _ (Config.target m')); [|done].
    destruct (one_of _ (Config.priority m')); [|done].
    by repeat split.
  - assert (validate_entries l = Returned tt) as Hl.
    { destruct (starts_with_underscore k'); [done|].
      destruct (action m'); [|done].
      destruct (one_of _ (Config.target m')); [|done].
      by destruct (one_of _ (Config.priority m')). }
    by apply (IH Hl k m).
Qed.

Lemma lookup_entry_elem {A} (k : string) (l : list (string * A)) (v : A) :
  lookup_entry k l = Some v → (k, v) ∈ l.
Proof.
  induction l as [|[k' v'] l IH]; [done|]. simpl.
  destruct (String.eqb_spec k' k) as [->|_].
  - intros [= ->]. left.
  - intros H. right. by apply IH.
Qed.

Lemma route_counts (r : ActionRouter.t) (c : clock) (a : Action) (tgt prio : string) :
  target a = Some tgt → tgt ≠ EmptyString →
  priority a = Some prio → prio ≠ EmptyString →
  let '(_, r', _) := ActionRouter.route (Some a) r c in
  ActionRouter.totalActions (ActionRouter.stats r')
  = ActionRouter.totalActions (ActionRouter.stats r) + 1.
Proof.
  intros Ht Htne Hp Hpne.
  destruct (String.eqb_spec prio "critical") as [->|Hcrit].
  - unfold ActionRouter.route; js_run. rewrite Ht, Hp.
    apply String.eqb_neq in Htne. rewrite Htne. simpl.
    match goal with
    | |- context [ActionRouter._sendAction a ?r0 c] =>
        pose proof (sendAction_spec a r0 c) as Hs;
        destruct (ActionRouter._sendAction a r0 c) as [[ok r1] c1]
    end.
    destruct Hs as (_ & _ & _ & _ & -> & _). done.
  - rewrite (route_queueable r c a tgt prio) by done.
    destruct (_ >=? _); [done|]. by destruct (String.eqb prio "high").
Qed.

(** Target and priority of an action translated under a validated
    mapping file. *)
Lemma validated_translation_fields
    (cfg : Config.t) (ev : MIDIManager.MidiEvent) (act : Action) :
  validateDeviceMapping cfg = Returned tt →
  (∀ k m, (k, m) ∈ entries cfg → starts_with_underscore k = true → midi m = None) →
  MIDITranslator.translate Function (MIDITranslator.new cfg) ev = Returned (Some act) →
  ∃ tgt prio, target act = Some tgt ∧ tgt ≠ EmptyString ∧ tgt ∈ ["audio"; "app"; "ui"]
              ∧ priority act = Some prio ∧ prio ≠ EmptyString
              ∧ prio ∈ ["critical"; "high"; "normal"].
Proof.
  intros Hvalid Hmeta Htr.
  apply midi_translate_target_priority in Htr as (k & m & Hk & Hm & Ht & Hp).
  simpl in Hk, Hm. unfold MIDITranslator._buildLookupTable in Hk.
  apply table_step_sound in Hk as [Hk|(m' & p' & Hin' & Hp' & _)];
    [by rewrite lookup_empty in Hk|].
  assert (starts_with_underscore k = false) as Hplain.
  { destruct (starts_with_underscore k) eqn:E; [|done].
    rewrite (Hmeta k m' Hin' E) in Hp'. done. }
  assert (validate_entries (entries cfg) = Returned tt) as Hentries.
  { unfold validateDeviceMapping in Hvalid. unfold entries.
    destruct (device cfg) as [dev|]; [|done].
    destruct (negb (truthy_string (name dev))); [done|].
    destruct (negb (one_of _ (protocol dev))); [done|].
    by destruct (mappings cfg). }
  apply lookup_entry_elem in Hm.
  destruct (validate_entries_spec _ Hentries k m Hm Hplain) as (_ & Htgt & Hprio).
  apply one_of_elem in Htgt as (tgt & Htgt & Htne & Htin).
  apply one_of_elem in Hprio as (prio & Hprio & Hpne & Hpin).
  exists tgt, prio. repeat split; (congruence || done).
Qed.

(** X18 (validated mappings give routable actions).  Take a mapping file
    that [validateDeviceMapping] accepts and in which no meta entry (a key
    starting with an underscore, which the validator skips) carries a MIDI
    pattern.  Then every action the MIDI translator produces has a target
    among audio, app and ui and a priority among critical, high and
    normal, and the router never rejects it as invalid: [route] counts it
    in [totalActions]. *)
Theorem validated_translation_is_routable
    (cfg : Config.t) (ev : MIDIManager.MidiEvent) (act : Action)
    (r : ActionRouter.t) (c : clock) :
  validateDeviceMapping cfg = Returned tt →
  (∀ k m, (k, m) ∈ entries cfg → starts_with_underscore k = true → midi m = None) →
  MIDITranslator.translate Function (MIDITranslator.new cfg) ev = Returned (Some act) →
  (∃ tgt, target act = Some tgt ∧ tgt ∈ ["audio"; "app"; "ui"])
  ∧ (∃ prio, priority act = Some prio ∧ prio ∈ ["critical"; "high"; "normal"])
  ∧ let '(_, r', _) := ActionRouter.route (Some act) r c in
    ActionRouter.totalActions (ActionRouter.stats r')
    = ActionRouter.totalActions (ActionRouter.stats r) + 1.
Proof.
  intros Hvalid Hmeta Htr.
  destruct (validated_translation_fields cfg ev act Hvalid Hmeta Htr)
    as (tgt & prio & Ht & Htne & Htin & Hp & Hpne & Hpin).
  split; [by exists tgt|]. split; [by exists prio|].
  by apply (route_counts r c act tgt prio).
Qed.

Lemma ready_same_client (r r' : ActionRouter.t) :
  ActionRouter.audioClient r' = ActionRouter.audioClient r →
  ActionRouter.ready r → ActionRouter.ready r'.
Proof. intros Heq (cl & Hcl & Hr). exists cl. split; [congruence|done]. Qed.

(** X26 (from the event to the wire).  Take a validated mapping file
    (without patterns on meta entries) and an idle router with empty
    queues, room for at least one action and a connected client.  Then an
    input event that the translator maps is on the socket after the input
    handler and one turn of the dispatch loop, whatever its priority:
    exactly one message is written, it carries the translated action, and
    both queues are empty again.  An event without mapping leaves the
    router untouched. *)
Theorem midi_input_reaches_the_wire
    (cfg : Config.t) (ev : MIDIManager.MidiEvent)
    (r : ActionRouter.t) (c : clock) :
  validateDeviceMapping cfg = Returned tt →
  (∀ k m, (k, m) ∈ entries cfg → starts_with_underscore k = true → midi m = None) →
  ActionRouter.isProcessing r = false →
  ActionRouter.highQueue r = [] → ActionRouter.normalQueue r = [] →
  0 < ActionRouter.maxQueueSize r →
  ActionRouter.ready r →
  let '(_, r1, c1) :=
    Server._handleMIDIInput Function (MIDITranslator.new cfg) ev r c in
  let '(_, r2, _) := ActionRouter._processQueues r1 c1 in
  match MIDITranslator.translate Function (MIDITranslator.new cfg) ev with
  | Returned (Some act) =>
      (∃ msg, ActionRouter.carries msg act
              ∧ ActionRouter.wire r2 = ActionRouter.wire r ++ [msg])
      ∧ ActionRouter.highQueue r2 = [] ∧ ActionRouter.normalQueue r2 = []
  | _ => r1 = r ∧ ActionRouter.wire r2 = ActionRouter.wire r
  end.
Proof.
  intros Hvalid Hmeta Hidle Hh Hn Hroom Hready.
  unfold Server._handleMIDIInput.
  destruct (midi_translate_returns Function (MIDITranslator.new cfg) ev) as [res Hres].
  rewrite Hres. destruct res as [act|].
  2:{ unfold JS.ret.
      pose proof (processQueues_step r c Hidle) as Hstep.
      destruct (ActionRouter._processQueues r c) as [[[] r2] c2].
      destruct Hstep as (_ & _ & _ & Hw). split; [done|].
      destruct (Hw Hready) as (_ & msgs & -> & Hc).
      rewrite Hh, Hn in Hc. simpl in Hc. apply Forall2_nil_inv_r in Hc as ->.
      by rewrite app_nil_r. }
  destruct (validated_translation_fields cfg ev act Hvalid Hmeta Hres)
    as (tgt & prio & Ht & Htne & _ & Hp & Hpne & _).
  unfold JS.bind, JS.ret.
  destruct (String.eqb_spec prio "critical") as [->|Hcrit].
  - assert (∃ r1 c1 ok msg,
              ActionRouter.route (Some act) r c = (ok, r1, c1)
              ∧ ActionRouter.carries msg act
              ∧ ActionRouter.wire r1 = ActionRouter.wire r ++ [msg]
              ∧ ActionRouter.highQueue r1 = [] ∧ ActionRouter.normalQueue r1 = []
              ∧ ActionRouter.isProcessing r1 = false ∧ ActionRouter.ready r1)
      as (r1 & c1 & ok & msg & -> & Hmsg & Hwire & Hh1 & Hn1 & Hidle1 & Hready1).
    { unfold ActionRouter.route; js_run. rewrite Ht, Hp.
      apply String.eqb_neq in Htne. rewrite Htne. simpl.
      match goal with
      | |- context [ActionRouter._sendAction act ?r0 c] =>
          pose proof (sendAction_spec act r0 c) as Hs;
          destruct (ActionRouter._sendAction act r0 c) as [[ok r1] c1]
      end.
      destruct Hs as (Hq1 & Hq2 & Hp1 & _ & _ & Hw).
      destruct Hw as (Hr1 & msg & Hmsg & Hwire).
      { by apply (ready_same_client r). }
      exists r1, c1, ok, msg. simpl in *. repeat split; (done || congruence). }
    pose proof (processQueues_step r1 c1 Hidle1) as Hstep.
    destruct (ActionRouter._processQueues r1 c1) as [[[] r2] c2].
    destruct Hstep as (_ & Hh2 & Hn2 & Hw).
    destruct (Hw Hready1) as (_ & msgs & Hwire2 & Hc).
    rewrite Hh1 in Hc, Hh2, Hn2. rewrite Hn1 in Hc, Hn2. simpl in Hc, Hh2, Hn2.
    apply Forall2_nil_inv_r in Hc as ->. rewrite app_nil_r in Hwire2.
    split; [exists msg; split; [done|congruence]|]. by split.
  - rewrite (route_queueable r c act tgt prio) by done.
    rewrite queue_for_high. rewrite Hh, Hn.
    assert ((Z.of_nat (length (if String.eqb prio "high" then @nil Action else []))
             >=? ActionRouter.maxQueueSize r) = false) as ->.
    { destruct (String.eqb prio "high"); rewrite Z.geb_leb; apply Z.leb_gt;
        simpl; lia. }
    match goal with
    | |- context [if String.eqb prio "high" then (true, ?ra, c) else (true, ?rb, c)] =>
        set (r1 := if String.eqb prio "high" then ra else rb);
        replace (if String.eqb prio "high" then (true, ra, c) else (true, rb, c))
          with (true, r1, c) by (subst r1; by destruct (String.eqb prio "high"))
    end.
    assert (ActionRouter.isProcessing r1 = false) as Hidle1.
    { subst r1. by destruct (String.eqb prio "high"). }
    assert (ActionRouter.ready r1 ∧ ActionRouter.wire r1 = ActionRouter.wire r) as [Hready1 Hwire1].
    { subst r1. destruct (String.eqb prio "high");
        (split; [by apply (ready_same_client r)|done]). }
    assert (ActionRouter.highQueue r1 ++ ActionRouter.normalQueue r1 = [act]
            ∧ (length (ActionRouter.highQueue r1) ≤ 1)%nat
            ∧ (length (ActionRouter.normalQueue r1) ≤ 1)%nat) as (Hq1 & Hlh & Hln).
    { subst r1. destruct (String.eqb prio "high"); simpl; rewrite ?Hh, ?Hn; simpl;
        repeat split; lia || done. }
    pose proof (processQueues_step r1 c Hidle1) as Hstep.
    destruct (ActionRouter._processQueues r1 c) as [[[] r2] c2].
    destruct Hstep as (_ & Hh2 & Hn2 & Hw).
    destruct (Hw Hready1) as (_ & msgs & Hwire2 & Hc).
    rewrite Hq1 in Hc. simpl in Hc.
    apply Forall2_cons_inv_r in Hc as (msg & rest & Hmsg & Hrest & ->).
    apply Forall2_nil_inv_r in Hrest as ->.
    split; [exists msg; split; [done|congruence]|].
    rewrite Hh2, Hn2.
    destruct (ActionRouter.highQueue r1) as [|a1 [|? ?]],
             (ActionRouter.normalQueue r1) as [|a2 [|? ?]];
      simpl in *; try done; try lia.
Qed.

End ValidatedMappings.

(** Worked runs of the results above, with an expression evaluator for
    which every expression fails. *)
Section ValidatedMappingsRuns.
Import Config Actions.

Lemma validated_translation_is_routable_witness :
  ∃ act,
    MIDITranslator.translate Samples.failing_Function (MIDITranslator.new Samples.mixer_config)
      (Samples.noteon 0 11 127 5) = Returned (Some act)
    ∧ (∃ tgt, target act = Some tgt ∧ tgt ∈ ["audio"; "app"; "ui"])
    ∧ (∃ prio, priority act = Some prio ∧ prio ∈ ["critical"; "high"; "normal"])
    ∧ let '(_, r', _) := ActionRouter.route (Some act) Samples.full_router (clock_of [5]) in
      ActionRouter.totalActions (ActionRouter.stats r')
      = ActionRouter.totalActions (ActionRouter.stats Samples.full_router) + 1.
Proof.
  assert (∃ act, MIDITranslator.translate Samples.failing_Function (MIDITranslator.new Samples.mixer_config)
                   (Samples.noteon 0 11 127 5) = Returned (Some act)) as [act Htr].
  { eexists. reflexivity. }
  exists act. split; [exact Htr|].
  apply (validated_translation_is_routable Samples.failing_Function Samples.mixer_config
           (Samples.noteon 0 11 127 5) act Samples.full_router (clock_of [5])).
  - reflexivity.
  - intros k m Hin Hk. cbn in Hin. rewrite !elem_of_cons in Hin.
    destruct Hin as [[= -> _]|[[= -> _]|[[= -> _]|Hin]]]; try discriminate Hk.
    by apply elem_of_nil in Hin.
  - exact Htr.
Defined.

Lemma midi_input_reaches_the_wire_witness :
  let r := ActionRouter.new (Some Samples.connected_client) in
  let tr := MIDITranslator.new Samples.mixer_config in
  let ev := Samples.noteon 0 11 127 5 in
  let '(_, r1, c1) :=
    Server._handleMIDIInput Samples.failing_Function tr ev r (clock_of [5]) in
  let '(_, r2, _) := ActionRouter._processQueues r1 c1 in
  match MIDITranslator.translate Samples.failing_Function tr ev with
  | Returned (Some act) =>
      (∃ msg, ActionRouter.carries msg act
              ∧ ActionRouter.wire r2 = ActionRouter.wire r ++ [msg])
      ∧ ActionRouter.highQueue r2 = [] ∧ ActionRouter.normalQueue r2 = []
  | _ => r1 = r ∧ ActionRouter.wire r2 = ActionRouter.wire r
  end.
Proof.
  apply (midi_input_reaches_the_wire Samples.failing_Function Samples.mixer_config
           (Samples.noteon 0 11 127 5)
           (ActionRouter.new (Some Samples.connected_client)) (clock_of [5])).
  - reflexivity.
  - intros k m Hin Hk. cbn in Hin. rewrite !elem_of_cons in Hin.
    destruct Hin as [[= -> _]|[[= -> _]|[[= -> _]|Hin]]]; try discriminate Hk.
    by apply elem_of_nil in Hin.
  - reflexivity.
  - reflexivity.
  - reflexivity.
  - reflexivity.
  - exists Samples.connected_client. split; [reflexivity|].
    split; [reflexivity|]. eexists. split; reflexivity.
Defined.

End ValidatedMappingsRuns.

(* ================================================================== *)
(** ** From the CC handler to the translated fader value *)
(* ================================================================== *)

Section FaderPipeline.
Import Config Actions MIDIManager.
Variable Function : FunctionConstructor.

(** The two events the CC handler emits for an MSB and the LSB that
    completes it in time. *)
Lemma on_cc_pair (m : MIDIManager.t) (c c2 : clock) (d : string) (ch C msb lsb : Z) :
  0 ≤ C < 32 →
  reading c (S (S (reads c))) - reading c (S (reads c)) ≤ highResCCTimeout m →
  reading c2 (S (reads c2)) - reading c (S (reads c)) < highResCCTimeout m →
  let e1 := (_normalizeMIDIMessage d "cc" (raw_cc ch C msb) m c).1.1 in
  let e2 := (_normalizeMIDIMessage d "cc" (raw_cc ch (C + 32) lsb) m c2).1.1 in
  ∃ m1 c1 m2 c3,
    on_cc d (raw_cc ch C msb) m c = (e1, m1, c1)
    ∧ on_cc d (raw_cc ch (C + 32) lsb) m1 c2
      = (combined_event e2 C (C + 32) (Some (ofZ msb)) (Some (ofZ lsb)), m2, c3).
Proof.
  intros HC Hsweep Hwin e1 e2. subst e1 e2.
  unfold on_cc, JS.bind at 1 2. rewrite !normalize_cc.
  match goal with
  | |- context [_handle14BitCC d ?e m ?c1] =>
      rewrite (handle14BitCC_msb m c1 d e ch C) by (repeat split; (done || lia))
  end.
  cbn [JS.ret reading reads value raw_value raw_cc fst snd].
  set (p := {| p_value := Some (ofZ msb); p_timestamp := reading c (S (reads c));
               p_channel := ch |}).
  set (m1 := set_deviceState m d _).
  eexists m1, _. 
  unfold JS.bind at 1 2. rewrite normalize_cc.
  assert (deviceState m1 d !! key_of ch (C + 32 - 32) = Some p) as Hp.
  { subst m1. rewrite deviceState_set. apply sweep_lookup_Some.
    replace (C + 32 - 32) with C by lia.
    rewrite lookup_insert_eq. split; [done | simpl; lia]. }
  match goal with
  | |- context [_handle14BitCC d ?e m1 ?c1] =>
      rewrite (handle14BitCC_lsb_fresh m1 c1 d e ch (C + 32) p)
        by ((repeat split; done) || lia || (subst m1; simpl; lia) || done)
  end.
  cbn [JS.ret]. replace (C + 32 - 32) with C by lia.
  eexists _, _. split; reflexivity.
Qed.

Lemma seven_bit_number (z : Z) : div (ofZ z) (ofZ 127) = Num (z # 127).
Proof.
  unfold div, ofZ, inject_Z, Qdiv, Qmult, Qinv; simpl.
  rewrite Z.mul_1_r. reflexivity.
Qed.

(** X19 (fader values).  A CC mapping without a static value and without a
    value expression turns what the CC handler emits into a normalised
    value: the MSB, emitted as a plain 7-bit event, gives [msb / 127]; the
    combined event that the LSB completes gives
    [(msb * 128 + lsb) / 16383].  Both lie between 0 and 1 for data bytes
    in 0..127. *)
Theorem fader_value_is_normalised
    (cfg : Config.t) (k : string) (mp : ControlMapping) (template : ActionTemplate)
    (m : MIDIManager.t) (c c2 : clock) (d : string) (ch C msb lsb : Z) :
  MIDITranslator.lookupTable (MIDITranslator.new cfg)
    !! MIDITranslator._createLookupKeyFromConfig
         {| Config.p_type := Some "cc"; Config.p_channel := Some ch;
            Config.p_note := None; Config.p_controller := Some C |} = Some k →
  k ≠ EmptyString →
  lookup_entry k (entries cfg) = Some mp →
  action mp = Some template →
  a_value template = VUndefined →
  truthy_string (a_valueExpression template) = false →
  0 ≤ C < 32 → 0 ≤ msb ≤ 127 → 0 ≤ lsb ≤ 127 →
  reading c (S (S (reads c))) - reading c (S (reads c)) ≤ highResCCTimeout m →
  reading c2 (S (reads c2)) - reading c (S (reads c)) < highResCCTimeout m →
  let '(first, m1, _) := on_cc d (raw_cc ch C msb) m c in
  let '(second, _, _) := on_cc d (raw_cc ch (C + 32) lsb) m1 c2 in
  ∃ a1 a2,
    MIDITranslator.translate Function (MIDITranslator.new cfg) first = Returned (Some a1)
    ∧ Actions.value a1 = VNumber (Num (msb # 127))
    ∧ MIDITranslator.translate Function (MIDITranslator.new cfg) second
      = Returned (Some a2)
    ∧ Actions.value a2 = VNumber (Num ((msb * 128 + lsb) # 16383))
    ∧ (0 <= msb # 127 <= 1)%Q
    ∧ (0 <= (msb * 128 + lsb) # 16383 <= 1)%Q.
Proof.
  intros Hk Hkne Hmp Ha Hv Hexpr HC Hmsb Hlsb Hsweep Hwin.
  destruct (on_cc_pair m c c2 d ch C msb lsb HC Hsweep Hwin)
    as (m1 & c1 & m2 & c3 & -> & ->).
  rewrite !normalize_cc. cbn [fst snd].
  apply String.eqb_neq in Hkne.
  unfold MIDITranslator.translate.
  unfold MIDITranslator._createLookupKey, MIDITranslator._createLookupKeyFromConfig in *.
  cbn [combined_event type channel note controller raw_channel raw_controller raw_cc
       Config.p_type Config.p_channel Config.p_note Config.p_controller] in *.
  rewrite Hk, Hkne. cbn [MIDITranslator.mapping MIDITranslator.new]. rewrite Hmp.
  unfold MIDITranslator._buildAction. simpl mbind. rewrite Ha. simpl fmap.
  cbv beta iota. rewrite Hv, Hexpr.
  cbn [combined_event highRes normalized velocity value type raw_value raw_cc
       andb or_else truthy].
  eexists _, _. split; [reflexivity|]. split.
  { cbn [Actions.value]. rewrite String.eqb_refl, andb_false_r.
    cbn [toNumber]. by rewrite seven_bit_number. }
  split; [reflexivity|]. split.
  { cbn [Actions.value]. rewrite andb_false_r.
    rewrite bool_decide_eq_true_2 by (by eexists).
    cbn [ofOption toNumber]. by rewrite combined_number, normalized_number. }
  unfold Qle; simpl. lia.
Qed.

End FaderPipeline.

(** Worked runs of the results above, with an expression evaluator for
    which every expression fails. *)
Section FaderPipelineRuns.
Import Config Actions MIDIManager.

Lemma fader_value_is_normalised_witness :
  let cfg := Samples.mixer_config in
  let '(first, m1, _) :=
    on_cc "midi-x" (raw_cc 0 7 100) MIDIManager.new (clock_of [1000; 1000; 1000]) in
  let '(second, _, _) := on_cc "midi-x" (raw_cc 0 (7 + 32) 5) m1 (clock_of [1002; 1002]) in
  ∃ a1 a2,
    MIDITranslator.translate Samples.failing_Function (MIDITranslator.new cfg) first = Returned (Some a1)
    ∧ Actions.value a1 = VNumber (Num (100 # 127))
    ∧ MIDITranslator.translate Samples.failing_Function (MIDITranslator.new cfg) second
      = Returned (Some a2)
    ∧ Actions.value a2 = VNumber (Num ((100 * 128 + 5) # 16383))
    ∧ (0 <= 100 # 127 <= 1)%Q
    ∧ (0 <= (100 * 128 + 5) # 16383 <= 1)%Q.
Proof.
  apply (fader_value_is_normalised Samples.failing_Function Samples.mixer_config "volume_a"
           Samples.volume_mapping (Samples.template "mixer" "volume" (Some "A"))
           MIDIManager.new (clock_of [1000; 1000; 1000]) (clock_of [1002; 1002])
           "midi-x" 0 7 100 5);
    try reflexivity; try discriminate; simpl; lia.
Defined.

End FaderPipelineRuns.

(* ================================================================== *)
(** ** Further properties of the feedback manager *)
(* ================================================================== *)

Section FeedbackManagerBehaviour.
Import FeedbackManager.

Lemma playback_feedback_state (devices : list string) (deck : string)
    (pb : PlaybackUpdate) :
  ∀ (fm : FeedbackManager.t) (c : clock),
  state (_updatePlaybackFeedback devices deck pb fm c).1.2 = state fm.
Proof.
  induction devices as [|d devices IH]; intros fm c; [done|].
  simpl. unfold JS.bind, JS.ret.
  destruct (up_playing pb) as [b|], (up_cued pb) as [q|];
    repeat match goal with
           | |- context [_updateLED ?d0 ?ctl ?st ?fm0 ?c0] =>
               let H := fresh "H" in
               pose proof (updateLED_spec d0 ctl st fm0 c0) as H;
               destruct (_updateLED d0 ctl st fm0 c0) as [[[] ?] ?];
               destruct H as (H & _)
           end;
    rewrite IH; congruence.
Qed.

Lemma sync_feedback_state (devices : list string) (deck : string) (su : SyncUpdate) :
  ∀ (fm : FeedbackManager.t) (c : clock),
  state (_updateSyncFeedback devices deck su fm c).1.2 = state fm.
Proof.
  induction devices as [|d devices IH]; intros fm c; [done|].
  simpl. unfold JS.bind.
  pose proof (updateLED_spec d ("sync_" +:+ deck) (message_sync_state su) fm c) as H.
  destruct (_updateLED d _ _ fm c) as [[[] fm1] c1].
  destruct H as (H & _). rewrite IH. done.
Qed.

Lemma vu_feedback_keeps (deck : string) (vu : VuMeter)
    (fm : FeedbackManager.t) (c : clock) :
  let fm' := (_updateVUMeterFeedback deck vu fm c).1.2 in
  state fm' = state fm ∧ ledUpdates fm' = ledUpdates fm
  ∧ ∀ k, k ≠ "vu_" +:+ deck → lastUpdate fm' !! k = lastUpdate fm !! k.
Proof.
  unfold _updateVUMeterFeedback, _shouldUpdate; js_run.
  destruct (lastUpdate fm !! ("vu_" +:+ deck)) as [last|]; simpl.
  - destruct (last =? 0); simpl.
    + repeat split. intros k Hk. by rewrite lookup_insert_ne.
    + destruct (updateThrottles fm !! "vuMeter") as [i|]; simpl; [|done].
      destruct (i <=? _); simpl; [|done].
      repeat split. intros k Hk. by rewrite lookup_insert_ne.
  - repeat split. intros k Hk. by rewrite lookup_insert_ne.
Qed.

(** What a message for a known deck does to the cache. *)
Lemma onAudioState_known_deck
    (devices : list string) (msg : AudioState) (d : Deck)
    (fm : FeedbackManager.t) (c : clock) :
  let deck := resolve_deck (au_deck msg) in
  getDeckState fm deck = Some d →
  let '(emitted, fm', c') := _onAudioState devices msg fm c in
  emitted = Some (deck, msg)
  ∧ getDeckState fm' deck = Some (apply_message msg d)
  ∧ (∀ other, toUpperCase other ≠ toUpperCase deck →
       getDeckState fm' other = getDeckState fm other)
  ∧ library (state fm') = library (state fm).
Proof.
  intros deck. unfold _onAudioState, getDeckState.
  fold deck. set (key := "deck" +:+ toUpperCase deck).
  unfold JS.bind at 1, JS.get at 1. intros Hd. rewrite Hd.
  cbv beta iota. unfold JS.bind at 1.
  assert (∃ fm1 c1,
            (match au_playback msg with
             | Some playback =>
                 (let* fm := JS.get in
                  JS.put (update_deck fm key
                            (λ d, with_playback
                                    (merge_playback (FeedbackManager.playback d) playback) d));;
                  _updatePlaybackFeedback devices deck playback)%js
             | None => JS.ret tt
             end fm c) = (tt, fm1, c1)
            ∧ state fm1 = state (update_deck fm key
                 (λ d, with_playback
                         (from_option (merge_playback (FeedbackManager.playback d))
                            (FeedbackManager.playback d) (au_playback msg)) d)))
    as (fm1 & c1 & -> & S1).
  { destruct (au_playback msg) as [pb|]; simpl.
    - js_run.
      pose proof (playback_feedback_state devices deck pb
                    (update_deck fm key
                       (λ d, with_playback (merge_playback (FeedbackManager.playback d) pb) d))
                    c) as H.
      destruct (_updatePlaybackFeedback _ _ _ _ c) as [[[] fm1] c1].
      by exists fm1, c1.
    - exists fm, c. split; [done|].
      unfold update_deck, with_playback. simpl. destruct fm as [[[] [] ?] ? ? ?]; simpl.
      by repeat case_match. }
  cbv beta iota. unfold JS.bind at 1.
  set (fm2 := match au_position msg with
              | Some position =>
                  update_deck fm1 key
                    (λ d, with_position
                            (merge_position (FeedbackManager.position d) position) d)
              | None => fm1
              end).
  assert ((match au_position msg with
           | Some position =>
               (let* fm := JS.get in
                JS.put (update_deck fm key
                          (λ d, with_position
                                  (merge_position (FeedbackManager.position d) position) d)))%js
           | None => JS.ret tt
           end fm1 c1) = (tt, fm2, c1)) as ->.
  { subst fm2. by destruct (au_position msg). }
  cbv beta iota. unfold JS.bind at 1.
  assert (∃ fm3 c3,
            (match au_vuMeter msg with
             | Some vu =>
                 (let* fm := JS.get in
                  JS.put (update_deck fm key (with_vuMeter vu));;
                  _updateVUMeterFeedback deck vu)%js
             | None => JS.ret tt
             end fm2 c1) = (tt, fm3, c3)
            ∧ state fm3 = state (match au_vuMeter msg with
                                 | Some vu => update_deck fm2 key (with_vuMeter vu)
                                 | None => fm2
                                 end))
    as (fm3 & c3 & -> & S3).
  { destruct (au_vuMeter msg) as [vu|]; simpl.
    - js_run.
      pose proof (vu_feedback_keeps deck vu (update_deck fm2 key (with_vuMeter vu)) c1) as H.
      destruct (_updateVUMeterFeedback _ _ _ c1) as [[[] fm3] c3].
      exists fm3, c3. by destruct H.
    - by exists fm2, c1. }
  cbv beta iota. unfold JS.bind at 1.
  assert (∃ fm4 c4,
            (match au_sync msg with
             | Some sync =>
                 (let* fm := JS.get in
                  JS.put (update_deck fm key
                            (λ d, with_sync (merge_sync (FeedbackManager.sync d) sync) d));;
                  _updateSyncFeedback devices deck sync)%js
             | None => JS.ret tt
             end fm3 c3) = (tt, fm4, c4)
            ∧ state fm4 = state (match au_sync msg with
                                 | Some sync =>
                                     update_deck fm3 key
                                       (λ d, with_sync
                                               (merge_sync (FeedbackManager.sync d) sync) d)
                                 | None => fm3
                                 end))
    as (fm4 & c4 & -> & S4).
  { destruct (au_sync msg) as [su|]; simpl.
    - js_run.
      pose proof (sync_feedback_state devices deck su
                    (update_deck fm3 key
                       (λ d, with_sync (merge_sync (FeedbackManager.sync d) su) d)) c3) as H.
      destruct (_updateSyncFeedback _ _ _ _ c3) as [[[] fm4] c4].
      by exists fm4, c4.
    - by exists fm3, c3. }
  cbv beta iota. unfold JS.bind at 1.
  set (fm5 := match au_tempo msg with
              | Some tempo =>
                  update_deck fm4 key
                    (λ d, with_tempo (merge_tempo (FeedbackManager.tempo d) tempo) d)
              | None => fm4
              end).
  assert ((match au_tempo msg with
           | Some tempo =>
               (let* fm := JS.get in
                JS.put (update_deck fm key
                          (λ d, with_tempo
                                  (merge_tempo (FeedbackManager.tempo d) tempo) d)))%js
           | None => JS.ret tt
           end fm4 c4) = (tt, fm5, c4)) as ->.
  { subst fm5. by destruct (au_tempo msg). }
  cbv beta iota. unfold JS.ret. split; [done|].
  assert (state fm5
          = {| deckA := if String.eqb key "deckA"
                        then apply_message msg (deckA (state fm))
                        else deckA (state fm);
               deckB := if String.eqb key "deckA" then deckB (state fm)
                        else if String.eqb key "deckB"
                             then apply_message msg (deckB (state fm))
                             else deckB (state fm);
               library := library (state fm) |}) as S5.
  { subst fm5 fm2. clearbody key. clear Hd. unfold apply_message.
    destruct (au_tempo msg), (au_sync msg), (au_vuMeter msg), (au_position msg);
      unfold update_deck in *; simpl in *;
      rewrite ?S4; simpl; rewrite ?S3; simpl; rewrite ?S1; simpl;
      destruct (String.eqb key "deckA"), (String.eqb key "deckB"); simpl;
      try reflexivity;
      destruct (state fm) as [[] [] ?]; reflexivity. }
  rewrite S5. unfold deck_of in *. cbn [deckA deckB library].
  split; [|split; [|done]].
  - destruct (String.eqb key "deckA"); [by injection Hd as <-|].
    destruct (String.eqb key "deckB"); [by injection Hd as <-|done].
  - intros other Hother.
    assert ("deck" +:+ toUpperCase other ≠ key) as Hne.
    { subst key. intros Heq. by apply (inj (String.app "deck")) in Heq. }
    destruct (String.eqb_spec ("deck" +:+ toUpperCase other) "deckA") as [EA|EA].
    + destruct (String.eqb_spec key "deckA") as [EK|EK]; [congruence|done].
    + destruct (String.eqb_spec ("deck" +:+ toUpperCase other) "deckB") as [EB|EB]; [|done].
      destruct (String.eqb_spec key "deckA") as [EK|EK]; [done|].
      destruct (String.eqb_spec key "deckB") as [EK'|EK']; [congruence|done].
Qed.



(** The LED updates of a message that carries a sync section but neither
    playback nor VU meter, for one connected device whose sync LED was not
    updated before. *)
Lemma sync_only_leds (dev : string) (msg : AudioState) (su : SyncUpdate)
    (fm : FeedbackManager.t) (c : clock) :
  let deck := resolve_deck (au_deck msg) in
  au_sync msg = Some su → au_playback msg = None → au_vuMeter msg = None →
  lastUpdate fm !! led_key dev ("sync_" +:+ deck) = None →
  is_Some (getDeckState fm deck) →
  ledUpdates (_onAudioState [dev] msg fm c).1.2
  = ledUpdates fm ++ [ {| u_deviceId := dev; u_controlId := "sync_" +:+ deck;
                          u_state := message_sync_state su |} ].
Proof.
  intros deck Hsu Hpb Hvu Hfresh [d Hd].
  unfold _onAudioState, getDeckState in *. fold deck in Hd |- *.
  set (key := "deck" +:+ toUpperCase deck) in *.
  unfold JS.bind at 1, JS.get at 1. rewrite Hd, Hsu, Hpb, Hvu.
  cbv beta iota. unfold JS.bind at 1, JS.ret at 1. cbv beta iota.
  set (fm2 := match au_position msg with
              | Some position =>
                  update_deck fm key
                    (λ d, with_position
                            (merge_position (FeedbackManager.position d) position) d)
              | None => fm
              end).
  unfold JS.bind at 1.
  assert ((match au_position msg with
           | Some position =>
               (let* fm := JS.get in
                JS.put (update_deck fm key
                          (λ d, with_position
                                  (merge_position (FeedbackManager.position d) position) d)))%js
           | None => JS.ret tt
           end fm c) = (tt, fm2, c)) as ->.
  { subst fm2. by destruct (au_position msg). }
  cbv beta iota. unfold JS.bind at 1, JS.ret at 1. cbv beta iota.
  unfold JS.bind at 1. unfold JS.bind at 1. unfold JS.get at 1. cbv beta iota.
  unfold JS.bind at 1, JS.put at 1. cbv beta iota.
  set (fm3 := update_deck fm2 key _).
  cbn [_updateSyncFeedback]. unfold JS.bind at 1.
  pose proof (updateLED_spec dev ("sync_" +:+ deck) (message_sync_state su) fm3 c) as Hled.
  destruct (_updateLED dev ("sync_" +:+ deck) (message_sync_state su) fm3 c)
    as [[[] fm4] c4].
  destruct Hled as (_ & _ & _ & _ & Hleds & _).
  unfold JS.ret at 1. cbv beta iota. unfold JS.bind at 1.
  assert (passes_gate fm3 (led_key dev ("sync_" +:+ deck))
            (updateThrottles fm3 !! "led") (reading c (reads c)) = true) as Hgate.
  { unfold passes_gate.
    assert (lastUpdate fm3 = lastUpdate fm) as ->; [|by rewrite Hfresh].
    subst fm3 fm2. by destruct (au_position msg). }
  rewrite Hgate in Hleds.
  assert (ledUpdates fm3 = ledUpdates fm) as Hsame.
  { subst fm3 fm2. by destruct (au_position msg). }
  destruct (au_tempo msg); js_run; simpl; by rewrite Hleds, Hsame.
Qed.

(** X21 (sync LED).  The sync LED that a state message lights is computed
    from the fields of the message alone, an absent field counting as
    false, while the cache merges the message into the cached section.  So
    after a partial message the LED and the cache can disagree: a message
    that only says [locked: true] for a deck whose cached sync is enabled
    sets the LED to disabled, although the cached state (what [syncDevice]
    would show) is locked. *)
Theorem onAudioState_sync_led_from_message
    (dev : string) (msg : AudioState) (su : SyncUpdate) (d : Deck)
    (fm : FeedbackManager.t) (c : clock) :
  let deck := resolve_deck (au_deck msg) in
  getDeckState fm deck = Some d →
  au_sync msg = Some su → au_playback msg = None → au_vuMeter msg = None →
  lastUpdate fm !! led_key dev ("sync_" +:+ deck) = None →
  let '(_, fm', _) := _onAudioState [dev] msg fm c in
  ledUpdates fm' = ledUpdates fm ++ [ {| u_deviceId := dev;
                                         u_controlId := "sync_" +:+ deck;
                                         u_state := message_sync_state su |} ]
  ∧ (sync <$> getDeckState fm' deck) = Some (merge_sync (sync d) su)
  ∧ (up_enabled su = None → up_locked su = Some true → enabled (sync d) = true →
     message_sync_state su = "disabled"
     ∧ (sync_state <$> getDeckState fm' deck) = Some "locked").
Proof.
  intros deck Hd Hsu Hpb Hvu Hfresh.
  pose proof (onAudioState_known_deck [dev] msg d fm c Hd) as Hcache.
  pose proof (sync_only_leds dev msg su fm c Hsu Hpb Hvu Hfresh
                ltac:(by eexists)) as Hleds.
  fold deck in Hcache, Hleds.
  destruct (_onAudioState [dev] msg fm c) as [[emitted fm'] c'].
  destruct Hcache as (_ & Hdeck & _). simpl in Hleds.
  split; [done|]. rewrite Hdeck. simpl.
  unfold apply_message at 1. rewrite Hsu. simpl.
  split; [done|].
  intros He Hl Hen. split.
  - unfold message_sync_state. by rewrite He.
  - unfold sync_state, merge_sync. simpl. by rewrite He, Hl, Hen.
Qed.

Lemma onAudioState_sync_led_from_message_witness :
  let msg := {| au_deck := Some "A"; au_playback := None; au_position := None;
                au_vuMeter := None;
                au_sync := Some {| up_enabled := None; up_locked := Some true |};
                au_tempo := None |} in
  let fm := update_deck FeedbackManager.new "deckA"
              (with_sync {| enabled := true; locked := false |}) in
  let '(_, fm', _) := _onAudioState ["midi-x"] msg fm (clock_of [1000]) in
  (u_state <$> last (ledUpdates fm')) = Some "disabled"
  ∧ (sync_state <$> getDeckState fm' "a") = Some "locked".
Proof.
  intros msg fm.
  pose proof (onAudioState_sync_led_from_message "midi-x" msg
                {| up_enabled := None; up_locked := Some true |}
                (with_sync {| enabled := true; locked := false |} default_deck)
                fm (clock_of [1000])
                eq_refl eq_refl eq_refl eq_refl eq_refl) as H.
  destruct (_onAudioState ["midi-x"] msg fm (clock_of [1000])) as [[r fm'] c'].
  destruct H as (Hleds & _ & Hdiv).
  destruct (Hdiv eq_refl eq_refl eq_refl) as [_ Hlocked].
  split; [|exact Hlocked].
  rewrite Hleds, last_snoc. reflexivity.
Defined.

(** X22 (LED throttle window).  The first update of an LED goes out and
    stamps the LED with the current time.  A second update of the same LED
    goes out only when at least the [led] interval has passed since that
    stamp; otherwise it is discarded without trace: the manager is exactly
    as before, so the state it carried is lost until some later update.
    An update that goes out stamps the LED with a fresh clock reading, taken
    after the one that was compared. *)
Theorem updateLED_throttle_window
    (d ctl st1 st2 : string) (fm : FeedbackManager.t) (c c2 : clock) (i : Z) :
  lastUpdate fm !! led_key d ctl = None →
  updateThrottles fm !! "led" = Some i →
  reading c (reads c) ≠ 0 →
  let '(_, fm1, _) := _updateLED d ctl st1 fm c in
  let '(_, fm2, _) := _updateLED d ctl st2 fm1 c2 in
  ledUpdates fm1
  = ledUpdates fm ++ [ {| u_deviceId := d; u_controlId := ctl; u_state := st1 |} ]
  ∧ lastUpdate fm1 !! led_key d ctl = Some (reading c (reads c))
  ∧ if i <=? reading c2 (reads c2) - reading c (reads c)
    then ledUpdates fm2
         = ledUpdates fm1 ++ [ {| u_deviceId := d; u_controlId := ctl; u_state := st2 |} ]
         ∧ lastUpdate fm2 !! led_key d ctl = Some (reading c2 (S (reads c2)))
    else fm2 = fm1.
Proof.
  intros Hfresh Hi Hnz.
  unfold _updateLED, _shouldUpdate; js_run. rewrite Hfresh. simpl.
  rewrite lookup_insert_eq, Hi. simpl.
  apply Z.eqb_neq in Hnz. rewrite Hnz. simpl.
  destruct (i <=? reading c2 (reads c2) - reading c (reads c)); simpl.
  - do 3 (split; [done|]). by rewrite lookup_insert_eq.
  - done.
Qed.

Lemma updateLED_throttle_window_witness :
  let '(_, fm1, _) :=
    _updateLED "midi-x" "play_a" "playing" FeedbackManager.new (clock_of [1000]) in
  let '(_, fm2, _) := _updateLED "midi-x" "play_a" "stopped" fm1 (clock_of [1005]) in
  ledUpdates fm1
  = [ {| u_deviceId := "midi-x"; u_controlId := "play_a"; u_state := "playing" |} ]
  ∧ fm2 = fm1.
Proof.
  pose proof (updateLED_throttle_window "midi-x" "play_a" "playing" "stopped"
                FeedbackManager.new (clock_of [1000]) (clock_of [1005]) 20
                eq_refl eq_refl ltac:(discriminate)) as H.
  destruct (_updateLED "midi-x" "play_a" "playing" FeedbackManager.new (clock_of [1000]))
    as [[[] fm1] c1].
  destruct (_updateLED "midi-x" "play_a" "stopped" fm1 (clock_of [1005]))
    as [[[] fm2] c2'].
  destruct H as (H1 & _ & H2). split; [exact H1 | exact H2].
Defined.

End FeedbackManagerBehaviour.

(* ================================================================== *)
(** ** Further properties of the HID translator *)
(* ================================================================== *)

Section HIDTranslatorBehaviour.
Import Config Actions HIDTranslator.
Variable Function : FunctionConstructor.

Lemma normalise_number (v lo hi : Z) :
  lo < hi → lo ≤ v ≤ hi →
  ∃ q, div (sub (ofZ v) (ofZ lo)) (sub (ofZ hi) (ofZ lo)) = Num q
       ∧ (q == inject_Z (v - lo) / inject_Z (hi - lo))%Q
       ∧ (0 <= q <= 1)%Q.
Proof.
  intros Hlt Hv.
  assert (Hy : (inject_Z hi + - inject_Z lo == inject_Z (hi - lo))%Q).
  { unfold Z.sub. rewrite inject_Z_plus, inject_Z_opp. reflexivity. }
  assert (Hx : (inject_Z v + - inject_Z lo == inject_Z (v - lo))%Q).
  { unfold Z.sub. rewrite inject_Z_plus, inject_Z_opp. reflexivity. }
  exists ((inject_Z v + - inject_Z lo) / (inject_Z hi + - inject_Z lo))%Q.
  split.
  { unfold div, sub, add, neg, ofZ, Qis_zero.
    assert ((Qnum (inject_Z hi + - inject_Z lo) =? 0) = false) as ->; [|done].
    apply Z.eqb_neq. simpl. lia. }
  assert (Hq : ((inject_Z v + - inject_Z lo) / (inject_Z hi + - inject_Z lo)
                == inject_Z (v - lo) / inject_Z (hi - lo))%Q).
  { rewrite Hx, Hy. reflexivity. }
  split; [exact Hq|].
  rewrite Hq.
  assert (0 < inject_Z (hi - lo))%Q as Hpos.
  { change 0%Q with (inject_Z 0). rewrite <- Zlt_Qlt. lia. }
  split.
  - apply Qle_shift_div_l; [exact Hpos|]. rewrite Qmult_0_l.
    change 0%Q with (inject_Z 0). rewrite <- Zle_Qle. lia.
  - apply Qle_shift_div_r; [exact Hpos|]. rewrite Qmult_1_l.
    rewrite <- Zle_Qle. lia.
Qed.

Lemma shl_one (r : Z) : 0 ≤ r ≤ 30 → HIDManager.shl 1 r = 2 ^ r.
Proof.
  intros Hr. unfold HIDManager.shl.
  rewrite (toInt32_small 1) by lia.
  rewrite Z.mod_small by lia. rewrite Z.shiftl_1_l.
  apply toInt32_small.
  assert (0 < 2 ^ r) by (apply Z.pow_pos_nonneg; lia).
  assert (2 ^ r ≤ 2 ^ 30) by (apply Z.pow_le_mono_r; lia).
  lia.
Qed.

(** X23 (absolute controls).  For a fader or knob (parsing type
    [absolute]) whose mapping has neither condition nor value expression,
    the action value is the raw value rescaled from the control's range to
    the unit interval: [(value - min) / (max - min)], with [min] defaulting
    to 0 and [max] to [2^resolution - 1].  A raw value inside the range
    gives a value between 0 and 1, and the raw value itself is passed on
    as [rawValue]. *)
Theorem hid_absolute_value_normalised
    (tr : HIDTranslator.t) (ev : HIDManager.HidEvent)
    (m : ControlMapping) (p : Parsing) (cc : HIDManager.ControlConfig)
    (template : ActionTemplate) (lo hi v : Z) :
  lookup_entry (HIDManager.e_control ev) (entries (mapping tr)) = Some m →
  parsing (mapping tr) = Some p →
  lookup_entry (HIDManager.e_control ev) (controls p) = Some cc →
  HIDManager.c_type cc = Some "absolute" →
  action m = Some template →
  truthy_string (condition m) = false →
  truthy_string (a_valueExpression template) = false →
  default (ofZ 0) (HIDManager.c_min cc) = ofZ lo →
  (HIDManager.c_max cc = Some (ofZ hi) ∧ hi ≠ 0
   ∨ HIDManager.c_max cc = None
     ∧ ∃ r, HIDManager.c_resolution cc = Some r ∧ 0 ≤ r ≤ 30 ∧ hi = 2 ^ r - 1) →
  HIDManager.e_value ev = Some (ofZ v) →
  lo < hi → lo ≤ v ≤ hi →
  ∃ act q,
    translate Function tr ev = (Returned (Some act), tr)
    ∧ value act = VNumber (Num q)
    ∧ (q == inject_Z (v - lo) / inject_Z (hi - lo))%Q
    ∧ (0 <= q <= 1)%Q
    ∧ rawValue act = Some (ofZ v).
Proof.
  intros Hm Hp Hcc Hty Ha Hcond Hexpr Hmin Hmax Hv Hlt Hrange.
  destruct (normalise_number v lo hi Hlt Hrange) as (q & Hq & Heq & Hbounds).
  assert (toNumber (or_else (HIDManager.c_min cc) (Some (ofZ 0))) = ofZ lo) as Hlo.
  { destruct (HIDManager.c_min cc) as [n|]; simpl in Hmin; [|done].
    subst n. unfold or_else. by destruct (truthy (Some (ofZ lo))) eqn:E;
      [|unfold truthy, truthy_number, ofZ, Qis_zero in E; simpl in E;
        apply negb_false_iff, Z.eqb_eq in E; subst lo]. }
  assert (toNumber (or_else (HIDManager.c_max cc)
                      (Some (ofZ (HIDManager.shl 1
                                    (default 0 (HIDManager.c_resolution cc)) - 1))))
          = ofZ hi) as Hhi.
  { destruct Hmax as [[-> Hnz]|(-> & r & -> & Hr & ->)]; simpl.
    - unfold or_else, truthy, truthy_number, ofZ, Qis_zero. simpl.
      apply Z.eqb_neq in Hnz. by rewrite Hnz.
    - unfold or_else. simpl. by rewrite shl_one. }
  exists (with_fields (base_action tr ev template) (VNumber (Num q)) None
            VUndefined VUndefined (Some (ofZ v))), q.
  split; [|done].
  unfold translate. rewrite Hm. unfold parsing_control. rewrite Hp, Hcc. simpl.
  rewrite Hty. rewrite bool_decide_eq_false_2 by discriminate. simpl.
  unfold _buildAction, parsing_control. rewrite Hp, Hcc. simpl. rewrite Ha.
  unfold typed_action. rewrite Hty.
  rewrite (bool_decide_eq_false_2 (Some "absolute" = Some "delta")) by discriminate.
  rewrite (bool_decide_eq_false_2 (Some "absolute" = Some "button")) by discriminate.
  rewrite (bool_decide_eq_true_2 (Some "absolute" = Some "absolute")) by done.
  rewrite Hlo, Hhi, Hv. cbn [toNumber]. rewrite Hq, Hcond, Hexpr. done.
Qed.

(** X24 (buttons).  For a button whose mapping has neither condition nor
    value expression, a press (a value above 0) gives an action with the
    value [true].  A release gives no action at all unless the mapping sets
    [emitRelease], in which case the action carries [false].  The
    translator itself is left unchanged either way. *)
Theorem hid_button_press_and_release
    (tr : HIDTranslator.t) (ev : HIDManager.HidEvent)
    (m : ControlMapping) (p : Parsing) (cc : HIDManager.ControlConfig)
    (template : ActionTemplate) :
  lookup_entry (HIDManager.e_control ev) (entries (mapping tr)) = Some m →
  parsing (mapping tr) = Some p →
  lookup_entry (HIDManager.e_control ev) (controls p) = Some cc →
  HIDManager.c_type cc = Some "button" →
  action m = Some template →
  truthy_string (condition m) = false →
  truthy_string (a_valueExpression template) = false →
  let pressed := gt (toNumber (HIDManager.e_value ev)) (ofZ 0) in
  let '(r, tr') := translate Function tr ev in
  tr' = tr
  ∧ (pressed = true → ∃ act, r = Returned (Some act) ∧ value act = VBool true)
  ∧ (pressed = false → a_emitRelease template = false → r = Returned None)
  ∧ (pressed = false → a_emitRelease template = true →
     ∃ act, r = Returned (Some act) ∧ value act = VBool false).
Proof.
  intros Hm Hp Hcc Hty Ha Hcond Hexpr pressed.
  unfold translate. rewrite Hm. unfold parsing_control. rewrite Hp, Hcc. simpl.
  rewrite Hty. rewrite bool_decide_eq_false_2 by discriminate. simpl.
  unfold _buildAction, parsing_control. rewrite Hp, Hcc. simpl. rewrite Ha.
  unfold typed_action. rewrite Hty.
  rewrite (bool_decide_eq_false_2 (Some "button" = Some "delta")) by discriminate.
  rewrite (bool_decide_eq_true_2 (Some "button" = Some "button")) by done.
  fold pressed. split; [done|].
  destruct pressed, (a_emitRelease template); simpl; rewrite ?Hcond, ?Hexpr; simpl.
  all: repeat split; try done; intros; by eexists.
Qed.

End HIDTranslatorBehaviour.

(** Worked runs of the results above, with an expression evaluator for
    which every expression fails. *)
Section HIDTranslatorRuns.
Import Config Actions HIDTranslator.

Lemma hid_absolute_value_normalised_witness :
  ∃ act q,
    translate Samples.failing_Function (HIDTranslator.new Samples.deck_config)
      (Samples.hid_event "crossfader" 512 0 7)
    = (Returned (Some act), HIDTranslator.new Samples.deck_config)
    ∧ value act = VNumber (Num q)
    ∧ (q == inject_Z (512 - 0) / inject_Z (1023 - 0))%Q
    ∧ (0 <= q <= 1)%Q
    ∧ rawValue act = Some (ofZ 512).
Proof.
  apply (hid_absolute_value_normalised Samples.failing_Function (HIDTranslator.new Samples.deck_config)
           (Samples.hid_event "crossfader" 512 0 7)
           (Samples.plain_mapping "mixer" "crossfader")
           {| controls := [("crossfader", Samples.crossfader);
                           ("play", Samples.play_button)] |}
           Samples.crossfader (Samples.template "mixer" "crossfader" (Some "A"))
           0 1023 512); try reflexivity; try lia.
  right. split; [reflexivity|]. exists 10. split; [reflexivity|]. split; [lia|reflexivity].
Defined.

Lemma hid_button_press_and_release_witness :
  let '(r, tr') := translate Samples.failing_Function (HIDTranslator.new Samples.deck_config)
                     (Samples.hid_event "play" 0 0 7) in
  tr' = HIDTranslator.new Samples.deck_config ∧ r = Returned None.
Proof.
  pose proof (hid_button_press_and_release Samples.failing_Function (HIDTranslator.new Samples.deck_config)
                (Samples.hid_event "play" 0 0 7)
                (Samples.plain_mapping "transport" "play")
                {| controls := [("crossfader", Samples.crossfader);
                                ("play", Samples.play_button)] |}
                Samples.play_button (Samples.template "transport" "play" (Some "A"))
                eq_refl eq_refl eq_refl eq_refl eq_refl eq_refl eq_refl) as H.
  destruct (translate Samples.failing_Function (HIDTranslator.new Samples.deck_config)
              (Samples.hid_event "play" 0 0 7)) as [r tr'].
  destruct H as (Htr & _ & Hrel & _). split; [exact Htr|].
  apply Hrel; reflexivity.
Defined.

End HIDTranslatorRuns.

(* ================================================================== *)
(** ** Reconnection backoff *)
(* ================================================================== *)

Section ReconnectBehaviour.
Import Reconnect.







(** The ['open'] handler starts the backoff over. *)
Lemma on_open_resets_backoff (cl : Reconnect.t) :
  reconnectTimer cl = None → maxReconnectAttempts cl = None →
  reconnectTimer (_scheduleReconnect (on_open cl)) = Some (backoff 5000 1).
Proof. intros Ht Hm. unfold _scheduleReconnect, on_open. simpl. by rewrite Ht, Hm. Qed.

End ReconnectBehaviour.

(* ================================================================== *)
(** ** The baseline of the HID state diff over consecutive polls *)
(* ================================================================== *)

Section HIDPollingBehaviour.
Import HIDManager.

(** What one poll with a non-empty report emits and stores. *)
Lemma pollDevice_step (m : HIDManager.t) (c : clock) (d : string)
    (info : DeviceInfo) (data : list Z) :
  devices m !! d = Some info → data ≠ [] →
  let parsed := parser (controls info) data in
  let '(events, m', _) := _pollDevice d (Returned data) m c in
  (e_control <$> events)
  = (fst <$> filter (fun e => changed (previousState info) e = true) parsed)
  ∧ ∃ st, devices m' !! d
          = Some {| controls := controls info; state := st;
                    previousState := state info |}
          ∧ (fst <$> st) = (fst <$> parsed)
          ∧ ((fun e => s_value e.2) <$> st) = ((fun e => s_value e.2) <$> parsed).
Proof.
  intros Hinfo Hdata parsed. unfold State in *.
  destruct data as [|byte bytes]; [done|].
  unfold _pollDevice, _computeDeltas; js_run. rewrite Hinfo. cbv beta iota.
  pose proof (compute_deltas_controls (previousState info) parsed) as (H1 & H2 & H3).
  fold parsed.
  destruct (compute_deltas (previousState info) parsed) as [deltas st]. simpl in H1, H2, H3.
  match goal with
  | |- context [emit_all d st deltas ?m0 c] =>
      pose proof (emit_all_fields d st deltas m0 c) as He;
      destruct (emit_all d st deltas m0 c) as [[events m'] c']
  end.
  destruct He as (-> & Hc & _). split; [by rewrite Hc|].
  exists st. simpl. by rewrite lookup_insert_eq.
Qed.

(** Whether a control changed depends on the names and values of the
    baseline only. *)
Lemma changed_ext (st st' : State) (e : string * ControlState) :
  (fst <$> st) = (fst <$> st') →
  ((fun e => s_value e.2) <$> st) = ((fun e => s_value e.2) <$> st') →
  changed st e = changed st' e.
Proof.
  unfold State in *. intros Hk Hv. unfold changed.
  assert (lookup_entry e.1 st ≫= s_value = lookup_entry e.1 st' ≫= s_value) as ->;
    [|done].
  revert st' Hk Hv.
  induction st as [|[k v] st IH]; intros [|[k' v'] st'] Hk Hv; try done.
  injection Hk as <- Hk. injection Hv as Hv0 Hv.
  simpl. destruct (String.eqb k e.1); simpl; [done|]. by apply IH.
Qed.

Lemma parser_names_sublist (ctls : list (string * ControlConfig)) (data : list Z) :
  (fst <$> parser ctls data) `sublist_of` (fst <$> ctls).
Proof.
  induction ctls as [|[name cfg] ctls IH]; simpl; [done|].
  destruct (parse_control data cfg); rewrite ?fmap_cons; simpl.
  - by apply sublist_skip.
  - by apply sublist_cons.
Qed.

Lemma unchanged_against_itself (st : State) (e : string * ControlState) :
  NoDup (fst <$> st) → e ∈ st → changed st e = false.
Proof.
  unfold State in *. intros Hnd Hin. unfold changed.
  rewrite negb_false_iff, bool_decide_eq_true.
  assert (lookup_entry e.1 st = Some e.2) as ->; [|done].
  induction st as [|[k v] st IH]; [by apply elem_of_nil in Hin|].
  rewrite fmap_cons in Hnd. apply NoDup_cons in Hnd as [Hfresh Hnd].
  simpl. apply elem_of_cons in Hin as [->|Hin].
  - simpl. by rewrite String.eqb_refl.
  - destruct (String.eqb_spec k e.1) as [->|_]; [|by apply IH].
    exfalso. apply Hfresh. simpl. apply list_elem_of_fmap. by exists e.
Qed.

Lemma filter_all_false {A} (P : A → Prop) `{∀ x, Decision (P x)} (l : list A) :
  (∀ x, x ∈ l → ¬ P x) → filter P l = [].
Proof.
  induction l as [|x l IH]; intros Hall; [done|].
  rewrite filter_cons_False by (apply Hall; left).
  apply IH. intros y Hy. apply Hall. by right.
Qed.

(** X27 (the diff looks two reports back).  Because a poll stores the
    state it found, not the state it just parsed, as [previousState], the
    third of three polls is compared with the first report, not with the
    second: it emits an event for exactly those controls whose value
    differs from the value in the report before last.  So a report equal to
    the one before last emits nothing, even when every value differs from
    the report in between. *)
Theorem poll_compares_with_report_before_last
    (m : HIDManager.t) (c : clock) (d : string) (info : DeviceInfo)
    (d1 d2 d3 : list Z) :
  devices m !! d = Some info → d1 ≠ [] → d2 ≠ [] → d3 ≠ [] →
  let '(_, m1, c1) := _pollDevice d (Returned d1) m c in
  let '(_, m2, c2) := _pollDevice d (Returned d2) m1 c1 in
  let '(events, _, _) := _pollDevice d (Returned d3) m2 c2 in
  (e_control <$> events)
  = (fst <$> filter (fun e => changed (parser (controls info) d1) e = true)
               (parser (controls info) d3))
  ∧ (NoDup (fst <$> controls info) → d3 = d1 → events = []).
Proof.
  intros Hinfo H1 H2 H3.
  pose proof (pollDevice_step m c d info d1 Hinfo H1) as S1.
  destruct (_pollDevice d (Returned d1) m c) as [[ev1 m1] c1].
  destruct S1 as (_ & st1 & Hinfo1 & Hk1 & Hv1).
  pose proof (pollDevice_step m1 c1 d _ d2 Hinfo1 H2) as S2.
  destruct (_pollDevice d (Returned d2) m1 c1) as [[ev2 m2] c2].
  destruct S2 as (_ & st2 & Hinfo2 & _). cbn [controls state] in Hinfo2.
  pose proof (pollDevice_step m2 c2 d _ d3 Hinfo2 H3) as S3.
  destruct (_pollDevice d (Returned d3) m2 c2) as [[ev3 m3] c3].
  destruct S3 as (Hev & _). cbn [controls previousState] in Hev.
  assert ((e_control <$> ev3)
          = (fst <$> filter (fun e => changed (parser (controls info) d1) e = true)
                       (parser (controls info) d3))) as Hev'.
  { rewrite Hev. f_equal. apply list_filter_iff. intros e.
    by rewrite (changed_ext st1 (parser (controls info) d1)). }
  split; [exact Hev'|].
  intros Hnd ->. apply (fmap_nil_inv e_control). rewrite Hev'.
  assert (NoDup (fst <$> parser (controls info) d1)) as Hnd1.
  { by apply (sublist_NoDup _ _ Hnd (parser_names_sublist _ _)). }
  assert (filter (fun e => changed (parser (controls info) d1) e = true)
            (parser (controls info) d1) = []) as ->; [|done].
  unfold State in *.
  apply filter_all_false. intros e He Hch.
  by rewrite (unchanged_against_itself _ e Hnd1 He) in Hch.
Qed.

Lemma poll_compares_with_report_before_last_witness :
  let '(_, m1, c1) :=
    _pollDevice "hid-x" (Returned [1; 0]) Samples.one_button_device (clock_of [10]) in
  let '(_, m2, c2) := _pollDevice "hid-x" (Returned [0; 0]) m1 c1 in
  let '(events, _, _) := _pollDevice "hid-x" (Returned [1; 0]) m2 c2 in
  events = [].
Proof.
  pose proof (poll_compares_with_report_before_last Samples.one_button_device
                (clock_of [10]) "hid-x" (connected [("play", Samples.play_button)])
                [1; 0] [0; 0] [1; 0] eq_refl
                ltac:(discriminate) ltac:(discriminate) ltac:(discriminate)) as H.
  destruct (_pollDevice "hid-x" (Returned [1; 0]) Samples.one_button_device (clock_of [10]))
    as [[ev1 m1] c1].
  destruct (_pollDevice "hid-x" (Returned [0; 0]) m1 c1) as [[ev2 m2] c2].
  destruct (_pollDevice "hid-x" (Returned [1; 0]) m2 c2) as [[events m3] c3].
  destruct H as [_ H]. apply H; [|reflexivity].
  apply (bool_decide_unpack _). vm_compute. reflexivity.
Defined.

End HIDPollingBehaviour.
